(** * json-lib: the parser of [lib/parse.js]

    A shallow embedding of the tokenizer, the recursive-descent parser and
    the circular-reference resolver of [lib/parse.js], and the properties
    of the specification that concern them.

    The module-level variables of the source ([jsonText], [index], [c],
    [token], [tokenType], [path], [stack]) are the fields of one [state]
    record that every function threads through a state-and-exception monad.
    JavaScript objects and arrays are mutable and shared (the stack aliases
    the containers under construction, and a resolved circular reference
    puts an ancestor inside its own descendant), so containers live in a
    heap and values refer to them by location. *)

From Stdlib Require Import ZArith NArith List String Ascii Lia DecimalString.
From Stdlib Require Import Floats.SpecFloat.
From stdpp Require Import gmap list.

Local Open Scope Z_scope.
Local Open Scope nat_scope.

(* ================================================================== *)
(** ** JavaScript strings *)
(* ================================================================== *)

(** A JavaScript string is a sequence of UTF-16 code units. *)
Abbreviation jsstring := (list N).

(** The string with the characters of a Rocq string literal. *)
Definition js (s : string) : jsstring :=
  map N_of_ascii (list_ascii_of_string s).

(** The double quote and the backslash, which a Rocq literal cannot hold
    conveniently. *)
Definition dquote : N := 34%N.
Definition backslash : N := 92%N.

(** A JSON text written with ['] standing for the double quote, to keep
    the example inputs readable. *)
Definition json (s : string) : jsstring :=
  map (fun x => if N.eqb x 39 then dquote else x) (js s).

(** [a === b] on strings. *)
Definition str_eqb (a b : jsstring) : bool := bool_decide (a = b).

(** [a < b] on strings: lexicographic on code units. *)
Fixpoint str_ltb (a b : jsstring) : bool :=
  match a, b with
  | _, [] => false
  | [], _ :: _ => true
  | x :: a', y :: b' =>
      if N.ltb x y then true
      else if N.ltb y x then false
      else str_ltb a' b'
  end.

(** [a <= b] and [a >= b] on strings. *)
Definition str_leb (a b : jsstring) : bool := negb (str_ltb b a).
Definition str_geb (a b : jsstring) : bool := negb (str_ltb a b).

(** [s.charAt(i)]: the one-character string at [i], or the empty string
    when [i] is out of range. *)
Definition charAt (s : jsstring) (i : nat) : jsstring :=
  match s !! i with
  | Some x => [x]
  | None => []
  end.

(** [n + ''] for a non-negative integer [n]. *)
Definition numberToString (n : nat) : jsstring :=
  js (NilZero.string_of_uint (Nat.to_uint n)).

(* ================================================================== *)
(** ** Numbers: [token/1] *)
(* ================================================================== *)

(** A JavaScript Number is an IEEE 754 binary64 value. [token/1] converts
    the token text to a Number (ToNumber applied to a string) and divides
    it by one. *)
Module Number.

Local Open Scope Z_scope.

Definition prec : Z := 53.
Definition emax : Z := 1024.

Definition isDigitCode (x : N) : bool := (48 <=? x)%N && (x <=? 57)%N.

(** Reads a run of decimal digits: the accumulated value, the number of
    digits read and the rest of the string. *)
Fixpoint readDigits (s : jsstring) (acc : Z) (n : Z) : Z * Z * jsstring :=
  match s with
  | x :: s' =>
      if isDigitCode x
      then readDigits s' (10 * acc + (Z.of_N x - 48)) (n + 1)
      else (acc, n, s)
  | [] => (acc, n, s)
  end.

(** The binary64 value nearest to [m * 10 ^ e] (ties to even), with the
    sign [neg]. For a negative [e] the quotient is computed with 64
    bits or more and a sticky bit, which [binary_round] then rounds as it
    would round the exact quotient. *)
Definition roundDecimal (neg : bool) (m e : Z) : spec_float :=
  if m =? 0 then S754_zero neg
  else if 0 <=? e then binary_round prec emax neg (Z.to_pos (m * 10 ^ e)) 0
  else
    let d := 10 ^ (- e) in
    let k := Z.log2 d + 64 in
    let q := (m * 2 ^ k) / d in
    let r := (m * 2 ^ k) mod d in
    let sticky := if r =? 0 then 0 else 1 in
    binary_round prec emax neg (Z.to_pos (2 * q + sticky)) (- k - 1).

(** ToNumber on the strings of the JSON number grammar
    ['-'? digits ('.' digits)? ([eE] [+-]? digits)?], which are the only
    ones the tokenizer produces as NUMBER tokens (leading zeros
    included); any other string is NaN here. *)
Definition toNumber (t : jsstring) : spec_float :=
  let '(neg, t1) :=
    match t with
    | 45%N :: r => (true, r)
    | _ => (false, t)
    end in
  let '(ip, ni, t2) := readDigits t1 0 0 in
  let '(m, nf, t3) :=
    match t2 with
    | 46%N :: r => readDigits r ip 0
    | _ => (ip, 1, t2)
    end in
  let '(e, ne, t4) :=
    match t3 with
    | 101%N :: r | 69%N :: r =>
        match r with
        | 43%N :: r' => readDigits r' 0 0
        | 45%N :: r' => let '(x, n, r'') := readDigits r' 0 0 in (- x, n, r'')
        | _ => readDigits r 0 0
        end
    | _ => (0, 1, t3)
    end in
  let frac := match t2 with 46%N :: _ => nf | _ => 0 end in
  if (0 <? ni) && (0 <? nf) && (0 <? ne) && str_eqb t4 []
  then roundDecimal neg m (e - frac)
  else S754_nan.

(** The Number 1. *)
Definition one : spec_float := S754_finite false 4503599627370496 (-52).

(** [x / y] on Numbers. *)
Definition div (x y : spec_float) : spec_float := SFdiv prec emax x y.

End Number.

(* ================================================================== *)
(** ** Values, containers and the parser state *)
(* ================================================================== *)

(** A value is a primitive or a reference to a container of the heap. *)
Inductive value : Type :=
| VUndefined
| VNull
| VBool (b : bool)
| VNumber (x : spec_float)
| VString (s : jsstring)
| VRef (l : nat).

(** A container is an object (a map from keys to values: every key the
    parser writes is taken as an own property, so the inherited
    [__proto__] accessor is outside the model) or an array.

    The objects of the model have no prototype. The source creates its
    objects with [{}], so that they inherit from [Object.prototype], whose
    only accessor property is [__proto__]: an assignment
    [object[key] = v] adds or replaces an own property for every key but
    [__proto__], and for that key runs the inherited setter (which sets
    the prototype when [v] is an object or [null], ignores [v] otherwise,
    and throws a TypeError on a cyclic prototype chain). The model is
    therefore the source on every call that assigns no member named
    [__proto__]; on the other calls it records the member as an own
    property, which the source does not create. The properties that depend
    on the members of an object are stated for the first kind of calls
    (see [plain] and [wf] below). *)
Inductive container : Type :=
| CObject (props : gmap jsstring value)
| CArray (items : list value).

(** [const TOKENTYPE]. *)
Inductive TOKENTYPE : Type :=
| NULL | DELIMITER | NUMBER | STRING | SYMBOL | UNKNOWN.

Definition tokenType_eqb (a b : TOKENTYPE) : bool :=
  match a, b with
  | NULL, NULL | DELIMITER, DELIMITER | NUMBER, NUMBER
  | STRING, STRING | SYMBOL, SYMBOL | UNKNOWN, UNKNOWN => true
  | _, _ => false
  end.

(** The module-level variables, and the heap of the containers the
    current call has allocated. *)
Record state : Type := mkState {
  jsonText : jsstring;       (* current json text *)
  index : nat;               (* current index in text *)
  c : jsstring;              (* current token character in text *)
  token : jsstring;          (* current token *)
  tokenType : TOKENTYPE;     (* type of current token *)
  path : list value;         (* keys on the current stack *)
  stack : list value;        (* objects (Object or Array) on the current stack *)
  heap : list container      (* the containers allocated so far *)
}.

Definition with_jsonText (x : jsstring) (s : state) : state :=
  mkState x (index s) (c s) (token s) (tokenType s) (path s) (stack s) (heap s).
Definition with_index (x : nat) (s : state) : state :=
  mkState (jsonText s) x (c s) (token s) (tokenType s) (path s) (stack s) (heap s).
Definition with_c (x : jsstring) (s : state) : state :=
  mkState (jsonText s) (index s) x (token s) (tokenType s) (path s) (stack s) (heap s).
Definition with_token (x : jsstring) (s : state) : state :=
  mkState (jsonText s) (index s) (c s) x (tokenType s) (path s) (stack s) (heap s).
Definition with_tokenType (x : TOKENTYPE) (s : state) : state :=
  mkState (jsonText s) (index s) (c s) (token s) x (path s) (stack s) (heap s).
Definition with_path (x : list value) (s : state) : state :=
  mkState (jsonText s) (index s) (c s) (token s) (tokenType s) x (stack s) (heap s).
Definition with_stack (x : list value) (s : state) : state :=
  mkState (jsonText s) (index s) (c s) (token s) (tokenType s) (path s) x (heap s).
Definition with_heap (x : list container) (s : state) : state :=
  mkState (jsonText s) (index s) (c s) (token s) (tokenType s) (path s) (stack s) x.

(** *** JavaScript arrays *)

(** [a[i]]: [undefined] out of range. *)
Definition arrayGet (a : list value) (i : nat) : value :=
  default VUndefined (a !! i).

(** [a[i] = v]: an index at or past the length extends the array, the
    holes reading as [undefined]. *)
Definition arraySet (a : list value) (i : nat) (v : value) : list value :=
  if decide (i < length a) then <[i := v]> a
  else a ++ replicate (i - length a) VUndefined ++ [v].

(** [a.length = n]: truncates, or extends with holes. *)
Definition arraySetLength (a : list value) (n : nat) : list value :=
  take n a ++ replicate (n - length a) VUndefined.

(* ================================================================== *)
(** ** Errors and the parser monad *)
(* ================================================================== *)

(** What the source throws: [createSyntaxError] builds a SyntaxError whose
    text is [message + ' (char ' + c + ')'] and whose [char] property is
    [c]; [parseCircular] throws a plain Error. *)
Inductive exn : Type :=
| SyntaxError (message : jsstring) (char : Z)
| Error (message : jsstring).

(** The result of running a computation: a value, an exception, or the
    exhaustion of the fuel that bounds the loops and the recursion of the
    embedding. *)
Inductive outcome (A : Type) : Type :=
| Val (a : A)
| Throw (e : exn)
| OutOfFuel.
Arguments Val {A} a.
Arguments Throw {A} e.
Arguments OutOfFuel {A}.

Definition M (A : Type) : Type := state -> outcome A * state.

Definition ret {A} (a : A) : M A := fun s => (Val a, s).

Definition bind {A B} (m : M A) (k : A -> M B) : M B :=
  fun s =>
    match m s with
    | (Val a, s') => k a s'
    | (Throw e, s') => (Throw e, s')
    | (OutOfFuel, s') => (OutOfFuel, s')
    end.

Definition throw {A} (e : state -> exn) : M A := fun s => (Throw (e s), s).
Definition outOfFuel {A} : M A := fun s => (OutOfFuel, s).
Definition get : M state := fun s => (Val s, s).
Definition modify (f : state -> state) : M unit := fun s => (Val tt, f s).

Declare Scope parser_scope.
Delimit Scope parser_scope with parser.
Notation "x <- m ;; k" := (bind m (fun x => k))
  (at level 100, m at next level, right associativity) : parser_scope.
Notation "m ;; k" := (bind m (fun _ => k))
  (at level 100, right associativity) : parser_scope.
Local Open Scope parser_scope.

(** [while (cond) body], at most [fuel] iterations. *)
Fixpoint while (fuel : nat) (cond : state -> bool) (body : M unit) : M unit :=
  fun s =>
    if cond s then
      match fuel with
      | O => (OutOfFuel, s)
      | S fuel' => (body ;; while fuel' cond body) s
      end
    else (Val tt, s).

(** [while (true) { ... }] left by [break]: [body] answers whether the
    loop goes on; at most [fuel] iterations. *)
Fixpoint loop (fuel : nat) (body : M bool) : M unit :=
  match fuel with
  | O => outOfFuel
  | S fuel' => continue <- body ;; if continue : bool then loop fuel' body else ret tt
  end.

(* ================================================================== *)
(** ** Tokenizer *)
(* ================================================================== *)

(** [const DELIMITERS]: the keys of the table. *)
Definition DELIMITERS (x : jsstring) : bool :=
  bool_decide (x ∈ [js ""; js "{"; js "}"; js "["; js "]"; js ":"; js ","]).

(** [const ESCAPE_CHARACTERS]: [None] is [undefined]. *)
Definition ESCAPE_CHARACTERS (x : jsstring) : option jsstring :=
  if str_eqb x [dquote] then Some [dquote]
  else if str_eqb x [backslash] then Some [backslash]
  else if str_eqb x (js "/") then Some (js "/")
  else if str_eqb x (js "b") then Some [8%N]
  else if str_eqb x (js "f") then Some [12%N]
  else if str_eqb x (js "n") then Some [10%N]
  else if str_eqb x (js "r") then Some [13%N]
  else if str_eqb x (js "t") then Some [9%N]
  else None.

(** [/^[a-zA-Z_]/.test(c)] *)
Definition isAlpha (x : jsstring) : bool :=
  match x with
  | a :: _ => ((97 <=? a) && (a <=? 122) || (65 <=? a) && (a <=? 90) || (a =? 95))%N
  | [] => false
  end.

(** [/^[0-9a-fA-F]/.test(c)] *)
Definition isHex (x : jsstring) : bool :=
  match x with
  | a :: _ => ((48 <=? a) && (a <=? 57) || (97 <=? a) && (a <=? 102) || (65 <=? a) && (a <=? 70))%N
  | [] => false
  end.

(** [c >= '0' && c <= '9'] *)
Definition isDigit (x : jsstring) : bool :=
  str_geb x (js "0") && str_leb x (js "9").

(** [parseInt(hex, 16)] on a string of hexadecimal digits (it stops at the
    first character that is not one). *)
Definition hexDigit (a : N) : option N :=
  if ((48 <=? a) && (a <=? 57))%N then Some (a - 48)%N
  else if ((97 <=? a) && (a <=? 102))%N then Some (a - 87)%N
  else if ((65 <=? a) && (a <=? 70))%N then Some (a - 55)%N
  else None.

Fixpoint parseInt16 (acc : N) (hex : jsstring) : N :=
  match hex with
  | a :: hex' =>
      match hexDigit a with
      | Some d => parseInt16 (16 * acc + d)%N hex'
      | None => acc
      end
  | [] => acc
  end.

(** [String.fromCharCode(n)] *)
Definition fromCharCode (n : N) : jsstring := [(n mod 65536)%N].

(** [createSyntaxError(message, c)]: without [c], the position is
    [index - token.length]. *)
Definition createSyntaxError (message : jsstring) (pos : option nat) (s : state) : exn :=
  match pos with
  | Some p => SyntaxError message (Z.of_nat p)
  | None => SyntaxError message (Z.of_nat (index s) - Z.of_nat (length (token s)))
  end.

(** [next()] *)
Definition next : M unit :=
  modify (fun s => with_index (S (index s)) s) ;;
  modify (fun s => with_c (charAt (jsonText s) (index s)) s).

(** [token += c; next();] *)
Definition accept : M unit :=
  modify (fun s => with_token (token s ++ c s) s) ;;
  next.

(** A loop of the tokenizer: each of them leaves the loop at the end of
    the text, so the length of the text bounds its iterations. *)
Definition scan (cond : state -> bool) (body : M unit) : M unit :=
  s <- get ;; while (length (jsonText s)) cond body.

(** [if (!isDigit(c)) throw createSyntaxError('Invalid number, digit expected', index);] *)
Definition expectDigit : M unit :=
  s <- get ;;
  if isDigit (c s) then ret tt
  else throw (createSyntaxError (js "Invalid number, digit expected") (Some (index s))).

(** [while (isDigit(c)) { token += c; next(); }] *)
Definition digits : M unit := scan (fun s => isDigit (c s)) accept.

(** The number branch of [getToken]. *)
Definition getNumber : M unit :=
  modify (with_tokenType NUMBER) ;;
  s <- get ;;
  (if str_eqb (c s) (js "-") then accept ;; expectDigit
   else if str_eqb (c s) (js "0") then accept
   else ret tt) ;;
  digits ;;
  s <- get ;;
  (if str_eqb (c s) (js ".") then accept ;; expectDigit ;; digits
   else ret tt) ;;
  s <- get ;;
  (if str_eqb (c s) (js "e") || str_eqb (c s) (js "E") then
     accept ;;
     s <- get ;;
     (if str_eqb (c s) (js "+") || str_eqb (c s) (js "-") then accept else ret tt) ;;
     expectDigit ;;
     digits
   else ret tt).

(** [for (let u = 0; u < 4; u++) { ... hex += c; next(); }], [n] rounds
    to go. *)
Fixpoint readHex (n : nat) (hex : jsstring) : M jsstring :=
  match n with
  | O => ret hex
  | S n' =>
      s <- get ;;
      if isHex (c s) then next ;; readHex n' (hex ++ c s)
      else throw (createSyntaxError (js "Invalid unicode character") None)
  end.

(** The body of the string loop of [getToken]. *)
Definition stringChar : M unit :=
  s <- get ;;
  if str_eqb (c s) [backslash] then
    next ;;
    s <- get ;;
    match ESCAPE_CHARACTERS (c s) with
    | Some unescaped =>
        modify (fun s => with_token (token s ++ unescaped) s) ;;
        next
    | None =>
        if str_eqb (c s) (js "u") then
          next ;;
          hex <- readHex 4 [] ;;
          modify (fun s => with_token (token s ++ fromCharCode (parseInt16 0 hex)) s)
        else
          throw (createSyntaxError
                   (js "Invalid escape character " ++ [dquote; backslash] ++ c s ++ [dquote])
                   (Some (index s)))
    end
  else accept.

(** The string branch of [getToken]. *)
Definition getString : M unit :=
  modify (with_tokenType STRING) ;;
  next ;;
  scan (fun s => negb (str_eqb (c s) []) && negb (str_eqb (c s) [dquote])) stringChar ;;
  s <- get ;;
  if negb (str_eqb (c s) [dquote])
  then throw (createSyntaxError (js "End of string expected") None)
  else next.

(** [getToken()] *)
Definition getToken : M unit :=
  modify (with_tokenType NULL) ;;
  modify (with_token []) ;;
  scan (fun s => str_eqb (c s) (js " ") || str_eqb (c s) [9%N]
                 || str_eqb (c s) [10%N] || str_eqb (c s) [13%N]) next ;;
  s <- get ;;
  if DELIMITERS (c s) then
    modify (with_tokenType DELIMITER) ;;
    modify (fun s => with_token (c s) s) ;;
    next
  else if isDigit (c s) || str_eqb (c s) (js "-") then getNumber
  else if str_eqb (c s) [dquote] then getString
  else if isAlpha (c s) then
    modify (with_tokenType SYMBOL) ;;
    scan (fun s => isAlpha (c s)) accept
  else
    modify (with_tokenType UNKNOWN) ;;
    scan (fun s => negb (str_eqb (c s) [])) accept ;;
    s <- get ;;
    throw (createSyntaxError
             (js "Syntax error in part " ++ [dquote] ++ token s ++ [dquote]) None).

(* ================================================================== *)
(** ** Grammar parser and circular-reference resolver *)
(* ================================================================== *)

(** *** Heap operations *)

(** [{}] and [[]]: a new container, and the reference to it. *)
Definition alloc (k : container) : M value :=
  s <- get ;;
  modify (with_heap (heap s ++ [k])) ;;
  ret (VRef (length (heap s))).

(** [object[key] = v], for a key other than [__proto__] (see [container]
    for that key). *)
Definition setProperty (object : value) (key : jsstring) (v : value) : M unit :=
  modify (fun s =>
    match object with
    | VRef l =>
        match heap s !! l with
        | Some (CObject props) => with_heap (<[l := CObject (<[key := v]> props)]> (heap s)) s
        | _ => s
        end
    | _ => s
    end).

(** [array.push(v)] *)
Definition push (array : value) (v : value) : M unit :=
  modify (fun s =>
    match array with
    | VRef l =>
        match heap s !! l with
        | Some (CArray items) => with_heap (<[l := CArray (items ++ [v])]> (heap s)) s
        | _ => s
        end
    | _ => s
    end).

(** [array.length] *)
Definition arrayLength (s : state) (array : value) : nat :=
  match array with
  | VRef l =>
      match heap s !! l with
      | Some (CArray items) => length items
      | _ => 0
      end
  | _ => 0
  end.

(** [object[key]]: [undefined] when there is no such property. *)
Definition getProperty (s : state) (object : value) (key : jsstring) : value :=
  match object with
  | VRef l =>
      match heap s !! l with
      | Some (CObject props) => default VUndefined (props !! key)
      | _ => VUndefined
      end
  | _ => VUndefined
  end.

(** [Object.keys(object).length] *)
Definition keysLength (s : state) (object : value) : nat :=
  match object with
  | VRef l =>
      match heap s !! l with
      | Some (CObject props) => size props
      | _ => 0
      end
  | _ => 0
  end.

(** [isCircular(object)]. [object.$ref] is read among the own properties:
    this is the source on objects whose prototype is the one [{}] gives
    them, that is, as long as no member named [__proto__] has been
    assigned (see [container]). *)
Definition isCircular (s : state) (object : value) : bool :=
  match getProperty s object (js "$ref") with
  | VString _ => bool_decide (keysLength s object = 1)
  | _ => false
  end.

(** [a !== b] for a string [a] and any value [b]. *)
Definition strictNotEqual (a : jsstring) (b : value) : bool :=
  match b with
  | VString b' => negb (str_eqb a b')
  | _ => true
  end.

(** [tokenType === TOKENTYPE.DELIMITER && token === d] *)
Definition isDelimiter (d : jsstring) (s : state) : bool :=
  tokenType_eqb (tokenType s) DELIMITER && str_eqb (token s) d.

(** The collaborators of [parse.js] that live in other modules: the
    configuration switch [config().circularRefs], the pointer parser
    [parsePointer] of [./pointer] and [revive] of [./revive]. They are taken
    as parameters: a switch, a function from the marker string to its path
    segments, and a function that rewrites the finished tree with a
    reviver or throws. *)
Section Parser.

Variable circularRefs : bool.
Variable parsePointer : jsstring -> list jsstring.
Variable Reviver : Type.
Variable revive : value -> Reviver -> list container -> (value + exn) * list container.

(** The string [object.$ref] of a marker ([isCircular] has checked that
    it is a string before [parseCircular] reads it). *)
Definition refOf (s : state) (object : value) : jsstring :=
  match getProperty s object (js "$ref") with
  | VString r => r
  | _ => []
  end.

(** The validation loop of [parseCircular]:
    [for (let i = 0; i < pointerPath.length; i++)], with [n] rounds to
    go from [i]. *)
Fixpoint validate (object : value) (pointerPath : list jsstring) (n i : nat) : M unit :=
  match n with
  | O => ret tt
  | S n' =>
      s <- get ;;
      if strictNotEqual (default [] (pointerPath !! i)) (arrayGet (path s) i)
      then throw (fun s => Error (js "Invalid circular reference "
                                   ++ [dquote] ++ refOf s object ++ [dquote]))
      else validate object pointerPath n' (S i)
  end.

(** [parseCircular(object)] *)
Definition parseCircular (object : value) : M value :=
  if negb circularRefs then ret object
  else
    s <- get ;;
    let pointerPath := parsePointer (refOf s object) in
    validate object pointerPath (length pointerPath) 0 ;;
    s <- get ;;
    ret (arrayGet (stack s) (length pointerPath)).

(** [parseEnd()] *)
Definition parseEnd : M value :=
  s <- get ;;
  if str_eqb (token s) []
  then throw (createSyntaxError (js "Unexpected end of json string") None)
  else throw (createSyntaxError (js "Value expected") None).

(** [parseSymbol()] *)
Definition parseSymbol : M value :=
  s <- get ;;
  if tokenType_eqb (tokenType s) SYMBOL then
    if str_eqb (token s) (js "true") then getToken ;; ret (VBool true)
    else if str_eqb (token s) (js "false") then getToken ;; ret (VBool false)
    else if str_eqb (token s) (js "null") then getToken ;; ret VNull
    else throw (createSyntaxError
                  (js "Unknown symbol " ++ [dquote] ++ token s ++ [dquote]) None)
  else parseEnd.

(** [parseNumber()] *)
Definition parseNumber : M value :=
  s <- get ;;
  if tokenType_eqb (tokenType s) NUMBER then
    let number := Number.div (Number.toNumber (token s)) Number.one in
    getToken ;;
    ret (VNumber number)
  else parseSymbol.

(** [parseString()] *)
Definition parseString : M value :=
  s <- get ;;
  if tokenType_eqb (tokenType s) STRING then
    let str := token s in
    getToken ;;
    ret (VString str)
  else parseNumber.

(** [parseArray()]; [parseObject] is the function it calls for each
    item, and [fuel] bounds the iterations of its loop. *)
Definition parseArray (fuel : nat) (parseObject : M value) : M value :=
  s <- get ;;
  if isDelimiter (js "[") s then
    getToken ;;
    array <- alloc (CArray []) ;;
    s <- get ;;
    if isDelimiter (js "]") s then
      (* empty array *)
      getToken ;;
      ret array
    else
      (* add this array to the stack *)
      let stackIndex := length (stack s) in
      modify (fun s => with_stack (arraySet (stack s) stackIndex array) s) ;;
      loop fuel (
        (* parse item *)
        modify (fun s => with_path
                  (arraySet (path s) stackIndex
                     (VString (numberToString (arrayLength s array)))) s) ;;
        item <- parseObject ;;
        push array item ;;
        (* parse item separator *)
        s <- get ;;
        if negb (isDelimiter (js ",") s) then ret false
        else getToken ;; ret true) ;;
      s <- get ;;
      if negb (isDelimiter (js "]") s)
      then throw (createSyntaxError
                    (js "Comma or end of array " ++ [dquote] ++ js "]" ++ [dquote]
                        ++ js " expected") None)
      else
        getToken ;;
        (* remove current entry from the stack *)
        modify (fun s => with_stack (arraySetLength (stack s) stackIndex) s) ;;
        modify (fun s => with_path (arraySetLength (path s) stackIndex) s) ;;
        ret array
  else parseString.

(** [parseObject()]; [fuel] bounds the depth of the recursion and the
    iterations of the loops. *)
Fixpoint parseObject (fuel : nat) : M value :=
  match fuel with
  | O => outOfFuel
  | S fuel' =>
      s <- get ;;
      if isDelimiter (js "{") s then
        getToken ;;
        object <- alloc (CObject ∅) ;;
        s <- get ;;
        if isDelimiter (js "}") s then
          (* empty object *)
          getToken ;;
          ret object
        else
          (* add this object to the stack *)
          let stackIndex := length (stack s) in
          modify (fun s => with_stack (arraySet (stack s) stackIndex object) s) ;;
          loop fuel' (
            (* parse key *)
            s <- get ;;
            if negb (tokenType_eqb (tokenType s) STRING)
            then throw (createSyntaxError (js "Object key expected") None)
            else
              let key := token s in
              getToken ;;
              (* parse key/value separator *)
              s <- get ;;
              if negb (isDelimiter (js ":") s)
              then throw (createSyntaxError (js "Colon expected") None)
              else
                getToken ;;
                (* parse value *)
                modify (fun s => with_path (arraySet (path s) stackIndex (VString key)) s) ;;
                v <- parseObject fuel' ;;
                setProperty object key v ;;
                (* parse key/value pair separator *)
                s <- get ;;
                if negb (isDelimiter (js ",") s) then ret false
                else getToken ;; ret true) ;;
          s <- get ;;
          if negb (isDelimiter (js "}") s)
          then throw (createSyntaxError
                        (js "Comma or end of object " ++ [dquote] ++ js "}" ++ [dquote]
                            ++ js " expected") None)
          else
            getToken ;;
            (* check whether this is a circular reference *)
            s <- get ;;
            if isCircular s object then parseCircular object
            else
              (* remove current entry from the stack *)
              modify (fun s => with_stack (arraySetLength (stack s) stackIndex) s) ;;
              modify (fun s => with_path (arraySetLength (path s) stackIndex) s) ;;
              ret object
      else parseArray fuel' (parseObject fuel')
  end.

(** [parse(text, reviver)], with the fuel given to [parseObject]. The
    containers the call allocates are numbered from zero: no container of
    an earlier call can be reached once [stack] is cleared, so the value
    and the heap of the call are its whole result. [reviver] is [None]
    when the argument is absent (or falsy). *)
Definition parseWith (fuel : nat) (text : jsstring) (reviver : option Reviver) : M value :=
  (* initialize *)
  modify (with_heap []) ;;
  modify (with_jsonText text) ;;
  modify (with_index 0) ;;
  modify (fun s => with_c (charAt (jsonText s) 0) s) ;;
  modify (with_token []) ;;
  modify (with_tokenType NULL) ;;
  (* clear stack *)
  modify (with_stack []) ;;
  modify (with_path []) ;;
  (* get first token *)
  getToken ;;
  (* parse everything *)
  json <- parseObject fuel ;;
  s <- get ;;
  if negb (str_eqb (token s) [])
  then throw (createSyntaxError (js "Unexpected characters") None)
  else
    match reviver with
    | Some r =>
        fun s =>
          match revive json r (heap s) with
          | (inl v, h) => (Val v, with_heap h s)
          | (inr e, h) => (Throw e, with_heap h s)
          end
    | None => ret json
    end.

(** The fuel that is enough for a text: every call of [parseObject] and
    every iteration of a loop of the descent follows a call of [getToken]
    that has moved [index] forward, and [index] never passes the end of
    the text by more than one. *)
Definition parseFuel (text : jsstring) : nat := length text + 2.

(** [parse(text, reviver)] *)
Definition parse (text : jsstring) (reviver : option Reviver) : M value :=
  parseWith (parseFuel text) text reviver.

End Parser.

(** Modelled from the spec: the path-string collaborator ([./pointer] is
    not among the sources). The spec gives it as a function from a
    URI-fragment-style pointer, a root marker followed by [/]-separated
    segments, to the sequence of the segments; the decoding of escaped
    characters, which the spec does not define, is left out. It is used to
    run the parser on concrete inputs only: the theorems hold for every
    pointer parser. *)
Fixpoint splitSlash (cur : jsstring) (s : jsstring) : list jsstring :=
  match s with
  | [] => [cur]
  | x :: s' => if N.eqb x 47 then cur :: splitSlash [] s' else splitSlash (cur ++ [x]) s'
  end.

Definition pointerSegments (pointer : jsstring) : list jsstring :=
  tail (splitSlash [] pointer).

(** A state of the module before a call: what an earlier call left, or the
    initial values of the declarations. *)
Definition initialState : state := mkState [] 0 [] [] NULL [] [] [].

(** [parse(text)] without a reviver, from the initial state. *)
Definition run (circularRefs : bool) (text : jsstring) : outcome value * state :=
  parse circularRefs pointerSegments unit (fun v _ h => (inl v, h)) text None initialState.

(* ================================================================== *)
(** ** A program logic for the parser monad *)
(* ================================================================== *)

(** [hoare P m Q]: from a state that satisfies [P], the computation [m]
    does not run out of fuel, and when it returns a value [a] in a state
    [s'] then [Q a s'] holds. A thrown exception satisfies the triple. *)
Definition hoare {A} (P : state -> Prop) (m : M A) (Q : A -> state -> Prop) : Prop :=
  forall s, P s ->
    match m s with
    | (Val a, s') => Q a s'
    | (Throw _, _) => True
    | (OutOfFuel, _) => False
    end.

(** *** Predicates on the state of the tokenizer *)

(** The cursor is consistent with the text: [c] is the character at
    [index]. *)
Definition cursor_ok (text : jsstring) (s : state) : Prop :=
  jsonText s = text /\ c s = charAt text (index s).

(** The cursor is inside the text or at its end, at or after [i]. *)
Definition scanning (text : jsstring) (i : nat) (s : state) : Prop :=
  cursor_ok text s /\ i <= index s /\ index s <= length text.

(** The token is the piece of the text that ends at the cursor. *)
Definition tok_span (text : jsstring) (s : state) : Prop :=
  exists pre, firstn (index s) text = pre ++ token s.

(** The token that marks the end of the input. *)
Definition atEnd (s : state) : Prop :=
  tokenType s = DELIMITER /\ token s = [].

(** The state between two tokens: the cursor is consistent; unless the
    end of the input has been read, the cursor is not past the end of
    the text and a token that is not a string is the piece of the text
    that ends at the cursor. *)
Definition tok_live (text : jsstring) (s : state) : Prop :=
  cursor_ok text s /\
  (atEnd s \/
   (index s <= length text /\ (tokenType s <> STRING -> tok_span text s))).

(** [refines m m']: [m'] computes what [m] computes whenever [m] has
    enough fuel. *)
Definition refines {A} (m m' : M A) : Prop :=
  forall s, fst (m s) <> OutOfFuel -> m' s = m s.

(** What the descent needs of a parser of values run with the fuel
    [fuel]: from a state between two tokens with more fuel than characters
    left, it ends, leaves a state between two tokens and does not move the
    cursor back. *)
Definition descends (text : jsstring) (fuel : nat) (m : M value) : Prop :=
  forall i, length text + 1 - i < fuel ->
    hoare (fun s => tok_live text s /\ index s = i) m
          (fun _ s => tok_live text s /\ i <= index s).

(** A parser of values that needs no fuel. *)
Definition advances (text : jsstring) (m : M value) : Prop :=
  forall i,
    hoare (fun s => tok_live text s /\ index s = i) m
          (fun _ s => tok_live text s /\ i <= index s).

(** [raises E m]: every exception [m] throws satisfies [E]. *)
Definition raises {A} (E : exn -> Prop) (m : M A) : Prop :=
  forall s, match fst (m s) with Throw e => E e | _ => True end.

(** The exceptions [createSyntaxError] builds. *)
Definition isSyntaxError (e : exn) : Prop :=
  match e with SyntaxError _ _ => True | Error _ => False end.

(** The exceptions of the descent: a SyntaxError, or the Error of
    [parseCircular], which needs the circular-reference switch. *)
Definition isParseError (circularRefs : bool) (e : exn) : Prop :=
  match e with SyntaxError _ _ => True | Error _ => circularRefs = true end.

(** The state in which a marker [{"$ref": ref}] closes inside the objects
    entered by the keys [ancestors]: the stack holds the ancestors and the
    marker, which is the last container of the heap, and the path holds
    the keys and ["$ref"]. *)
Definition closingMarker (ref : jsstring) (ancestors : list jsstring) : state :=
  mkState [] 0 [] [] NULL
          (map VString (ancestors ++ [js "$ref"]))
          (map VRef (seq 0 (S (length ancestors))))
          (replicate (length ancestors) (CObject ∅)
             ++ [CObject {[ js "$ref" := VString ref ]}]).

(** *** Predicates of the further properties *)

(** The text, the path, the stack and the heap are the same in both
    states. *)
Definition same_store (s s' : state) : Prop :=
  jsonText s' = jsonText s /\ path s' = path s /\ stack s' = stack s /\ heap s' = heap s.

(** [frames m]: whatever its outcome, [m] leaves the text, the path, the
    stack and the heap as they are. *)
Definition frames {A} (m : M A) : Prop :=
  forall s, same_store s (snd (m s)).

(** The whitespace that [getToken] skips: space, tab, newline and
    carriage return. *)
Definition isWhitespace (x : jsstring) : bool :=
  str_eqb x (js " ") || str_eqb x [9%N] || str_eqb x [10%N] || str_eqb x [13%N].

(** A string of whitespace characters. *)
Definition whitespace (w : jsstring) : Prop :=
  forall x, x ∈ w -> isWhitespace [x] = true.

(** The state of the tokenizer with the cursor at [i] of [text]. *)
Definition cursorAt (text : jsstring) (i : nat) (tok : jsstring) (ty : TOKENTYPE)
           (pa st : list value) (h : list container) : state :=
  mkState text i (charAt text i) tok ty pa st h.

(** The string that stands for [body] between double quotes: a backslash
    before every double quote and every backslash, and the other
    characters as they are. *)
Fixpoint escape (body : jsstring) : jsstring :=
  match body with
  | [] => []
  | x :: body' =>
      if N.eqb x dquote || N.eqb x backslash
      then backslash :: x :: escape body'
      else x :: escape body'
  end.

(** The pieces of the content of a string literal: a character, an
    escape made of a backslash and one character, and an escape made of
    a backslash, [u] and four characters. *)
Inductive stringItem : Type :=
| Char (x : N)
| Escape (x : N)
| Unicode (a1 a2 a3 a4 : N).

(** The characters of a piece in the text. *)
Definition itemText (it : stringItem) : jsstring :=
  match it with
  | Char x => [x]
  | Escape x => [backslash; x]
  | Unicode a1 a2 a3 a4 => [backslash; 117%N; a1; a2; a3; a4]
  end.

(** What a piece adds to the token. *)
Definition itemValue (it : stringItem) : jsstring :=
  match it with
  | Char x => [x]
  | Escape x => default [] (ESCAPE_CHARACTERS [x])
  | Unicode a1 a2 a3 a4 => fromCharCode (parseInt16 0 [a1; a2; a3; a4])
  end.

(** The pieces the string loop accepts: a character other than the double
    quote and the backslash, an escape of the table, and four hexadecimal
    digits behind [\u]. *)
Definition itemOk (it : stringItem) : bool :=
  match it with
  | Char x => negb (N.eqb x dquote) && negb (N.eqb x backslash)
  | Escape x => match ESCAPE_CHARACTERS [x] with Some _ => true | None => false end
  | Unicode a1 a2 a3 a4 => isHex [a1] && isHex [a2] && isHex [a3] && isHex [a4]
  end.

Definition contentText (items : list stringItem) : jsstring := concat (map itemText items).
Definition contentValue (items : list stringItem) : jsstring := concat (map itemValue items).

(** The characters a piece takes in the text beyond the one it adds to
    the token. *)
Definition itemShift (it : stringItem) : nat :=
  match it with
  | Char _ => 0
  | Escape _ => 1
  | Unicode _ _ _ _ => 5
  end.

Definition contentShift (items : list stringItem) : nat :=
  fold_right (fun it n => itemShift it + n) 0 items.

(** [partial P m Q]: when [m] returns a value [a] in a state [s'] from a
    state that satisfies [P], then [Q a s'] holds. *)
Definition partial {A} (P : state -> Prop) (m : M A) (Q : A -> state -> Prop) : Prop :=
  forall s, P s ->
    match m s with
    | (Val a, s') => Q a s'
    | _ => True
    end.

(** No member named [__proto__] has been assigned to an object of the
    heap. The model keeps every member that is assigned as an own
    property and never removes one, so a heap that is plain at the end of
    a call says that the call has assigned no such member, and that the
    objects it started from had none: on these calls the objects of the
    model are the objects of the source (see [container]). *)
Definition plain (h : list container) : bool :=
  forallb (fun k => match k with
                    | CObject props =>
                        match props !! js "__proto__" with
                        | None => true
                        | Some _ => false
                        end
                    | CArray _ => true
                    end) h.

(** What a parser of values leaves of the stack and the path that it
    found in [s0], with [n] entries each: the two arrays have the same
    length again and their first [n] entries are those of [s0]; if the
    stack is longer, its entry [n] is a marker. *)
Definition stack_kept (s0 s' : state) : Prop :=
  length (path s') = length (stack s')
  /\ firstn (length (stack s0)) (stack s') = stack s0
  /\ firstn (length (stack s0)) (path s') = path s0
  /\ (length (stack s') = length (stack s0)
      \/ exists object, stack s' !! length (stack s0) = Some object
                        /\ isCircular s' object = true).

(** A parser of values that keeps the stack. *)
Definition keeps_stack (m : M value) : Prop :=
  forall s0, length (path s0) = length (stack s0) ->
    partial (fun s => s = s0) m (fun _ s' => stack_kept s0 s').

(** Inside a container that was entered from [s0] and pushed as the
    entry [n] of the stack ([n] is the length of the stack of [s0]): the
    first [n] entries of the stack and of the path are those of [s0], the
    entry [n] of the stack is the container, and the path is as long as the
    stack. *)
Definition inside (s0 : state) (object : value) (s : state) : Prop :=
  firstn (length (stack s0)) (stack s) = stack s0
  /\ firstn (length (stack s0)) (path s) = path s0
  /\ stack s !! length (stack s0) = Some object
  /\ length (path s) = length (stack s).

(** The same at the head of the loop of the container: before the first
    round the path has no entry for the container yet. *)
Definition entered (s0 : state) (object : value) (s : state) : Prop :=
  inside s0 object s
  \/ (stack s = stack s0 ++ [object] /\ path s = path s0).

(** A character that starts no token: the last branch of [getToken]. *)
Definition isUnknown (x : jsstring) : bool :=
  negb (isWhitespace x || DELIMITERS x || isDigit x || str_eqb x (js "-")
        || str_eqb x [dquote] || isAlpha x).

(** The container [k] has the value [v] as a property value or an item. *)
Definition holds (k : container) (v : value) : Prop :=
  match k with
  | CObject props => exists key, props !! key = Some v
  | CArray items => v ∈ items
  end.

(** Every container of the heap holds only containers that were created
    after it: no container can be reached from itself. *)
Definition tree_heap (h : list container) : Prop :=
  forall l k l', h !! l = Some k -> holds k (VRef l') -> l < l' < length h.

(** What a value of the descent leaves from the state [s0]: the containers
    of [s0] as they were, and the value created after them. *)
Definition grown (s0 : state) (v : value) (s' : state) : Prop :=
  firstn (length (heap s0)) (heap s') = heap s0
  /\ tree_heap (heap s')
  /\ forall l, v = VRef l -> length (heap s0) <= l < length (heap s').

Definition grows (m : M value) : Prop :=
  forall s0, tree_heap (heap s0) -> partial (fun s => s = s0) m (grown s0).

(** The state of a container under construction at the index
    [length (heap s0)]. *)
Definition building (s0 s : state) : Prop :=
  firstn (length (heap s0)) (heap s) = heap s0
  /\ tree_heap (heap s)
  /\ length (heap s0) < length (heap s).

(** The pieces of a number literal: a non-empty run of digits, the
    optional minus sign, the optional fraction and the optional
    exponent. *)
Definition digitRun (ds : jsstring) : Prop :=
  ds <> [] /\ forall x, x ∈ ds -> isDigit [x] = true.

Definition isSign (sign : jsstring) : Prop := sign = [] \/ sign = js "-".

Definition isFraction (frac : jsstring) : Prop :=
  frac = [] \/ exists ds, frac = js "." ++ ds /\ digitRun ds.

Definition isExponent (exp : jsstring) : Prop :=
  exp = []
  \/ exists e sg ds,
       exp = e :: sg ++ ds /\ (e = 101%N \/ e = 69%N)
       /\ (sg = [] \/ sg = js "+" \/ sg = js "-") /\ digitRun ds.

(** A character, or the end of the text, that ends a number literal
    wherever it stands. *)
Definition numberEnd (x : jsstring) : bool :=
  negb (isDigit x || str_eqb x (js ".") || str_eqb x (js "e") || str_eqb x (js "E")).

(** *** Documents and their compact text *)

(** A JSON document: the number carries the pieces of its literal. *)
#[warnings="-register-all"] Inductive doc : Type :=
| DNull
| DBool (b : bool)
| DNumber (sign int frac exp : jsstring)
| DString (body : jsstring)
| DArray (items : list doc)
| DObject (members : list (jsstring * doc)).

(** A string literal. *)
Definition quote (body : jsstring) : jsstring := dquote :: escape body ++ [dquote].

(** The pieces behind the first one, each behind a comma. *)
Definition commas (parts : list jsstring) : jsstring :=
  concat (map (fun p => js "," ++ p) parts).

Definition join (parts : list jsstring) : jsstring :=
  match parts with
  | [] => []
  | p :: ps => p ++ commas ps
  end.

(** The text of a document without whitespace, as [JSON.stringify]
    writes it. *)
Fixpoint print (d : doc) : jsstring :=
  match d with
  | DNull => js "null"
  | DBool true => js "true"
  | DBool false => js "false"
  | DNumber sign int frac exp => sign ++ int ++ frac ++ exp
  | DString body => quote body
  | DArray items => js "[" ++ join (map print items) ++ js "]"
  | DObject members =>
      js "{" ++ join (map (fun m => quote (fst m) ++ js ":" ++ print (snd m)) members)
         ++ js "}"
  end.

(** The text of a member of an object. *)
Definition member (m : jsstring * doc) : jsstring :=
  quote (fst m) ++ js ":" ++ print (snd m).

(** The literals of the numbers of a document are well formed, and no
    member of an object of the document is named [__proto__] (a member
    with that name is not an own property in the source, see
    [container]). *)
Fixpoint wf (d : doc) : Prop :=
  match d with
  | DNumber sign int frac exp =>
      isSign sign /\ digitRun int /\ isFraction frac /\ isExponent exp
  | DArray items => fold_right (fun d P => wf d /\ P) True items
  | DObject members =>
      fold_right (fun m P => (fst m <> js "__proto__" /\ wf (snd m)) /\ P) True members
  | _ => True
  end.

(** [array.push(v)] and [object[key] = v] on the heap. *)
Definition pushAt (l : nat) (v : value) (h : list container) : list container :=
  match h !! l with
  | Some (CArray items) => <[l := CArray (items ++ [v])]> h
  | _ => h
  end.

Definition setAt (l : nat) (key : jsstring) (v : value) (h : list container)
  : list container :=
  match h !! l with
  | Some (CObject props) => <[l := CObject (<[key := v]> props)]> h
  | _ => h
  end.

(** The value of a document and the containers it adds to the heap [h]:
    a container is created before the containers inside it, and a later
    member of an object replaces an earlier one with the same key. *)
Fixpoint build (d : doc) (h : list container) : value * list container :=
  match d with
  | DNull => (VNull, h)
  | DBool b => (VBool b, h)
  | DNumber sign int frac exp =>
      (VNumber (Number.div (Number.toNumber (sign ++ int ++ frac ++ exp)) Number.one), h)
  | DString body => (VString body, h)
  | DArray items =>
      (VRef (length h),
       fold_left (fun h' d => pushAt (length h) (fst (build d h')) (snd (build d h')))
                 items (h ++ [CArray []]))
  | DObject members =>
      (VRef (length h),
       fold_left (fun h' m => setAt (length h) (fst m) (fst (build (snd m) h'))
                                    (snd (build (snd m) h')))
                 members (h ++ [CObject ∅]))
  end.

(** The first token of the text of a document, and the number of
    characters it takes. *)
Definition firstToken (d : doc) : jsstring :=
  match d with
  | DString body => body
  | DArray _ => js "["
  | DObject _ => js "{"
  | _ => print d
  end.

Definition firstType (d : doc) : TOKENTYPE :=
  match d with
  | DNull | DBool _ => SYMBOL
  | DNumber _ _ _ _ => NUMBER
  | DString _ => STRING
  | DArray _ | DObject _ => DELIMITER
  end.

Definition firstLength (d : doc) : nat :=
  match d with
  | DArray _ | DObject _ => 1
  | _ => length (print d)
  end.

(** A character, or the end of the text, that ends every token. *)
Definition terminator (x : jsstring) : bool := negb (isAlpha x) && numberEnd x.

(** [getToken()] at the offset [j] gives the token [tok] of type [ty] and
    moves the cursor to [j']. *)
Definition nextToken (text : jsstring) (j j' : nat) (tok : jsstring) (ty : TOKENTYPE)
  : Prop :=
  forall tok0 ty0 pa st h,
    getToken (cursorAt text j tok0 ty0 pa st h) =
    (Val tt, cursorAt text j' tok ty pa st h).

(** The run [r] returns [a] with the cursor at [j] behind the token [tok]
    of type [ty], and with the heap [h]. *)
Definition landing {A} (r : outcome A * state) (a : A) (text : jsstring) (j : nat)
           (tok : jsstring) (ty : TOKENTYPE) (h : list container) : Prop :=
  exists pa st, r = (Val a, cursorAt text j tok ty pa st h).

(** The parser of values [rec] reads the document [d]: from the state
    behind the first token of [d] it returns the value of [d] in the state
    behind the token that follows [d], with the containers of [d] added to
    the heap. *)
Definition reads (rec : M value) (d : doc) : Prop :=
  forall text i j' tok' ty' pa st h,
    firstn (length (print d)) (skipn i text) = print d ->
    nextToken text (i + length (print d)) j' tok' ty' ->
    landing (rec (cursorAt text (i + firstLength d) (firstToken d) (firstType d) pa st h))
            (fst (build d h)) text j' tok' ty' (snd (build d h)).

Lemma hoare_conseq {A} (P P' : state -> Prop) (Q Q' : A -> state -> Prop) m :
  hoare P' m Q' ->
  (forall s, P s -> P' s) ->
  (forall a s, Q' a s -> Q a s) ->
  hoare P m Q.
Proof.
  intros H HP HQ s Hs. specialize (H s (HP s Hs)).
  destruct (m s) as [[a| |] s']; auto.
Qed.

Lemma hoare_pre {A} (P P' : state -> Prop) (Q : A -> state -> Prop) m :
  hoare P' m Q -> (forall s, P s -> P' s) -> hoare P m Q.
Proof. intros H HP. eapply hoare_conseq; eauto. Qed.

Lemma hoare_post {A} (P : state -> Prop) (Q Q' : A -> state -> Prop) m :
  hoare P m Q' -> (forall a s, Q' a s -> Q a s) -> hoare P m Q.
Proof. intros H HQ. eapply hoare_conseq; eauto. Qed.

Lemma hoare_ret {A} (P : state -> Prop) (Q : A -> state -> Prop) (a : A) :
  (forall s, P s -> Q a s) -> hoare P (ret a) Q.
Proof. intros H s Hs. simpl. auto. Qed.

Lemma hoare_throw {A} (P : state -> Prop) (Q : A -> state -> Prop) e :
  hoare P (throw e) Q.
Proof. intros s _. exact I. Qed.

Lemma hoare_modify (P : state -> Prop) (Q : unit -> state -> Prop) f :
  (forall s, P s -> Q tt (f s)) -> hoare P (modify f) Q.
Proof. intros H s Hs. simpl. auto. Qed.

Lemma hoare_bind {A B} (P : state -> Prop) (Q : A -> state -> Prop)
      (R : B -> state -> Prop) (m : M A) (k : A -> M B) :
  hoare P m Q -> (forall a, hoare (Q a) (k a) R) -> hoare P (bind m k) R.
Proof.
  intros Hm Hk s Hs. unfold bind. specialize (Hm s Hs).
  destruct (m s) as [[a| |] s']; auto.
  apply (Hk a s' Hm).
Qed.

(** [s <- get ;; k s]: the continuation runs from the state it is given. *)
Lemma hoare_get {B} (P : state -> Prop) (R : B -> state -> Prop) (k : state -> M B) :
  (forall s0, P s0 -> hoare (fun s => s = s0) (k s0) R) ->
  hoare P (bind get k) R.
Proof.
  intros Hk s Hs. unfold bind, get. apply (Hk s Hs s eq_refl).
Qed.

(** [while]: an invariant [I] and a measure [mu] that is positive while
    the condition holds and that every iteration decreases. *)
Lemma hoare_while (I : state -> Prop) (mu : state -> nat) cond body :
  (forall s, I s -> cond s = true -> 0 < mu s) ->
  (forall n, hoare (fun s => I s /\ cond s = true /\ mu s = S n) body
                   (fun _ s => I s /\ mu s <= n)) ->
  forall fuel,
    hoare (fun s => I s /\ mu s <= fuel) (while fuel cond body)
          (fun _ s => I s /\ cond s = false).
Proof.
  intros Hpos Hbody fuel. induction fuel as [|fuel IH]; intros s [HI Hmu]; simpl.
  - destruct (cond s) eqn:Hc; [|auto].
    specialize (Hpos s HI Hc). lia.
  - destruct (cond s) eqn:Hc; [|auto].
    pose proof (Hpos s HI Hc) as Hp.
    destruct (mu s) as [|n] eqn:Hn; [lia|].
    unfold bind. specialize (Hbody n s (conj HI (conj Hc Hn))).
    destruct (body s) as [[[]| |] s']; auto.
    apply IH. destruct Hbody. split; [assumption | lia].
Qed.

(** [loop]: every iteration that goes on decreases the measure. *)
Lemma hoare_loop (I : state -> Prop) (Q : state -> Prop) (mu : state -> nat) body :
  (forall n, hoare (fun s => I s /\ mu s = n) body
                   (fun b s => if b : bool then I s /\ mu s < n else Q s)) ->
  forall fuel,
    hoare (fun s => I s /\ mu s < fuel) (loop fuel body) (fun _ s => Q s).
Proof.
  intros Hbody fuel. induction fuel as [|fuel IH]; intros s [HI Hmu]; simpl.
  - lia.
  - unfold bind. specialize (Hbody (mu s) s (conj HI eq_refl)).
    destruct (body s) as [[[|]| |] s']; auto.
    apply IH. destruct Hbody. split; [assumption | lia].
Qed.

(* ================================================================== *)
(** ** The tokenizer moves forward and ends *)
(* ================================================================== *)

(** Splits the conjunctions of the goal without unfolding definitions. *)
Ltac splits := repeat match goal with |- _ /\ _ => split end.

Lemma charAt_nonempty text i :
  charAt text i <> [] -> exists x, text !! i = Some x /\ charAt text i = [x] /\ i < length text.
Proof.
  unfold charAt. destruct (text !! i) as [x|] eqn:E; [|congruence].
  intros _. exists x. repeat split. eapply lookup_lt_Some; eauto.
Qed.

Lemma firstn_snoc_lookup (text : jsstring) i x :
  text !! i = Some x -> firstn (S i) text = firstn i text ++ [x].
Proof. intros H. apply take_S_r. exact H. Qed.

Lemma str_eqb_true a b : str_eqb a b = true -> a = b.
Proof. unfold str_eqb. intros H. apply bool_decide_eq_true in H. exact H. Qed.

Lemma str_eqb_false a b : str_eqb a b = false -> a <> b.
Proof. unfold str_eqb. intros H. apply bool_decide_eq_false in H. exact H. Qed.

Lemma isDigit_nonempty x : isDigit x = true -> x <> [].
Proof. intros H ->. discriminate H. Qed.

Lemma isAlpha_nonempty x : isAlpha x = true -> x <> [].
Proof. intros H ->. discriminate H. Qed.

Lemma isHex_nonempty x : isHex x = true -> x <> [].
Proof. intros H ->. discriminate H. Qed.

(** [next()] behind a character of the text. *)
Lemma next_scanning text i j :
  hoare (fun s => scanning text i s /\ c s <> [] /\ index s = j) next
        (fun _ s => scanning text i s /\ index s = S j).
Proof.
  intros s ([[Ht Hc] [Hi Hl]] & Hne & Hj). unfold next, bind, modify. simpl.
  rewrite Hc in Hne. apply charAt_nonempty in Hne as (x & Hx & _ & Hlt).
  unfold scanning, cursor_ok. simpl. rewrite Ht. repeat split; lia.
Qed.

(** [token += c; next()] behind a character of the text. *)
Lemma accept_scanning text i j :
  hoare (fun s => scanning text i s /\ tok_span text s /\ c s <> [] /\ index s = j) accept
        (fun _ s => scanning text i s /\ tok_span text s /\ index s = S j).
Proof.
  intros s ([[Ht Hc] [Hi Hl]] & [pre Hpre] & Hne & Hj). unfold accept, next, bind, modify. simpl.
  pose proof Hne as Hne'. rewrite Hc in Hne'.
  apply charAt_nonempty in Hne' as (x & Hx & Hcx & Hlt).
  unfold scanning, cursor_ok, tok_span. simpl. rewrite Ht.
  repeat split; try lia.
  exists pre. rewrite (firstn_snoc_lookup _ _ _ Hx), Hpre, Hc, Hcx.
  rewrite <- app_assoc. reflexivity.
Qed.

(** A loop of the tokenizer whose body moves the cursor forward inside
    the text ends, with the invariant and the negation of its
    condition. *)
Lemma scan_spec text (I : state -> Prop) cond body :
  (forall s, I s -> jsonText s = text /\ index s <= length text) ->
  (forall s, I s -> cond s = true -> index s < length text) ->
  (forall j, hoare (fun s => I s /\ cond s = true /\ index s = j) body
                   (fun _ s => I s /\ j < index s)) ->
  hoare I (scan cond body) (fun _ s => I s /\ cond s = false).
Proof.
  intros Htext Hin Hbody. unfold scan. apply hoare_get. intros s0 H0.
  eapply hoare_pre.
  - apply (hoare_while I (fun s => length text - index s)).
    + intros s Hs Hc. specialize (Hin s Hs Hc). lia.
    + intros n. eapply hoare_conseq.
      * apply (Hbody (length text - S n)).
      * simpl. intros s (Hs & Hc & Hn). repeat split; auto.
        specialize (Hin s Hs Hc). lia.
      * simpl. intros _ s [Hs Hlt]. split; [assumption|].
        destruct (Htext s Hs). lia.
  - simpl. intros s ->. split; [assumption|].
    destruct (Htext s0 H0) as [-> _]. lia.
Qed.

Lemma scanning_mono text k k' s : k <= k' -> scanning text k' s -> scanning text k s.
Proof. unfold scanning. intros Hk (H & H1 & H2). split; [assumption | split; lia]. Qed.

Lemma scanning_index text k s : scanning text k s -> scanning text (index s) s.
Proof. unfold scanning. intros (H & H1 & H2). split; [assumption | split; lia]. Qed.

Lemma cursor_nonempty text s :
  cursor_ok text s -> c s <> [] -> index s < length text.
Proof.
  intros [_ Hc] Hne. rewrite Hc in Hne.
  apply charAt_nonempty in Hne as (x & _ & _ & Hlt). exact Hlt.
Qed.

(** The token grows with the text: the state while a number, a symbol or
    a delimiter is read. *)
Lemma accept_span text k :
  hoare (fun s => (scanning text k s /\ tok_span text s) /\ c s <> []) accept
        (fun _ s => scanning text k s /\ tok_span text s).
Proof.
  intros s [[Hs Ht] Hne].
  pose proof (accept_scanning text k (index s) s (conj Hs (conj Ht (conj Hne eq_refl)))) as H.
  destruct (accept s) as [[[]| |] s']; auto. tauto.
Qed.

Lemma accept_span_strict text k j :
  hoare (fun s => (scanning text k s /\ tok_span text s) /\ c s <> [] /\ index s = j) accept
        (fun _ s => scanning text (S j) s /\ tok_span text s).
Proof.
  intros s [[Hs Ht] [Hne Hj]].
  pose proof (accept_scanning text k j s (conj Hs (conj Ht (conj Hne Hj)))) as H.
  destruct (accept s) as [[[]| |] s']; auto.
  destruct H as (H1 & H2 & H3). split; [|assumption].
  apply scanning_index in H1. rewrite H3 in H1. exact H1.
Qed.

Lemma scan_accept_span text k cond :
  (forall s, cond s = true -> c s <> []) ->
  hoare (fun s => scanning text k s /\ tok_span text s) (scan cond accept)
        (fun _ s => (scanning text k s /\ tok_span text s) /\ cond s = false).
Proof.
  intros Hcond. apply (scan_spec text).
  - intros s [[[Ht _] [_ Hl]] _]. auto.
  - intros s [[Hc _] _] Hb. eapply cursor_nonempty; eauto.
  - intros j s ([Hs Ht] & Hb & Hj).
    pose proof (accept_scanning text k j s (conj Hs (conj Ht (conj (Hcond s Hb) Hj)))) as H.
    destruct (accept s) as [[[]| |] s']; auto.
    destruct H as (H1 & H2 & H3). splits; auto. lia.
Qed.

Lemma expectDigit_spec (P : state -> Prop) :
  hoare P expectDigit (fun _ s => P s).
Proof.
  intros s Hs. unfold expectDigit, bind, get.
  destruct (isDigit (c s)); simpl; auto.
Qed.

Lemma digits_span text k :
  hoare (fun s => scanning text k s /\ tok_span text s) digits
        (fun _ s => (scanning text k s /\ tok_span text s) /\ isDigit (c s) = false).
Proof.
  apply (scan_accept_span text k (fun s => isDigit (c s))).
  intros s. apply isDigit_nonempty.
Qed.

Lemma str_eqb_nonempty (x y : jsstring) : y <> [] -> str_eqb x y = true -> x <> [].
Proof. intros Hy H. apply str_eqb_true in H. congruence. Qed.

Lemma orb_eqb_nonempty (x y z : jsstring) :
  y <> [] -> z <> [] -> str_eqb x y || str_eqb x z = true -> x <> [].
Proof.
  intros Hy Hz H. apply orb_true_iff in H as [H|H].
  - apply (str_eqb_nonempty x y); assumption.
  - apply (str_eqb_nonempty x z); assumption.
Qed.

(** The number branch reads at least one character and leaves a token
    that is a piece of the text. *)
Lemma getNumber_spec text i :
  hoare (fun s => (scanning text i s /\ tok_span text s) /\ index s = i
                  /\ isDigit (c s) || str_eqb (c s) (js "-") = true)
        getNumber
        (fun _ s => scanning text (S i) s /\ tok_span text s).
Proof.
  unfold getNumber.
  apply hoare_bind with
    (Q := fun _ s => (scanning text i s /\ tok_span text s) /\ index s = i
                     /\ isDigit (c s) || str_eqb (c s) (js "-") = true).
  { apply hoare_modify. intros s H. exact H. }
  intros _. apply hoare_get. intros s0 ([Hs0 Ht0] & Hi0 & Hc0).
  (* the sign, the zero or nothing *)
  apply hoare_bind with
    (Q := fun _ s => (scanning text i s /\ tok_span text s)
                     /\ (S i <= index s \/ isDigit (charAt text i) = true)).
  { destruct (str_eqb (c s0) (js "-")) eqn:Eminus.
    - apply hoare_bind with (Q := fun _ s => scanning text (S i) s /\ tok_span text s).
      + eapply hoare_pre; [apply (accept_span_strict text i i)|].
        intros s ->. splits; auto. eapply str_eqb_nonempty; eauto. discriminate.
      + intros _. eapply hoare_post; [apply expectDigit_spec|].
        simpl. intros _ s [Hs Ht]. split; [split|]; auto.
        * eapply scanning_mono; [|exact Hs]. lia.
        * left. destruct Hs as (_ & H & _). exact H.
    - destruct (str_eqb (c s0) (js "0")) eqn:Ezero.
      + eapply hoare_conseq; [apply (accept_span_strict text i i)| |].
        * intros s ->. splits; auto. eapply str_eqb_nonempty; eauto. discriminate.
        * simpl. intros _ s [Hs Ht]. split; [split|]; auto.
          -- eapply scanning_mono; [|exact Hs]. lia.
          -- left. destruct Hs as (_ & H & _). exact H.
      + apply hoare_ret. intros s ->. split; [split|]; auto.
        right. rewrite orb_false_r in Hc0.
        destruct Hs0 as [[_ Hc] _]. rewrite <- Hi0, <- Hc. exact Hc0. }
  intros _.
  (* the digits of the integer part *)
  apply hoare_bind with (Q := fun _ s => scanning text (S i) s /\ tok_span text s).
  { intros s [[Hs Ht] Hor].
    pose proof (digits_span text (index s) s (conj (scanning_index _ _ _ Hs) Ht)) as H.
    destruct (digits s) as [[[]| |] s']; auto.
    destruct H as [[Hs' Ht'] Hd]. split; [|assumption].
    destruct Hor as [Hlt | Hdig].
    - eapply scanning_mono; [|exact Hs']. exact Hlt.
    - destruct Hs' as (Hc' & Hge & Hle). unfold scanning. splits; auto.
      destruct Hs as (_ & Hi & _).
      destruct (decide (index s' = i)) as [Heq|Hne]; [|lia].
      destruct Hc' as [_ Hc']. rewrite Hc', Heq, Hdig in Hd. discriminate. }
  intros _.
  (* the fraction *)
  apply hoare_get. intros s1 [Hs1 Ht1].
  apply hoare_bind with (Q := fun _ s => scanning text (S i) s /\ tok_span text s).
  { destruct (str_eqb (c s1) (js ".")) eqn:Edot.
    - apply hoare_bind with (Q := fun _ s => scanning text (S i) s /\ tok_span text s).
      + eapply hoare_pre; [apply (accept_span text (S i))|].
        intros s ->. splits; auto. eapply str_eqb_nonempty; eauto. discriminate.
      + intros _.
        apply hoare_bind with (Q := fun _ s => scanning text (S i) s /\ tok_span text s).
        * apply expectDigit_spec.
        * intros _. eapply hoare_post; [apply digits_span|]. simpl. tauto.
    - apply hoare_ret. intros s ->. auto. }
  intros _.
  (* the exponent *)
  apply hoare_get. intros s2 [Hs2 Ht2].
  destruct (str_eqb (c s2) (js "e") || str_eqb (c s2) (js "E")) eqn:Eexp.
  - apply hoare_bind with (Q := fun _ s => scanning text (S i) s /\ tok_span text s).
    + eapply hoare_pre; [apply (accept_span text (S i))|].
      intros s ->. splits; auto. eapply orb_eqb_nonempty; eauto; discriminate.
    + intros _. apply hoare_get. intros s3 [Hs3 Ht3].
      apply hoare_bind with (Q := fun _ s => scanning text (S i) s /\ tok_span text s).
      * destruct (str_eqb (c s3) (js "+") || str_eqb (c s3) (js "-")) eqn:Esign.
        -- eapply hoare_pre; [apply (accept_span text (S i))|].
           intros s ->. splits; auto. eapply orb_eqb_nonempty; eauto; discriminate.
        -- apply hoare_ret. intros s ->. auto.
      * intros _.
        apply hoare_bind with (Q := fun _ s => scanning text (S i) s /\ tok_span text s).
        -- apply expectDigit_spec.
        -- intros _. eapply hoare_post; [apply digits_span|]. simpl. tauto.
  - apply hoare_ret. intros s ->. auto.
Qed.

(** The state while a string is read: the token holds the decoded
    characters, so only the cursor and the type of the token are
    followed. *)
Lemma next_string text k j :
  hoare (fun s => (scanning text k s /\ tokenType s = STRING) /\ c s <> [] /\ index s = j) next
        (fun _ s => (scanning text k s /\ tokenType s = STRING) /\ index s = S j).
Proof.
  intros s ([Hs Hty] & Hne & Hj).
  pose proof (next_scanning text k j s (conj Hs (conj Hne Hj))) as H.
  unfold next, bind, modify in *. simpl in *. tauto.
Qed.

Lemma accept_string text k j :
  hoare (fun s => (scanning text k s /\ tokenType s = STRING) /\ c s <> [] /\ index s = j) accept
        (fun _ s => (scanning text k s /\ tokenType s = STRING) /\ index s = S j).
Proof.
  intros s ([Hs Hty] & Hne & Hj).
  pose proof (next_scanning text k j s (conj Hs (conj Hne Hj))) as H.
  unfold accept, next, bind, modify, scanning, cursor_ok in *. simpl in *. tauto.
Qed.

Lemma readHex_spec text k n :
  forall hex,
    hoare (fun s => scanning text k s /\ tokenType s = STRING) (readHex n hex)
          (fun _ s => scanning text k s /\ tokenType s = STRING).
Proof.
  induction n as [|n IH]; intros hex; simpl.
  - apply hoare_ret. auto.
  - apply hoare_get. intros s0 H0.
    destruct (isHex (c s0)) eqn:Ehex; [|apply hoare_throw].
    apply hoare_bind with (Q := fun _ s => scanning text k s /\ tokenType s = STRING).
    + eapply hoare_conseq; [apply (next_string text k (index s0))| |].
      * intros s ->. splits; try tauto; auto. apply isHex_nonempty. exact Ehex.
      * simpl. tauto.
    + intros _. apply IH.
Qed.

Lemma ESCAPE_CHARACTERS_nonempty x y : ESCAPE_CHARACTERS x = Some y -> x <> [].
Proof. intros H ->. discriminate H. Qed.

(** One round of the string loop moves the cursor forward. *)
Lemma stringChar_spec text k j :
  hoare (fun s => (scanning text k s /\ tokenType s = STRING) /\ c s <> [] /\ index s = j)
        stringChar
        (fun _ s => (scanning text k s /\ tokenType s = STRING) /\ j < index s).
Proof.
  unfold stringChar. apply hoare_get. intros s0 (H0 & Hne0 & Hj0).
  destruct (str_eqb (c s0) [backslash]) eqn:Ebs.
  - apply hoare_bind with
      (Q := fun _ s => scanning text (S j) s /\ tokenType s = STRING).
    { eapply hoare_conseq; [apply (next_string text k j)| |].
      - intros s ->. splits; tauto.
      - simpl. intros _ s [[Hs Hty] Hi]. split; [|assumption].
        apply scanning_index in Hs. rewrite Hi in Hs. exact Hs. }
    intros _.
    assert (Hweak : forall s, scanning text (S j) s /\ tokenType s = STRING ->
                              (scanning text k s /\ tokenType s = STRING) /\ j < index s).
    { intros s [Hs Hty]. splits; try tauto; auto.
      - destruct H0 as [(_ & Hk & _) _]. eapply scanning_mono; [|exact Hs]. lia.
      - destruct Hs as (_ & Hs & _). lia. }
    apply hoare_get. intros s1 H1.
    destruct (ESCAPE_CHARACTERS (c s1)) as [unescaped|] eqn:Eesc.
    + apply hoare_bind with
        (Q := fun _ s => (scanning text (S j) s /\ tokenType s = STRING)
                         /\ c s <> [] /\ index s = index s1).
      * apply hoare_modify. intros s ->. split; [exact H1|].
        simpl. split; [|reflexivity]. eapply ESCAPE_CHARACTERS_nonempty; eauto.
      * intros _. eapply hoare_post; [apply (next_string text (S j) (index s1))|].
        simpl. intros _ s [Hs _]. apply Hweak. exact Hs.
    + destruct (str_eqb (c s1) (js "u")) eqn:Eu; [|apply hoare_throw].
      apply hoare_bind with
        (Q := fun _ s => scanning text (S j) s /\ tokenType s = STRING).
      * eapply hoare_conseq; [apply (next_string text (S j) (index s1))| |].
        -- intros s ->. splits; try tauto.
           apply (str_eqb_nonempty _ (js "u")); [discriminate | exact Eu].
        -- simpl. tauto.
      * intros _.
        apply hoare_bind with
          (Q := fun _ s => scanning text (S j) s /\ tokenType s = STRING).
        -- apply readHex_spec.
        -- intros hex. apply hoare_modify. intros s Hs. apply Hweak. exact Hs.
  - eapply hoare_conseq; [apply (accept_string text k j)| |].
    + intros s ->. splits; tauto.
    + simpl. intros _ s [Hs Hi]. split; [exact Hs | lia].
Qed.

(** The string branch reads at least the opening quote. *)
Lemma getString_spec text i :
  hoare (fun s => scanning text i s /\ index s = i /\ c s = [dquote]) getString
        (fun _ s => scanning text (S i) s /\ tokenType s = STRING).
Proof.
  unfold getString.
  apply hoare_bind with
    (Q := fun _ s => (scanning text i s /\ tokenType s = STRING) /\ c s <> [] /\ index s = i).
  { apply hoare_modify. intros s (Hs & Hi & Hc). simpl. splits; try tauto.
    rewrite Hc. discriminate. }
  intros _.
  apply hoare_bind with (Q := fun _ s => scanning text (S i) s /\ tokenType s = STRING).
  { eapply hoare_post; [apply (next_string text i i)|].
    simpl. intros _ s [[Hs Hty] Hi]. split; [|assumption].
    apply scanning_index in Hs. rewrite Hi in Hs. exact Hs. }
  intros _.
  apply hoare_bind with
    (Q := fun _ s => (scanning text (S i) s /\ tokenType s = STRING)
                     /\ negb (str_eqb (c s) []) && negb (str_eqb (c s) [dquote]) = false).
  { apply (scan_spec text).
    - intros s [[[Ht _] [_ Hl]] _]. auto.
    - intros s [[Hc _] _] Hb. eapply cursor_nonempty; eauto.
      apply andb_true_iff in Hb as [Hb _]. apply negb_true_iff in Hb.
      apply str_eqb_false in Hb. exact Hb.
    - intros j. eapply hoare_pre; [apply (stringChar_spec text (S i) j)|].
      intros s (Hs & Hb & Hj). splits; try tauto.
      apply andb_true_iff in Hb as [Hb _]. apply negb_true_iff in Hb.
      apply str_eqb_false in Hb. exact Hb. }
  intros _. apply hoare_get. intros s0 [H0 _].
  destruct (str_eqb (c s0) [dquote]) eqn:Eq; simpl; [|apply hoare_throw].
  eapply hoare_conseq; [apply (next_string text (S i) (index s0))| |].
  - intros s ->. splits; try tauto.
    apply (str_eqb_nonempty _ [dquote]); [discriminate | exact Eq].
  - simpl. tauto.
Qed.

Lemma tok_span_empty text s : token s = [] -> tok_span text s.
Proof. intros H. exists (firstn (index s) text). rewrite H, app_nil_r. reflexivity. Qed.

(** [getToken()] ends and moves the cursor forward; it leaves the state
    between two tokens. *)
Lemma getToken_spec text i :
  hoare (fun s => cursor_ok text s /\ index s = i /\ i <= length text) getToken
        (fun _ s => tok_live text s /\ i < index s).
Proof.
  unfold getToken.
  apply hoare_bind with (Q := fun _ s => scanning text i s).
  { apply hoare_modify. intros s (Hc & Hi & Hl). simpl.
    unfold scanning, cursor_ok in *. simpl. splits; try tauto; lia. }
  intros _.
  apply hoare_bind with (Q := fun _ s => scanning text i s /\ token s = []).
  { apply hoare_modify. intros s Hs. simpl. split; [exact Hs | reflexivity]. }
  intros _.
  (* whitespace *)
  apply hoare_bind with (Q := fun _ s => scanning text i s /\ token s = []).
  { eapply hoare_post.
    - apply (scan_spec text (fun s => scanning text i s /\ token s = [])).
      + intros s [[[Ht _] [_ Hl]] _]. auto.
      + intros s [[Hc _] _] Hb. eapply cursor_nonempty; eauto.
        intros Hnil. rewrite Hnil in Hb. discriminate Hb.
      + intros j s ([Hs Ht] & Hb & Hj).
        assert (Hne : c s <> []) by (intros Hnil; rewrite Hnil in Hb; discriminate Hb).
        pose proof (next_scanning text i j s (conj Hs (conj Hne Hj))) as H.
        unfold next, bind, modify in *. simpl in *. splits; try tauto. lia.
    - simpl. tauto. }
  intros _. apply hoare_get. intros s0 [Hs0 Ht0].
  pose proof Hs0 as (Hc0 & Hi0 & Hl0).
  destruct (DELIMITERS (c s0)) eqn:Edel.
  { (* a delimiter, or the end of the input *)
    intros s ->. unfold bind, modify, next. simpl.
    unfold tok_live, atEnd, cursor_ok, tok_span. simpl.
    destruct Hc0 as [Hjt Hc]. rewrite Hjt. splits; auto; [|lia].
    destruct (c s0) as [|x r] eqn:Ec; [left; auto | right].
    assert (Hne : charAt text (index s0) <> []) by (rewrite <- Hc; discriminate).
    apply charAt_nonempty in Hne as (y & Hy & Hcy & Hlt).
    split; [lia|]. intros _. exists (firstn (index s0) text).
    rewrite (firstn_snoc_lookup _ _ _ Hy). congruence. }
  destruct (isDigit (c s0) || str_eqb (c s0) (js "-")) eqn:Enum.
  { (* a number *)
    eapply hoare_conseq; [apply (getNumber_spec text (index s0))| |].
    - intros s ->. splits; auto.
      + apply scanning_index in Hs0. exact Hs0.
      + apply tok_span_empty. exact Ht0.
    - simpl. intros _ s [(Hc & Hi & Hl) Ht]. split; [|lia].
      split; [exact Hc|]. right. auto. }
  destruct (str_eqb (c s0) [dquote]) eqn:Estr.
  { (* a string *)
    eapply hoare_conseq; [apply (getString_spec text (index s0))| |].
    - intros s ->. splits; auto.
      + apply scanning_index in Hs0. exact Hs0.
      + apply str_eqb_true. exact Estr.
    - simpl. intros _ s [(Hc & Hi & Hl) Hty]. split; [|lia].
      split; [exact Hc|]. right. split; [exact Hl|]. congruence. }
  destruct (isAlpha (c s0)) eqn:Ealpha.
  { (* a symbol *)
    apply hoare_bind with
      (Q := fun _ s => scanning text (index s0) s /\ tok_span text s).
    { apply hoare_modify. intros s ->. simpl. split.
      - apply scanning_index in Hs0. exact Hs0.
      - apply tok_span_empty. exact Ht0. }
    intros _. eapply hoare_post.
    - apply (scan_accept_span text (index s0) (fun s => isAlpha (c s))).
      intros s. apply isAlpha_nonempty.
    - simpl. intros _ s [[(Hc & Hi & Hl) Ht] Hb]. split.
      + split; [exact Hc|]. right. auto.
      + destruct (decide (index s = index s0)) as [Heq|Hne]; [|lia].
        destruct Hc as [_ Hc]. destruct Hc0 as [_ Hc0].
        rewrite Hc, Heq, <- Hc0, Ealpha in Hb. discriminate. }
  (* something unknown *)
  apply hoare_bind with
    (Q := fun _ s => scanning text (index s0) s /\ tok_span text s).
  { apply hoare_modify. intros s ->. simpl. split.
    - apply scanning_index in Hs0. exact Hs0.
    - apply tok_span_empty. exact Ht0. }
  intros _.
  apply hoare_bind with (Q := fun _ _ => True).
  { eapply hoare_post.
    - apply (scan_accept_span text (index s0) (fun s => negb (str_eqb (c s) []))).
      intros s Hb. apply negb_true_iff in Hb. apply str_eqb_false in Hb. exact Hb.
    - auto. }
  intros _. apply hoare_get. intros s1 _. apply hoare_throw.
Qed.

(* ================================================================== *)
(** ** The descent moves forward and ends *)
(* ================================================================== *)

Lemma hoare_fix {A} (P : state -> Prop) (m : M A) (Q : A -> state -> Prop) :
  (forall s0, P s0 -> hoare (fun s => s = s0) m Q) -> hoare P m Q.
Proof. intros H s Hs. apply (H s Hs s eq_refl). Qed.

(** [getToken()] behind a token that is not the end of the input. *)
Lemma getToken_live text i :
  hoare (fun s => tok_live text s /\ ~ atEnd s /\ index s = i) getToken
        (fun _ s => tok_live text s /\ i < index s).
Proof.
  eapply hoare_pre; [apply (getToken_spec text i)|].
  intros s ([Hc [Hend | [Hl _]]] & Hne & Hi); [contradiction|].
  splits; auto. lia.
Qed.

Lemma isDelimiter_not_atEnd d s :
  d <> [] -> isDelimiter d s = true -> ~ atEnd s.
Proof.
  unfold isDelimiter, atEnd. intros Hd H [_ Ht].
  apply andb_true_iff in H as [_ H]. apply str_eqb_true in H. congruence.
Qed.

Lemma tokenType_eqb_true a b : tokenType_eqb a b = true -> a = b.
Proof. destruct a, b; simpl; congruence. Qed.

Lemma tokenType_not_atEnd t s :
  t <> DELIMITER -> tokenType_eqb (tokenType s) t = true -> ~ atEnd s.
Proof.
  unfold atEnd. intros Ht H [Hd _]. apply tokenType_eqb_true in H. congruence.
Qed.

Lemma tok_live_bound text s : tok_live text s -> ~ atEnd s -> index s <= length text.
Proof. intros [_ [H | [H _]]] Hne; [contradiction | exact H]. Qed.

(** The operations on the heap, the stack and the path leave the
    tokenizer alone. *)
Lemma alloc_live text i k :
  hoare (fun s => tok_live text s /\ index s = i) (alloc k)
        (fun _ s => tok_live text s /\ index s = i).
Proof. intros s H. exact H. Qed.

Lemma setProperty_live text i object key v :
  hoare (fun s => tok_live text s /\ index s = i) (setProperty object key v)
        (fun _ s => tok_live text s /\ index s = i).
Proof.
  apply hoare_modify. intros s H.
  destruct object; try exact H.
  destruct (heap s !! l) as [[props|items]|]; exact H.
Qed.

Lemma push_live text i array v :
  hoare (fun s => tok_live text s /\ index s = i) (push array v)
        (fun _ s => tok_live text s /\ index s = i).
Proof.
  apply hoare_modify. intros s H.
  destruct array; try exact H.
  destruct (heap s !! l) as [[props|items]|]; exact H.
Qed.

Section Descent.

Variable circularRefs : bool.
Variable parsePointer : jsstring -> list jsstring.
Variable text : jsstring.

(** The validation loop reads the state and leaves it as it is. *)
Lemma validate_state object pointerPath n :
  forall i s, snd (validate object pointerPath n i s) = s.
Proof.
  induction n as [|n IH]; intros i s; simpl; [reflexivity|].
  unfold bind, get.
  destruct (strictNotEqual _ _); [reflexivity | apply IH].
Qed.

Lemma validate_no_fuel object pointerPath n :
  forall i s, fst (validate object pointerPath n i s) <> OutOfFuel.
Proof.
  induction n as [|n IH]; intros i s; simpl; [discriminate|].
  unfold bind, get.
  destruct (strictNotEqual _ _); [discriminate | apply IH].
Qed.

(** [parseCircular] leaves the state as it is. *)
Lemma parseCircular_state object s :
  snd (parseCircular circularRefs parsePointer object s) = s.
Proof.
  unfold parseCircular. destruct circularRefs; simpl; [|reflexivity].
  unfold bind, get.
  pose proof (validate_state object (parsePointer (refOf s object))
                (length (parsePointer (refOf s object))) 0 s) as H.
  destruct (validate _ _ _ _ s) as [[[]| |] s']; simpl in *; auto.
Qed.

Lemma parseCircular_frame (P : state -> Prop) object :
  hoare P (parseCircular circularRefs parsePointer object) (fun _ s => P s).
Proof.
  intros s Hs. pose proof (parseCircular_state object s) as H.
  unfold parseCircular in *. destruct circularRefs; simpl in *; [|exact Hs].
  unfold bind, get in *.
  pose proof (validate_no_fuel object (parsePointer (refOf s object))
                (length (parsePointer (refOf s object))) 0 s) as Hf.
  destruct (validate _ _ _ _ s) as [[[]| |] s']; simpl in *; auto.
  subst s'. exact Hs.
Qed.

(** [getToken(); return v;] behind a token that is not the end. *)
Lemma getToken_ret_spec (v : value) s0 :
  tok_live text s0 -> ~ atEnd s0 ->
  hoare (fun s => s = s0) (getToken ;; ret v)
        (fun _ s => tok_live text s /\ index s0 <= index s).
Proof.
  intros Hlive Hne.
  apply hoare_bind with (Q := fun _ s => tok_live text s /\ index s0 < index s).
  - eapply hoare_pre; [apply (getToken_live text (index s0))|].
    intros s ->. auto.
  - intros _. apply hoare_ret. intros s [H1 H2]. split; [exact H1 | lia].
Qed.

Lemma parseEnd_advances : advances text parseEnd.
Proof.
  intros i. unfold parseEnd. apply hoare_get. intros s0 _.
  destruct (str_eqb (token s0) []); apply hoare_throw.
Qed.

Lemma parseSymbol_advances : advances text parseSymbol.
Proof.
  intros i. unfold parseSymbol. apply hoare_get. intros s0 [Hlive Hi].
  destruct (tokenType_eqb (tokenType s0) SYMBOL) eqn:Ety.
  - assert (Hne : ~ atEnd s0) by (eapply tokenType_not_atEnd; eauto; discriminate).
    subst i.
    destruct (str_eqb (token s0) (js "true")); [apply getToken_ret_spec; auto|].
    destruct (str_eqb (token s0) (js "false")); [apply getToken_ret_spec; auto|].
    destruct (str_eqb (token s0) (js "null")); [apply getToken_ret_spec; auto|].
    apply hoare_throw.
  - eapply hoare_pre; [apply (parseEnd_advances i)|]. intros s ->. auto.
Qed.

Lemma parseNumber_advances : advances text parseNumber.
Proof.
  intros i. unfold parseNumber. apply hoare_get. intros s0 [Hlive Hi].
  destruct (tokenType_eqb (tokenType s0) NUMBER) eqn:Ety.
  - assert (Hne : ~ atEnd s0) by (eapply tokenType_not_atEnd; eauto; discriminate).
    subst i. apply getToken_ret_spec; auto.
  - eapply hoare_pre; [apply (parseSymbol_advances i)|]. intros s ->. auto.
Qed.

Lemma parseString_advances : advances text parseString.
Proof.
  intros i. unfold parseString. apply hoare_get. intros s0 [Hlive Hi].
  destruct (tokenType_eqb (tokenType s0) STRING) eqn:Ety.
  - assert (Hne : ~ atEnd s0) by (eapply tokenType_not_atEnd; eauto; discriminate).
    subst i. apply getToken_ret_spec; auto.
  - eapply hoare_pre; [apply (parseNumber_advances i)|]. intros s ->. auto.
Qed.


(** [getToken()] from a known state behind a token that is not the end. *)
Lemma getToken_from s0 :
  tok_live text s0 -> ~ atEnd s0 ->
  hoare (fun s => s = s0) getToken
        (fun _ s => tok_live text s /\ index s0 < index s).
Proof.
  intros Hlive Hne.
  eapply hoare_pre; [apply (getToken_live text (index s0))|].
  intros s ->. auto.
Qed.

(** [parseArray]: with a parser of items that ends with the fuel [fuel],
    the loop over the items ends too. *)
Lemma parseArray_spec fuel rec :
  descends text fuel rec ->
  forall i, length text + 1 - i <= fuel ->
    hoare (fun s => tok_live text s /\ index s = i) (parseArray fuel rec)
          (fun _ s => tok_live text s /\ i <= index s).
Proof.
  intros Hrec i Hfuel. unfold parseArray. apply hoare_get. intros s0 [Hlive0 Hi0].
  destruct (isDelimiter (js "[") s0) eqn:Eopen.
  2: { eapply hoare_pre; [apply (parseString_advances i)|]. intros s ->. auto. }
  assert (Hne0 : ~ atEnd s0) by (eapply isDelimiter_not_atEnd; eauto; discriminate).
  pose proof (tok_live_bound _ _ Hlive0 Hne0) as Hb0.
  apply hoare_bind with (Q := fun _ s => tok_live text s /\ i < index s).
  { eapply hoare_post; [apply getToken_from; auto|]. simpl. intros _ s [H1 H2]. split; [auto|lia]. }
  intros _.
  apply hoare_bind with (Q := fun _ s => tok_live text s /\ i < index s).
  { intros s H. exact H. }
  intros array. apply hoare_get. intros s1 [Hlive1 Hi1].
  destruct (isDelimiter (js "]") s1) eqn:Eclose.
  { (* empty array *)
    eapply hoare_post.
    - apply getToken_ret_spec; auto. eapply isDelimiter_not_atEnd; eauto; discriminate.
    - simpl. intros _ s [H1 H2]. split; [auto|lia]. }
  apply hoare_bind with (Q := fun _ s => tok_live text s /\ i < index s).
  { apply hoare_modify. intros s ->. exact (conj Hlive1 Hi1). }
  intros _.
  apply hoare_bind with (Q := fun _ s => tok_live text s /\ i < index s).
  { (* the loop over the items *)
    eapply hoare_pre.
    - apply (hoare_loop (fun s => tok_live text s /\ i < index s)
                        (fun s => tok_live text s /\ i < index s)
                        (fun s => length text + 1 - index s)).
      intros n. apply hoare_fix. intros sa [[Hla Hia] Hna].
      apply hoare_bind with (Q := fun _ s => tok_live text s /\ index s = index sa).
      { apply hoare_modify. intros s ->. simpl. split; [exact Hla | reflexivity]. }
      intros _.
      apply hoare_bind with (Q := fun _ s => tok_live text s /\ index sa <= index s).
      { apply Hrec. lia. }
      intros item.
      apply hoare_bind with (Q := fun _ s => tok_live text s /\ index sa <= index s).
      { apply hoare_fix. intros sb [Hlb Hib].
        eapply hoare_conseq; [apply (push_live text (index sb))| |].
        - intros s ->. auto.
        - simpl. intros _ s [H1 H2]. split; [auto|lia]. }
      intros _. apply hoare_get. intros sc [Hlc Hic].
      destruct (isDelimiter (js ",") sc) eqn:Ecomma; simpl.
      + assert (Hnec : ~ atEnd sc) by (eapply isDelimiter_not_atEnd; eauto; discriminate).
        pose proof (tok_live_bound _ _ Hlc Hnec) as Hbc.
        apply hoare_bind with (Q := fun _ s => tok_live text s /\ index sc < index s).
        { apply getToken_from; auto. }
        intros _. apply hoare_ret. intros s [H1 H2]. split; [split; [auto|lia] | lia].
      + apply hoare_ret. intros s ->. split; [auto|lia].
    - intros s [H1 H2]. split; [auto|lia]. }
  intros _. apply hoare_get. intros s2 [Hlive2 Hi2].
  destruct (isDelimiter (js "]") s2) eqn:Eend; simpl; [|apply hoare_throw].
  apply hoare_bind with (Q := fun _ s => tok_live text s /\ i < index s).
  { eapply hoare_post.
    - apply getToken_from; auto. eapply isDelimiter_not_atEnd; eauto; discriminate.
    - simpl. intros _ s [H1 H2]. split; [auto|lia]. }
  intros _.
  apply hoare_bind with (Q := fun _ s => tok_live text s /\ i < index s).
  { apply hoare_modify. intros s H. exact H. }
  intros _.
  apply hoare_bind with (Q := fun _ s => tok_live text s /\ i < index s).
  { apply hoare_modify. intros s H. exact H. }
  intros _. apply hoare_ret. intros s [H1 H2]. split; [auto|lia].
Qed.

(** [parseObject]: more fuel than characters left is enough. *)
Lemma parseObject_spec fuel :
  descends text fuel (parseObject circularRefs parsePointer fuel).
Proof.
  induction fuel as [|fuel IH]; intros i Hfuel; [lia|].
  simpl. apply hoare_get. intros s0 [Hlive0 Hi0].
  destruct (isDelimiter (js "{") s0) eqn:Eopen.
  2: { eapply hoare_pre; [apply (parseArray_spec fuel _ IH i)|]; [lia|].
       intros s ->. auto. }
  assert (Hne0 : ~ atEnd s0) by (eapply isDelimiter_not_atEnd; eauto; discriminate).
  pose proof (tok_live_bound _ _ Hlive0 Hne0) as Hb0.
  apply hoare_bind with (Q := fun _ s => tok_live text s /\ i < index s).
  { eapply hoare_post; [apply getToken_from; auto|]. simpl. intros _ s [H1 H2]. split; [auto|lia]. }
  intros _.
  apply hoare_bind with (Q := fun _ s => tok_live text s /\ i < index s).
  { intros s H. exact H. }
  intros object. apply hoare_get. intros s1 [Hlive1 Hi1].
  destruct (isDelimiter (js "}") s1) eqn:Eclose.
  { (* empty object *)
    eapply hoare_post.
    - apply getToken_ret_spec; auto. eapply isDelimiter_not_atEnd; eauto; discriminate.
    - simpl. intros _ s [H1 H2]. split; [auto|lia]. }
  apply hoare_bind with (Q := fun _ s => tok_live text s /\ i < index s).
  { apply hoare_modify. intros s ->. exact (conj Hlive1 Hi1). }
  intros _.
  apply hoare_bind with (Q := fun _ s => tok_live text s /\ i < index s).
  { (* the loop over the key/value pairs *)
    eapply hoare_pre.
    - apply (hoare_loop (fun s => tok_live text s /\ i < index s)
                        (fun s => tok_live text s /\ i < index s)
                        (fun s => length text + 1 - index s)).
      intros n. apply hoare_fix. intros sa [[Hla Hia] Hna].
      apply hoare_get. intros sa' ->.
      destruct (tokenType_eqb (tokenType sa) STRING) eqn:Ekey; simpl; [|apply hoare_throw].
      assert (Hnea : ~ atEnd sa) by (eapply tokenType_not_atEnd; eauto; discriminate).
      pose proof (tok_live_bound _ _ Hla Hnea) as Hba.
      apply hoare_bind with (Q := fun _ s => tok_live text s /\ index sa < index s).
      { apply getToken_from; auto. }
      intros _. apply hoare_get. intros sb [Hlb Hib].
      destruct (isDelimiter (js ":") sb) eqn:Ecolon; simpl; [|apply hoare_throw].
      apply hoare_bind with (Q := fun _ s => tok_live text s /\ index sa < index s).
      { eapply hoare_post.
        - apply getToken_from; auto. eapply isDelimiter_not_atEnd; eauto; discriminate.
        - simpl. intros _ s [H1 H2]. split; [auto|lia]. }
      intros _.
      apply hoare_bind with (Q := fun _ s => tok_live text s /\ index sa < index s).
      { apply hoare_modify. intros s H. exact H. }
      intros _.
      apply hoare_bind with (Q := fun _ s => tok_live text s /\ index sa < index s).
      { apply hoare_fix. intros sc [Hlc Hic].
        eapply hoare_conseq; [apply (IH (index sc))| |].
        - lia.
        - intros s ->. auto.
        - simpl. intros _ s [H1 H2]. split; [auto|lia]. }
      intros v.
      apply hoare_bind with (Q := fun _ s => tok_live text s /\ index sa < index s).
      { apply hoare_fix. intros sd [Hld Hid].
        eapply hoare_conseq; [apply (setProperty_live text (index sd))| |].
        - intros s ->. auto.
        - simpl. intros _ s [H1 H2]. split; [auto|lia]. }
      intros _. apply hoare_get. intros se [Hle Hie].
      destruct (isDelimiter (js ",") se) eqn:Ecomma; simpl.
      + assert (Hnee : ~ atEnd se) by (eapply isDelimiter_not_atEnd; eauto; discriminate).
        apply hoare_bind with (Q := fun _ s => tok_live text s /\ index se < index s).
        { apply getToken_from; auto. }
        intros _. apply hoare_ret. intros s [H1 H2]. split; [split; [auto|lia] | lia].
      + apply hoare_ret. intros s ->. split; [auto|lia].
    - intros s [H1 H2]. split; [auto|lia]. }
  intros _. apply hoare_get. intros s2 [Hlive2 Hi2].
  destruct (isDelimiter (js "}") s2) eqn:Eend; simpl; [|apply hoare_throw].
  apply hoare_bind with (Q := fun _ s => tok_live text s /\ i < index s).
  { eapply hoare_post.
    - apply getToken_from; auto. eapply isDelimiter_not_atEnd; eauto; discriminate.
    - simpl. intros _ s [H1 H2]. split; [auto|lia]. }
  intros _. apply hoare_get. intros s3 [Hlive3 Hi3].
  destruct (isCircular s3 object).
  - eapply hoare_conseq; [apply (parseCircular_frame
                                   (fun s => tok_live text s /\ i < index s))| |].
    + intros s ->. auto.
    + simpl. intros _ s [H1 H2]. split; [auto|lia].
  - apply hoare_bind with (Q := fun _ s => tok_live text s /\ i < index s).
    { apply hoare_modify. intros s ->. exact (conj Hlive3 Hi3). }
    intros _.
    apply hoare_bind with (Q := fun _ s => tok_live text s /\ i < index s).
    { apply hoare_modify. intros s H. exact H. }
    intros _. apply hoare_ret. intros s [H1 H2]. split; [auto|lia].
Qed.

End Descent.

(* ------------------------------------------------------------------ *)
(** *** The exceptions of the tokenizer and of the descent *)

Lemma raises_ret {A} E (a : A) : raises E (ret a).
Proof. intros s. exact I. Qed.

Lemma raises_get E : raises E get.
Proof. intros s. exact I. Qed.

Lemma raises_modify E f : raises E (modify f).
Proof. intros s. exact I. Qed.

Lemma raises_throw {A} (E : exn -> Prop) e : (forall s, E (e s)) -> raises E (@throw A e).
Proof. intros H s. apply H. Qed.

Lemma raises_bind {A B} E (m : M A) (k : A -> M B) :
  raises E m -> (forall a, raises E (k a)) -> raises E (bind m k).
Proof.
  intros Hm Hk s. unfold bind. specialize (Hm s).
  destruct (m s) as [[a| |] s']; simpl in *; auto. apply Hk.
Qed.

Lemma raises_while E fuel cond body : raises E body -> raises E (while fuel cond body).
Proof.
  intros Hb. induction fuel as [|fuel IH]; intros s; simpl.
  - destruct (cond s); exact I.
  - destruct (cond s); [|exact I]. apply (raises_bind E body); auto.
Qed.

Lemma raises_loop E fuel body : raises E body -> raises E (loop fuel body).
Proof.
  intros Hb. induction fuel as [|fuel IH]; simpl.
  - intros s. exact I.
  - apply raises_bind; [exact Hb|]. intros [|]; [exact IH | apply raises_ret].
Qed.

Lemma raises_scan E cond body : raises E body -> raises E (scan cond body).
Proof.
  intros Hb. unfold scan. apply raises_bind; [apply raises_get|].
  intros s. apply raises_while. exact Hb.
Qed.

Lemma raises_createSyntaxError {A} E message pos :
  (forall e, isSyntaxError e -> E e) ->
  raises E (@throw A (createSyntaxError message pos)).
Proof.
  intros HE. apply raises_throw. intros s. apply HE.
  destruct pos; exact I.
Qed.

(** Breaks a computation down to its calls. *)
Ltac raises_step :=
  match goal with
  | |- raises _ (bind _ _) => apply raises_bind; [|intros ?]
  | |- raises _ (ret _) => apply raises_ret
  | |- raises _ get => apply raises_get
  | |- raises _ (modify _) => apply raises_modify
  | |- raises _ (scan _ _) => apply raises_scan
  | |- raises _ (loop _ _) => apply raises_loop
  | |- raises _ (throw (createSyntaxError _ _)) =>
      apply raises_createSyntaxError; assumption
  | |- raises _ (if ?b then _ else _) => destruct b
  | |- raises _ (match ?o with Some _ => _ | None => _ end) => destruct o
  end.

Section Raises.

Variable E : exn -> Prop.
Hypothesis syntaxErrors : forall e, isSyntaxError e -> E e.

Lemma raises_next : raises E next.
Proof. unfold next. repeat raises_step. Qed.

Lemma raises_accept : raises E accept.
Proof. unfold accept. raises_step; [raises_step | apply raises_next]. Qed.

Lemma raises_expectDigit : raises E expectDigit.
Proof. unfold expectDigit. repeat raises_step. Qed.

Lemma raises_digits : raises E digits.
Proof. unfold digits. raises_step. apply raises_accept. Qed.

Lemma raises_getNumber : raises E getNumber.
Proof.
  unfold getNumber.
  repeat first [ apply raises_next | apply raises_accept | apply raises_expectDigit
               | apply raises_digits | raises_step ].
Qed.

Lemma raises_readHex n : forall hex, raises E (readHex n hex).
Proof.
  induction n as [|n IH]; intros hex; simpl.
  - apply raises_ret.
  - repeat first [ apply raises_next | apply IH | raises_step ].
Qed.

Lemma raises_stringChar : raises E stringChar.
Proof.
  unfold stringChar.
  repeat first [ apply raises_next | apply raises_accept | apply raises_readHex
               | raises_step ].
Qed.

Lemma raises_getString : raises E getString.
Proof.
  unfold getString.
  repeat first [ apply raises_next | apply raises_stringChar | raises_step ].
Qed.

Lemma raises_getToken : raises E getToken.
Proof.
  unfold getToken.
  repeat first [ apply raises_next | apply raises_accept | apply raises_getNumber
               | apply raises_getString | raises_step ].
Qed.

End Raises.

Lemma isParseError_syntax circularRefs e :
  isSyntaxError e -> isParseError circularRefs e.
Proof. destruct e; simpl; tauto. Qed.

Section DescentRaises.

Variable circularRefs : bool.
Variable parsePointer : jsstring -> list jsstring.

Lemma raises_validate object pointerPath n :
  circularRefs = true ->
  forall i, raises (isParseError circularRefs) (validate object pointerPath n i).
Proof.
  intros Hcr. induction n as [|n IH]; intros i; simpl.
  - apply raises_ret.
  - apply raises_bind; [apply raises_get|]. intros s.
    destruct (strictNotEqual _ _); [|apply IH].
    apply raises_throw. intros s'. exact Hcr.
Qed.

Lemma raises_parseCircular object :
  raises (isParseError circularRefs) (parseCircular circularRefs parsePointer object).
Proof.
  unfold parseCircular. destruct circularRefs eqn:Ecr; simpl; [|apply raises_ret].
  apply raises_bind; [apply raises_get|]. intros s.
  apply raises_bind; [|intros _; repeat raises_step].
  rewrite <- Ecr. apply raises_validate. exact Ecr.
Qed.

Lemma raises_parseString :
  raises (isParseError circularRefs) parseString.
Proof.
  pose proof (isParseError_syntax circularRefs) as HE.
  unfold parseString, parseNumber, parseSymbol, parseEnd.
  repeat first [ apply raises_getToken; assumption | raises_step ].
Qed.

Lemma raises_parseArray fuel rec :
  raises (isParseError circularRefs) rec ->
  raises (isParseError circularRefs) (parseArray fuel rec).
Proof.
  intros Hrec. pose proof (isParseError_syntax circularRefs) as HE.
  unfold parseArray, alloc, push.
  repeat first [ apply raises_getToken; assumption | apply raises_parseString
               | exact Hrec | raises_step ].
Qed.

Lemma raises_parseObject fuel :
  raises (isParseError circularRefs) (parseObject circularRefs parsePointer fuel).
Proof.
  pose proof (isParseError_syntax circularRefs) as HE.
  induction fuel as [|fuel IH]; simpl.
  - intros s. exact I.
  - unfold alloc, setProperty.
    repeat first [ apply raises_getToken; assumption | apply raises_parseCircular
                 | apply raises_parseArray | exact IH | raises_step ].
Qed.

End DescentRaises.

(* ================================================================== *)
(** ** More fuel does not change a result *)
(* ================================================================== *)

Lemma refines_refl {A} (m : M A) : refines m m.
Proof. intros s _. reflexivity. Qed.

Lemma refines_bind {A B} (m m' : M A) (k k' : A -> M B) :
  refines m m' -> (forall a, refines (k a) (k' a)) -> refines (bind m k) (bind m' k').
Proof.
  intros Hm Hk s Hs. unfold bind in *.
  destruct (m s) as [[a| |] s1] eqn:E.
  - rewrite (Hm s) by (rewrite E; discriminate). rewrite E. apply Hk. exact Hs.
  - rewrite (Hm s) by (rewrite E; discriminate). rewrite E. reflexivity.
  - simpl in Hs. congruence.
Qed.

Lemma refines_loop n :
  forall n' body body',
    n <= n' -> refines body body' -> refines (loop n body) (loop n' body').
Proof.
  induction n as [|n IH]; intros n' body body' Hn Hb.
  - intros s Hs. simpl in Hs. congruence.
  - destruct n' as [|n']; [lia|]. simpl.
    apply refines_bind; [exact Hb|]. intros [|]; [|apply refines_refl].
    apply IH; [lia | exact Hb].
Qed.

(** Compares two computations that differ in their fuel only. *)
Ltac refines_step :=
  match goal with
  | |- refines ?m ?m => apply refines_refl
  | |- refines (bind _ _) (bind _ _) => apply refines_bind; [|intros ?]
  | |- refines (if ?b then _ else _) (if ?b then _ else _) => destruct b
  | |- refines (loop _ _) (loop _ _) => apply refines_loop
  end.

Lemma refines_parseArray fuel fuel' rec rec' :
  fuel <= fuel' -> refines rec rec' ->
  refines (parseArray fuel rec) (parseArray fuel' rec').
Proof.
  intros Hf Hrec. unfold parseArray.
  repeat first [ exact Hrec | exact Hf | refines_step ].
Qed.

Lemma refines_parseObject circularRefs parsePointer fuel :
  forall fuel', fuel <= fuel' ->
    refines (parseObject circularRefs parsePointer fuel)
            (parseObject circularRefs parsePointer fuel').
Proof.
  induction fuel as [|fuel IH]; intros fuel' Hf.
  - intros s Hs. simpl in Hs. congruence.
  - destruct fuel' as [|fuel']; [lia|]. simpl.
    assert (Hle : fuel <= fuel') by lia.
    repeat first [ apply refines_parseArray | apply IH | exact Hle | refines_step ].
Qed.

(* ================================================================== *)
(** ** Properties of [parse] *)
(* ================================================================== *)

Section Parse.

Variable circularRefs : bool.
Variable parsePointer : jsstring -> list jsstring.
Variable Reviver : Type.
Variable revive : value -> Reviver -> list container -> (value + exn) * list container.

(** The state [parse] starts the tokenizer from: every variable of the
    module has been assigned. *)
Lemma parse_initialize text reviver s0 :
  parse circularRefs parsePointer Reviver revive text reviver s0 =
  (getToken ;;
   json <- parseObject circularRefs parsePointer (parseFuel text) ;;
   s <- get ;;
   if negb (str_eqb (token s) [])
   then throw (createSyntaxError (js "Unexpected characters") None)
   else
     match reviver with
     | Some r =>
         fun s =>
           match revive json r (heap s) with
           | (inl v, h) => (Val v, with_heap h s)
           | (inr e, h) => (Throw e, with_heap h s)
           end
     | None => ret json
     end)
    (mkState text 0 (charAt text 0) [] NULL [] [] []).
Proof. reflexivity. Qed.

Lemma parse_hoare text reviver :
  hoare (fun _ => True)
        (parse circularRefs parsePointer Reviver revive text reviver)
        (fun _ _ => True).
Proof.
  intros s0 _. rewrite parse_initialize.
  refine ((_ : hoare (fun s => s = mkState text 0 (charAt text 0) [] NULL [] [] [])
                     _ (fun _ _ => True)) _ eq_refl).
  apply hoare_bind with (Q := fun _ s => tok_live text s /\ 0 < index s).
  { eapply hoare_pre; [apply (getToken_spec text 0)|].
    intros s ->. unfold cursor_ok. simpl. splits; auto. lia. }
  intros _.
  apply hoare_bind with (Q := fun _ _ => True).
  { apply hoare_fix. intros s1 [Hl1 Hi1].
    eapply hoare_conseq;
      [apply (parseObject_spec circularRefs parsePointer text (parseFuel text) (index s1))| |].
    - unfold parseFuel. lia.
    - intros s ->. auto.
    - auto. }
  intros json. apply hoare_get. intros s2 _.
  destruct (negb (str_eqb (token s2) [])); [apply hoare_throw|].
  destruct reviver as [r|]; [|apply hoare_ret; auto].
  intros s _. destruct (revive json r (heap s)) as [[v|e] h]; exact I.
Qed.

Lemma parse_raises text :
  raises (isParseError circularRefs) (parse circularRefs parsePointer Reviver revive text None).
Proof.
  pose proof (isParseError_syntax circularRefs) as HE.
  unfold parse, parseWith. cbv beta iota.
  repeat first [ apply raises_getToken; assumption | apply raises_parseObject
               | raises_step ].
Qed.

Lemma refines_parseWith fuel fuel' text reviver :
  fuel <= fuel' ->
  refines (parseWith circularRefs parsePointer Reviver revive fuel text reviver)
          (parseWith circularRefs parsePointer Reviver revive fuel' text reviver).
Proof.
  intros Hf. unfold parseWith.
  repeat first [ apply refines_parseObject; exact Hf | refines_step ].
Qed.

Lemma parse_unfold text reviver :
  parse circularRefs parsePointer Reviver revive text reviver =
  parseWith circularRefs parsePointer Reviver revive (parseFuel text) text reviver.
Proof. reflexivity. Qed.

Lemma parse_in_fuel text reviver s0 :
  fst (parse circularRefs parsePointer Reviver revive text reviver s0) <> OutOfFuel.
Proof.
  pose proof (parse_hoare text reviver s0 I) as H.
  destruct (parse _ _ _ _ text reviver s0) as [[v|e|] s']; simpl;
    [discriminate | discriminate | contradiction].
Qed.


(** C10: [parse] is deterministic, whatever an earlier call has left in
    the variables of the module: two calls with the same text and the same
    reviver give the same outcome (the same value in the same heap, or the
    same exception) and leave the same state, because every variable is
    assigned before it is read. In particular calling [parse] again from
    the state the first call has left gives the same outcome. *)
Theorem parse_deterministic text reviver s1 s2 :
  parse circularRefs parsePointer Reviver revive text reviver s1 =
  parse circularRefs parsePointer Reviver revive text reviver s2
  /\ parse circularRefs parsePointer Reviver revive text reviver
       (snd (parse circularRefs parsePointer Reviver revive text reviver s1)) =
     parse circularRefs parsePointer Reviver revive text reviver s1.
Proof.
  split; rewrite !parse_initialize; reflexivity.
Qed.

End Parse.

(* ================================================================== *)
(** ** The circular-reference resolver *)
(* ================================================================== *)

Lemma strictNotEqual_false a b : strictNotEqual a b = false <-> b = VString a.
Proof.
  unfold strictNotEqual. destruct b; try (split; [discriminate | congruence]).
  rewrite negb_false_iff. split.
  - intros H. apply str_eqb_true in H. congruence.
  - intros H. inversion H. unfold str_eqb. apply bool_decide_eq_true. reflexivity.
Qed.

Lemma arrayGet_string (a : list value) i seg :
  arrayGet a i = VString seg <-> a !! i = Some (VString seg).
Proof.
  unfold arrayGet. destruct (a !! i) as [v|]; simpl; split; congruence.
Qed.

(** The validation loop from [i] on lets a path through when every
    segment is equal to the entry of [path] at its index. *)
Lemma validate_match object (pointerPath : list jsstring) s n :
  forall i,
    i + n = length pointerPath ->
    (forall j seg, i <= j -> pointerPath !! j = Some seg ->
                   path s !! j = Some (VString seg)) ->
    validate object pointerPath n i s = (Val tt, s).
Proof.
  induction n as [|n IH]; intros i Hlen Hall; simpl; [reflexivity|].
  unfold bind, get.
  destruct (pointerPath !! i) as [seg|] eqn:Eseg.
  2: { apply lookup_ge_None in Eseg. lia. }
  simpl. specialize (Hall i seg (le_n i) Eseg) as Hi.
  apply arrayGet_string in Hi. rewrite Hi.
  replace (strictNotEqual seg (VString seg)) with false
    by (symmetry; apply strictNotEqual_false; reflexivity).
  apply IH; [lia|]. intros j seg' Hj. apply Hall. lia.
Qed.

(** It throws at the first segment that differs from the entry of [path]
    at its index; an index past the end of [path] reads [undefined], which
    differs from every segment. *)
Lemma validate_mismatch object (pointerPath : list jsstring) s n :
  forall i,
    i + n = length pointerPath ->
    (exists j seg, i <= j /\ pointerPath !! j = Some seg /\
                   path s !! j <> Some (VString seg)) ->
    validate object pointerPath n i s =
    (Throw (Error (js "Invalid circular reference "
                     ++ [dquote] ++ refOf s object ++ [dquote])), s).
Proof.
  induction n as [|n IH]; intros i Hlen (j & seg & Hj & Hseg & Hne); simpl.
  - apply lookup_lt_Some in Hseg. lia.
  - unfold bind, get.
    destruct (strictNotEqual (default [] (pointerPath !! i)) (arrayGet (path s) i)) eqn:Eneq.
    + reflexivity.
    + apply IH; [lia|]. exists j, seg. splits; auto.
      destruct (decide (j = i)) as [->|Hji]; [|lia].
      apply strictNotEqual_false in Eneq. rewrite Hseg in Eneq. simpl in Eneq.
      apply arrayGet_string in Eneq. contradiction.
Qed.

Section Resolver.

Variable parsePointer : jsstring -> list jsstring.

(** A segment that differs from the entry of the path stack at its
    index makes the resolver throw. *)
Lemma parseCircular_mismatch object s :
  (exists i seg, parsePointer (refOf s object) !! i = Some seg /\
                 path s !! i <> Some (VString seg)) ->
  parseCircular true parsePointer object s =
  (Throw (Error (js "Invalid circular reference "
                   ++ [dquote] ++ refOf s object ++ [dquote])), s).
Proof.
  intros (i & seg & Hseg & Hne). unfold parseCircular. simpl. unfold bind, get.
  rewrite (validate_mismatch object _ s (length (parsePointer (refOf s object))) 0);
    [reflexivity | lia |].
  exists i, seg. splits; auto. lia.
Qed.

(** When every segment is equal to the entry of the path stack at its
    index, the resolver returns the entry of the stack behind them. *)
Lemma parseCircular_match object s :
  (forall i seg, parsePointer (refOf s object) !! i = Some seg ->
                 path s !! i = Some (VString seg)) ->
  parseCircular true parsePointer object s =
  (Val (arrayGet (stack s) (length (parsePointer (refOf s object)))), s).
Proof.
  intros Hall. unfold parseCircular. simpl. unfold bind, get.
  rewrite (validate_match object _ s (length (parsePointer (refOf s object))) 0);
    [reflexivity | lia |].
  intros j seg _. apply Hall.
Qed.

(** C4: with the circular-reference feature enabled, the resolver
    compares every segment of the parsed path with the entry of the path
    stack at the same index. Any mismatch, an index past the end of the
    path stack included, raises the Error "Invalid circular reference"
    that names the marker string; when every segment matches, the
    resolver returns [stack[pointerPath.length]] without a check that
    this index is inside the stack. The code does not always return a
    live container there: for a parsed path that is as long as the stack
    (a marker whose path names the marker itself) the result is
    [undefined], although the docstring of [parseCircular] gives the
    result as an Object or an Array and says that a path that cannot be
    resolved throws. The text [{"$ref": "#/$ref"}] parses to [undefined],
    and the array [[{"$ref": "#/0/$ref"}]] receives [undefined] as its
    item. *)
Theorem parseCircular_enabled object s :
  let pointerPath := parsePointer (refOf s object) in
  let invalid := Error (js "Invalid circular reference "
                          ++ [dquote] ++ refOf s object ++ [dquote]) in
  ((exists i seg, pointerPath !! i = Some seg /\ path s !! i <> Some (VString seg)) ->
   parseCircular true parsePointer object s = (Throw invalid, s))
  /\ (length (path s) < length pointerPath ->
      parseCircular true parsePointer object s = (Throw invalid, s))
  /\ ((forall i seg, pointerPath !! i = Some seg -> path s !! i = Some (VString seg)) ->
      parseCircular true parsePointer object s =
      (Val (arrayGet (stack s) (length pointerPath)), s))
  /\ (let (result, s') := run true (json "{'a':{'b':{'$ref':'#/a'}}}") in
      result = Val (VRef 0)
      /\ getProperty s' (VRef 0) (js "a") = VRef 1
      /\ getProperty s' (VRef 1) (js "b") = VRef 1)
  /\ fst (run true (json "{'a':{'b':{'$ref':'#/b'}}}")) =
     Throw (Error (js "Invalid circular reference " ++ [dquote] ++ js "#/b" ++ [dquote]))
  /\ ((forall i seg, pointerPath !! i = Some seg -> path s !! i = Some (VString seg)) ->
      length (stack s) <= length pointerPath ->
      parseCircular true parsePointer object s = (Val VUndefined, s))
  /\ fst (run true (json "{'$ref':'#/$ref'}")) = Val VUndefined
  /\ (let (result, s') := run true (json "[{'$ref':'#/0/$ref'}]") in
      result = Val (VRef 0) /\ heap s' !! 0 = Some (CArray [VUndefined])).
Proof.
  intros pointerPath invalid.
  split; [|split; [|split; [|split; [vm_compute; splits; reflexivity
                                    |split; [vm_compute; reflexivity
                                            |split; [|split; [vm_compute; reflexivity
                                                             |vm_compute; splits;
                                                              reflexivity]]]]]]].
  - apply parseCircular_mismatch.
  - intros Hlong. apply parseCircular_mismatch. fold pointerPath.
    destruct (pointerPath !! length (path s)) as [seg|] eqn:Eseg.
    + exists (length (path s)), seg. split; [exact Eseg|].
      rewrite (proj2 (lookup_ge_None (path s) (length (path s))) (le_n _)). discriminate.
    + apply lookup_ge_None in Eseg. lia.
  - apply parseCircular_match.
  - intros Hall Hlong. rewrite (parseCircular_match object s Hall). unfold arrayGet.
    fold pointerPath. rewrite (proj2 (lookup_ge_None (stack s) (length pointerPath)) Hlong).
    reflexivity.
Qed.

(** C9: with the feature enabled, a parsed path as long as the stack
    whose segments all match the path stack makes [parseCircular] return
    [undefined], the out-of-range entry [stack[pointerPath.length]], and
    no exception is thrown; the marker that points at itself,
    [{"$ref": "#/$ref"}], parses to [undefined]. *)
Theorem parseCircular_at_stack_length object s :
  (length (parsePointer (refOf s object)) = length (stack s) ->
   (forall i seg, parsePointer (refOf s object) !! i = Some seg ->
                  path s !! i = Some (VString seg)) ->
   parseCircular true parsePointer object s = (Val VUndefined, s))
  /\ fst (run true (json "{'$ref':'#/$ref'}")) = Val VUndefined
  /\ (let (result, s') := run true (json "{'a':{'$ref':'#/a/$ref'}}") in
      result = Val (VRef 0)
      /\ heap s' !! 0 = Some (CObject {[ js "a" := VUndefined ]})).
Proof.
  split; [|split; vm_compute; splits; reflexivity].
  intros Hlen Hall.
  rewrite (parseCircular_match object s Hall). unfold arrayGet.
  rewrite Hlen, (proj2 (lookup_ge_None (stack s) (length (stack s))) (le_n _)).
  reflexivity.
Qed.

(** With the feature disabled the descent never calls the pointer
    parser: two pointer parsers give the same parser. *)
Lemma parseObject_disabled_pointer (parsePointer' : jsstring -> list jsstring) fuel :
  parseObject false parsePointer fuel = parseObject false parsePointer' fuel.
Proof.
  induction fuel as [|fuel IH]; [reflexivity|].
  simpl. rewrite IH. reflexivity.
Qed.

(** C5: with the feature disabled, [parseCircular] returns the marker
    itself and leaves the state as it is, whatever the stack and the path
    hold; no path is parsed or validated, so [parse] is the same function
    for every pointer parser; the text [{"$ref": "#/a"}] parses to an
    object whose only property is the string ["#/a"] under ["$ref"]. *)
Theorem parseCircular_disabled object s s0 :
  parseCircular false parsePointer object s = (Val object, s)
  /\ (forall (parsePointer' : jsstring -> list jsstring) Reviver revive text reviver,
        parse false parsePointer Reviver revive text reviver =
        parse false parsePointer' Reviver revive text reviver)
  /\ (let (result, s') :=
        parse false parsePointer unit (fun v _ h => (inl v, h))
              (json "{'$ref':'#/a'}") None s0 in
      result = Val (VRef 0)
      /\ heap s' = [CObject {[ js "$ref" := VString (js "#/a") ]}]).
Proof.
  split; [reflexivity|]. split.
  - intros parsePointer' Reviver revive text reviver. unfold parse, parseWith.
    rewrite (parseObject_disabled_pointer parsePointer'). reflexivity.
  - rewrite parse_initialize. vm_compute. split; reflexivity.
Qed.

End Resolver.

(* ================================================================== *)
(** ** Escapes in strings *)
(* ================================================================== *)

Lemma str_eqb_refl a : str_eqb a a = true.
Proof. unfold str_eqb. apply bool_decide_eq_true. reflexivity. Qed.

Lemma charAt_lookup (text : jsstring) i x : text !! i = Some x -> charAt text i = [x].
Proof. unfold charAt. intros ->. reflexivity. Qed.

(** [readHex] on hexadecimal digits: it reads them all. *)
Lemma readHex_digits n :
  forall hex text i tok ty p st h,
    (forall k, k < n -> isHex (charAt text (i + k)) = true) ->
    readHex n hex (mkState text i (charAt text i) tok ty p st h) =
    (Val (hex ++ firstn n (skipn i text)),
     mkState text (i + n) (charAt text (i + n)) tok ty p st h).
Proof.
  induction n as [|n IH]; intros hex text i tok ty p st h Hall; simpl.
  - rewrite Nat.add_0_r, app_nil_r. reflexivity.
  - unfold bind at 1. unfold get. simpl.
    pose proof (Hall 0 (Nat.lt_0_succ n)) as H0. rewrite Nat.add_0_r in H0.
    rewrite H0. unfold bind at 1. unfold next, bind, modify. simpl.
    rewrite (IH _ text (S i) tok ty p st h).
    + assert (Hne : charAt text i <> []) by (apply isHex_nonempty; exact H0).
      apply charAt_nonempty in Hne as (x & Hx & Hcx & Hlt).
      rewrite Hcx. rewrite (drop_S _ _ _ Hx). simpl.
      rewrite <- app_assoc. simpl.
      replace (S (i + n)) with (i + S n) by lia. reflexivity.
    + intros k Hk. replace (S i + k) with (i + S k) by lia. apply Hall. lia.
Qed.

(** [readHex] stops with the error at the first character that is not a
    hexadecimal digit. *)
Lemma readHex_invalid n :
  forall hex text i tok ty p st h,
    (exists k, k < n /\ isHex (charAt text (i + k)) = false) ->
    exists pos s',
      readHex n hex (mkState text i (charAt text i) tok ty p st h) =
      (Throw (SyntaxError (js "Invalid unicode character") pos), s').
Proof.
  induction n as [|n IH]; intros hex text i tok ty p st h (k & Hk & Hbad); [lia|].
  simpl. unfold bind at 1. unfold get. simpl.
  destruct (isHex (charAt text i)) eqn:Ehex.
  - unfold bind at 1. unfold next, bind, modify. simpl.
    apply IH. destruct k as [|k].
    + rewrite Nat.add_0_r in Hbad. congruence.
    + exists k. split; [lia|]. replace (S i + k) with (i + S k) by lia. exact Hbad.
  - eexists _, _. reflexivity.
Qed.

(** A simple escape: the character after the backslash selects the
    character that the token receives. *)
Lemma stringChar_escape text i tok ty p st h x unescaped :
  text !! S i = Some x ->
  ESCAPE_CHARACTERS [x] = Some unescaped ->
  stringChar (mkState text i [backslash] tok ty p st h) =
  (Val tt, mkState text (S (S i)) (charAt text (S (S i))) (tok ++ unescaped) ty p st h).
Proof.
  intros Hx Hesc. unfold stringChar, bind, get, next, modify. simpl.
  rewrite (charAt_lookup _ _ _ Hx), Hesc. reflexivity.
Qed.

Local Opaque readHex.

(** A unicode escape followed by four hexadecimal digits: the token
    receives the character with that code. *)
Lemma stringChar_unicode text i tok ty p st h :
  text !! S i = Some 117%N ->
  (forall k, k < 4 -> isHex (charAt text (S (S i) + k)) = true) ->
  stringChar (mkState text i [backslash] tok ty p st h) =
  (Val tt, mkState text (i + 6) (charAt text (i + 6))
             (tok ++ fromCharCode (parseInt16 0 (firstn 4 (skipn (S (S i)) text))))
             ty p st h).
Proof.
  intros Hu Hhex. unfold stringChar. unfold bind at 1. unfold get.
  cbv beta iota. simpl c. rewrite str_eqb_refl.
  unfold bind at 1. unfold next at 1. unfold bind at 1. unfold modify at 1 2. simpl.
  unfold bind at 1. unfold get. simpl.
  rewrite (charAt_lookup _ _ _ Hu).
  change (ESCAPE_CHARACTERS [117%N]) with (@None jsstring).
  change (str_eqb [117%N] (js "u")) with true. cbv iota.
  unfold bind at 1. unfold next at 1. unfold bind at 1. unfold modify at 1 2. simpl.
  unfold bind at 1.
  cbv [with_c with_index jsonText index c token tokenType path stack heap].
  rewrite (readHex_digits 4 [] text (S (S i)) tok ty p st h Hhex).
  unfold modify. simpl. replace (S (S (i + 4))) with (i + 6) by lia. reflexivity.
Qed.

(** A unicode escape that is not followed by four hexadecimal digits is
    an error. *)
Lemma stringChar_unicode_invalid text i tok ty p st h :
  text !! S i = Some 117%N ->
  (exists k, k < 4 /\ isHex (charAt text (S (S i) + k)) = false) ->
  exists pos s',
    stringChar (mkState text i [backslash] tok ty p st h) =
    (Throw (SyntaxError (js "Invalid unicode character") pos), s').
Proof.
  intros Hu Hbad. unfold stringChar. unfold bind at 1. unfold get.
  cbv beta iota. simpl c. rewrite str_eqb_refl.
  unfold bind at 1. unfold next at 1. unfold bind at 1. unfold modify at 1 2. simpl.
  unfold bind at 1. unfold get. simpl.
  rewrite (charAt_lookup _ _ _ Hu).
  change (ESCAPE_CHARACTERS [117%N]) with (@None jsstring).
  change (str_eqb [117%N] (js "u")) with true. cbv iota.
  unfold bind at 1. unfold next at 1. unfold bind at 1. unfold modify at 1 2. simpl.
  unfold bind at 1.
  cbv [with_c with_index jsonText index c token tokenType path stack heap].
  destruct (readHex_invalid 4 [] text (S (S i)) tok ty p st h Hbad) as (pos & s' & ->).
  eexists _, _. reflexivity.
Qed.

Local Transparent readHex.

Lemma hexDigit_isHex a d : hexDigit a = Some d -> isHex [a] = true /\ (d < 16)%N.
Proof.
  unfold hexDigit, isHex. intros H.
  destruct ((48 <=? a)%N && (a <=? 57)%N) eqn:E1.
  { inversion H; subst. split; [reflexivity|].
    apply andb_true_iff in E1 as [H1 H2].
    apply N.leb_le in H1. apply N.leb_le in H2. lia. }
  destruct ((97 <=? a)%N && (a <=? 102)%N) eqn:E2.
  { inversion H; subst. split; [reflexivity|].
    apply andb_true_iff in E2 as [H1 H2].
    apply N.leb_le in H1. apply N.leb_le in H2. lia. }
  destruct ((65 <=? a)%N && (a <=? 70)%N) eqn:E3; [|discriminate].
  inversion H; subst. split; [reflexivity|].
  apply andb_true_iff in E3 as [H1 H2].
  apply N.leb_le in H1. apply N.leb_le in H2. lia.
Qed.

Lemma window_lookup (text : jsstring) p n (w : jsstring) k :
  firstn n (skipn p text) = w -> k < n -> text !! (p + k) = w !! k.
Proof.
  intros <- Hk. rewrite lookup_take_lt by exact Hk. rewrite lookup_drop. reflexivity.
Qed.

(** A unicode escape, by the values of its four digits. *)
Lemma stringChar_unicode_code text i tok ty p st h a1 a2 a3 a4 d1 d2 d3 d4 :
  text !! S i = Some 117%N ->
  firstn 4 (skipn (S (S i)) text) = [a1; a2; a3; a4] ->
  hexDigit a1 = Some d1 -> hexDigit a2 = Some d2 ->
  hexDigit a3 = Some d3 -> hexDigit a4 = Some d4 ->
  stringChar (mkState text i [backslash] tok ty p st h) =
  (Val tt, mkState text (i + 6) (charAt text (i + 6))
             (tok ++ [(4096 * d1 + 256 * d2 + 16 * d3 + d4)%N]) ty p st h).
Proof.
  intros Hu Hw H1 H2 H3 H4.
  rewrite (stringChar_unicode text i tok ty p st h Hu).
  - rewrite Hw. unfold fromCharCode. simpl. rewrite H1, H2, H3, H4.
    apply hexDigit_isHex in H1 as [_ H1]. apply hexDigit_isHex in H2 as [_ H2].
    apply hexDigit_isHex in H3 as [_ H3]. apply hexDigit_isHex in H4 as [_ H4].
    replace (16 * (16 * (16 * (16 * 0 + d1) + d2) + d3) + d4)%N
      with (4096 * d1 + 256 * d2 + 16 * d3 + d4)%N by lia.
    rewrite N.mod_small by lia. reflexivity.
  - intros k Hk. rewrite (charAt_lookup text (S (S i) + k) (nth k [a1; a2; a3; a4] 0%N)).
    + destruct k as [|[|[|[|k]]]]; simpl; try lia;
        eapply hexDigit_isHex; eassumption.
    + rewrite (window_lookup text (S (S i)) 4 _ k Hw Hk).
      destruct k as [|[|[|[|k]]]]; simpl; try lia; reflexivity.
Qed.

(** C7: inside a string token each escape of the standard set (the
    double quote, the backslash, the slash and the letters b, f, n, r, t)
    decodes to its character, and a backslash-u followed by four
    hexadecimal digits decodes to the character with that code, so the text
    made of a quoted backslash-u 0041 parses to the one-character string A;
    a backslash-u that is not followed by four hexadecimal digits, as in
    backslash-u ZZZZ, fails with the error Invalid unicode character. The
    token holds the decoded characters, not the escaped form. *)
Theorem string_escapes :
  (ESCAPE_CHARACTERS [dquote] = Some [dquote]
   /\ ESCAPE_CHARACTERS [backslash] = Some [backslash]
   /\ ESCAPE_CHARACTERS (js "/") = Some (js "/")
   /\ ESCAPE_CHARACTERS (js "b") = Some [8%N]
   /\ ESCAPE_CHARACTERS (js "f") = Some [12%N]
   /\ ESCAPE_CHARACTERS (js "n") = Some [10%N]
   /\ ESCAPE_CHARACTERS (js "r") = Some [13%N]
   /\ ESCAPE_CHARACTERS (js "t") = Some [9%N])
  /\ (forall text i tok ty p st h x unescaped,
        text !! S i = Some x ->
        ESCAPE_CHARACTERS [x] = Some unescaped ->
        stringChar (mkState text i [backslash] tok ty p st h) =
        (Val tt, mkState text (S (S i)) (charAt text (S (S i)))
                   (tok ++ unescaped) ty p st h))
  /\ (forall text i tok ty p st h a1 a2 a3 a4 d1 d2 d3 d4,
        text !! S i = Some 117%N ->
        firstn 4 (skipn (S (S i)) text) = [a1; a2; a3; a4] ->
        hexDigit a1 = Some d1 -> hexDigit a2 = Some d2 ->
        hexDigit a3 = Some d3 -> hexDigit a4 = Some d4 ->
        stringChar (mkState text i [backslash] tok ty p st h) =
        (Val tt, mkState text (i + 6) (charAt text (i + 6))
                   (tok ++ [(4096 * d1 + 256 * d2 + 16 * d3 + d4)%N]) ty p st h))
  /\ (forall text i tok ty p st h,
        text !! S i = Some 117%N ->
        (exists k, k < 4 /\ isHex (charAt text (S (S i) + k)) = false) ->
        exists pos s',
          stringChar (mkState text i [backslash] tok ty p st h) =
          (Throw (SyntaxError (js "Invalid unicode character") pos), s'))
  /\ fst (run false (json "'\u0041'")) = Val (VString (js "A"))
  /\ fst (run false (json "'\uZZZZ'")) =
     Throw (SyntaxError (js "Invalid unicode character") 3)
  /\ fst (run false (json "'a\nb\\\/'")) = Val (VString [97; 10; 98; 92; 47]%N).
Proof.
  split; [repeat split|].
  split; [exact stringChar_escape|].
  split; [exact stringChar_unicode_code|].
  split; [exact stringChar_unicode_invalid|].
  splits; vm_compute; reflexivity.
Qed.

(* ================================================================== *)
(** ** Trailing input *)
(* ================================================================== *)

Section Trailing.

Variable circularRefs : bool.
Variable parsePointer : jsstring -> list jsstring.
Variable Reviver : Type.
Variable revive : value -> Reviver -> list container -> (value + exn) * list container.

(** The state in which the descent returns a value is a state between
    two tokens. *)
Lemma value_then_live text v s1 :
  (getToken ;; parseObject circularRefs parsePointer (parseFuel text))
    (mkState text 0 (charAt text 0) [] NULL [] [] []) = (Val v, s1) ->
  tok_live text s1.
Proof.
  intros Hrun.
  assert (H : hoare (fun s => s = mkState text 0 (charAt text 0) [] NULL [] [] [])
                    (getToken ;; parseObject circularRefs parsePointer (parseFuel text))
                    (fun _ s => tok_live text s)).
  { apply hoare_bind with (Q := fun _ s => tok_live text s /\ 0 < index s).
    - eapply hoare_pre; [apply (getToken_spec text 0)|].
      intros s ->. unfold cursor_ok. simpl. splits; auto. lia.
    - intros _. apply hoare_fix. intros sa [Hla Hia].
      eapply hoare_conseq;
        [apply (parseObject_spec circularRefs parsePointer text (parseFuel text) (index sa))| |].
      + unfold parseFuel. lia.
      + intros s ->. auto.
      + simpl. tauto. }
  specialize (H _ eq_refl). rewrite Hrun in H. exact H.
Qed.

(** C6, as the code has it: when the descent has returned a complete
    value and the token that follows it is not empty and is not a string
    (it is a delimiter, a number or a symbol), that token is the piece of
    the text that ends at the cursor, and [parse] throws the SyntaxError
    "Unexpected characters" whose position is the offset of the first
    character of the token, the first character that the parser has not
    consumed. *)
Theorem trailing_input_error text reviver s0 v s1 :
  (getToken ;; parseObject circularRefs parsePointer (parseFuel text))
    (mkState text 0 (charAt text 0) [] NULL [] [] []) = (Val v, s1) ->
  token s1 <> [] ->
  tokenType s1 <> STRING ->
  exists pre post,
    text = pre ++ token s1 ++ post
    /\ index s1 = length pre + length (token s1)
    /\ parse circularRefs parsePointer Reviver revive text reviver s0 =
       (Throw (SyntaxError (js "Unexpected characters") (Z.of_nat (length pre))), s1).
Proof.
  intros Hrun Htok Hty.
  pose proof (value_then_live text v s1 Hrun) as [_ [[_ Hend] | [Hle Hspan]]];
    [contradiction|].
  destruct (Hspan Hty) as [pre Hpre].
  assert (Hlen : index s1 = length pre + length (token s1)).
  { assert (H : length (firstn (index s1) text) = length (pre ++ token s1))
      by (rewrite Hpre; reflexivity).
    rewrite length_take, length_app in H. lia. }
  exists pre, (skipn (index s1) text). split; [|split; [exact Hlen|]].
  - rewrite app_assoc, <- Hpre. symmetry. apply firstn_skipn.
  - rewrite parse_initialize. unfold bind at 1. unfold bind at 1 in Hrun.
    destruct (getToken _) as [[[]| |] sa]; try discriminate Hrun.
    unfold bind at 1. rewrite Hrun. unfold bind, get.
    replace (str_eqb (token s1) []) with false.
    + simpl. unfold throw, createSyntaxError. do 2 f_equal. f_equal. lia.
    + symmetry. unfold str_eqb. apply bool_decide_eq_false. exact Htok.
Qed.

End Trailing.

Lemma trailing_input_error_witness :
  exists pre post,
    json "[1, 2] true" = pre ++ js "true" ++ post
    /\ 11 = length pre + length (js "true")
    /\ parse false pointerSegments unit (fun v _ h => (inl v, h))
             (json "[1, 2] true") None initialState =
       (Throw (SyntaxError (js "Unexpected characters") (Z.of_nat (length pre))),
        mkState (json "[1, 2] true") 11 [] (js "true") SYMBOL [] []
                [CArray [VNumber Number.one;
                         VNumber (S754_finite false 4503599627370496 (-51))]]).
Proof.
  apply (trailing_input_error false pointerSegments unit (fun v _ h => (inl v, h))
           (json "[1, 2] true") None initialState (VRef 0)
           (mkState (json "[1, 2] true") 11 [] (js "true") SYMBOL [] []
                    [CArray [VNumber Number.one;
                             VNumber (S754_finite false 4503599627370496 (-51))]])).
  - vm_compute. reflexivity.
  - discriminate.
  - discriminate.
Defined.

(** The claim C6 fails on trailing input that is not a token: the text
    [1 @] is the complete value [1], a space and the character [@]; the
    tokenizer stops at it and throws its own error, "Syntax error in part",
    before [parse] looks at the token that follows the value. *)
Lemma trailing_input_other_error :
  json "1 @" = json "1" ++ js " " ++ js "@"
  /\ fst (run false (json "1")) = Val (VNumber Number.one)
  /\ fst (run false (json "1 @")) =
     Throw (SyntaxError (js "Syntax error in part " ++ [dquote] ++ js "@" ++ [dquote]) 2)
  /\ js "Syntax error in part " ++ [dquote] ++ js "@" ++ [dquote]
     <> js "Unexpected characters".
Proof. splits; try (vm_compute; reflexivity). discriminate. Qed.

(** A trailing string is reported behind its start: the text [1 "a"] is
    the complete value [1], a space and the string token ["a"], whose first
    character is at offset 2, and the position of the error is 4, the
    index behind the token, 5, less the length of the decoded token, 1. *)
Lemma trailing_string_offset :
  json "1 'a'" = json "1" ++ js " " ++ json "'a'"
  /\ fst (run false (json "1 'a'")) = Throw (SyntaxError (js "Unexpected characters") 4)
  /\ (4 <> Z.of_nat (length (json "1" ++ js " ")))%Z.
Proof. splits; try (vm_compute; reflexivity). discriminate. Qed.

(* ================================================================== *)
(** ** The resolver on concrete states *)
(* ================================================================== *)

Lemma parseCircular_enabled_witness :
  parseCircular true pointerSegments (VRef 2)
                (closingMarker (js "#/x") [js "a"; js "b"]) =
  (Throw (Error (js "Invalid circular reference " ++ [dquote] ++ js "#/x" ++ [dquote])),
   closingMarker (js "#/x") [js "a"; js "b"])
  /\ parseCircular true pointerSegments (VRef 2)
                   (closingMarker (js "#/a/b/$ref/c") [js "a"; js "b"]) =
     (Throw (Error (js "Invalid circular reference "
                      ++ [dquote] ++ js "#/a/b/$ref/c" ++ [dquote])),
      closingMarker (js "#/a/b/$ref/c") [js "a"; js "b"])
  /\ parseCircular true pointerSegments (VRef 2)
                   (closingMarker (js "#/a") [js "a"; js "b"]) =
     (Val (VRef 1), closingMarker (js "#/a") [js "a"; js "b"]).
Proof.
  split; [|split].
  - apply (proj1 (parseCircular_enabled pointerSegments (VRef 2)
                    (closingMarker (js "#/x") [js "a"; js "b"]))).
    exists 0, (js "x"). split; [reflexivity | discriminate].
  - apply (proj1 (proj2 (parseCircular_enabled pointerSegments (VRef 2)
                    (closingMarker (js "#/a/b/$ref/c") [js "a"; js "b"])))).
    vm_compute. lia.
  - apply (proj1 (proj2 (proj2 (parseCircular_enabled pointerSegments (VRef 2)
                    (closingMarker (js "#/a") [js "a"; js "b"]))))).
    intros [|i] seg Hseg; [|discriminate Hseg].
    inversion Hseg. reflexivity.
Defined.

Lemma parseCircular_at_stack_length_witness :
  parseCircular true pointerSegments (VRef 0) (closingMarker (js "#/$ref") []) =
  (Val VUndefined, closingMarker (js "#/$ref") []).
Proof.
  apply (proj1 (parseCircular_at_stack_length pointerSegments (VRef 0)
                  (closingMarker (js "#/$ref") []))).
  - reflexivity.
  - intros [|i] seg Hseg; [|discriminate Hseg].
    inversion Hseg. reflexivity.
Defined.

(* ================================================================== *)
(** ** Where the code departs from the specification *)
(* ================================================================== *)

(** A number token is the piece of the text that ends at the cursor: the
    tokenizer has the literal and its position. *)
Lemma getToken_number_text text s s' :
  cursor_ok text s -> index s <= length text ->
  getToken s = (Val tt, s') ->
  tokenType s' = NUMBER ->
  exists pre post,
    text = pre ++ token s' ++ post /\ index s' = length pre + length (token s').
Proof.
  intros Hc Hle Hrun Hty.
  pose proof (getToken_spec text (index s) s (conj Hc (conj eq_refl Hle))) as H.
  rewrite Hrun in H. destruct H as [[_ [[Hd _] | [Hle' Hspan]]] _]; [congruence|].
  destruct Hspan as [pre Hpre]; [congruence|].
  exists pre, (skipn (index s') text). split.
  - rewrite app_assoc, <- Hpre. symmetry. apply firstn_skipn.
  - assert (Hlen : length (firstn (index s') text) = length (pre ++ token s'))
      by (rewrite Hpre; reflexivity).
    rewrite length_take, length_app in Hlen. lia.
Qed.

(** C1: the code does not keep the literal. [parseNumber] returns
    [token/1], a binary64 Number: the literal 9007199254740993 (2^53 + 1)
    parses to the Number 2^53, the same value as the literal
    9007199254740992, although the tokenizer has read the sixteen
    characters of the literal as the token. *)
Theorem number_literal_rounded :
  fst (run false (js "9007199254740993")) = Val (VNumber (S754_finite false 4503599627370496 1))
  /\ fst (run false (js "9007199254740992")) = Val (VNumber (S754_finite false 4503599627370496 1))
  /\ token (snd (getToken (mkState (js "9007199254740993") 0 (js "9") [] NULL [] [] [])))
     = js "9007199254740993".
Proof. splits; vm_compute; splits; reflexivity. Qed.

(** C2: with the feature disabled the code does not pop the stack entry
    of a marker. After [{"$ref": "#/a"}] has closed at the top level the
    stack and the path still hold one entry (an object that is not a
    marker leaves none), and inside an array the entry of the marker stays
    above the entry of the array. *)
Theorem marker_leaves_stack_entry :
  (let (result, s) := run false (json "{'$ref':'#/a'}") in
   result = Val (VRef 0) /\ stack s = [VRef 0] /\ path s = [VString (js "$ref")])
  /\ (let (result, s) := run false (json "{'key':'#/a'}") in
      result = Val (VRef 0) /\ stack s = [] /\ path s = [])
  /\ stack (snd (run false (json "[{'$ref':'#/a'}"))) = [VRef 0; VRef 1]
  /\ stack (snd (run false (json "[{'key':'#/a'}"))) = [VRef 0].
Proof. splits; vm_compute; splits; reflexivity. Qed.

(** With the feature enabled the entry that a marker leaves on the stack
    shifts the entries of the containers that follow: the marker at
    [/a/y/z] names [#/a/y] and receives the container 2, the marker of
    [/a/x], where the object at [/a/y] is the container 3. *)
Lemma stale_entry_misresolves :
  let (result, s) :=
    run true (json "{'a':{'x':{'$ref':'#'},'y':{'z':{'$ref':'#/a/y'}}}}") in
  result = Val (VRef 0)
  /\ getProperty s (VRef 0) (js "a") = VRef 1
  /\ getProperty s (VRef 1) (js "y") = VRef 3
  /\ getProperty s (VRef 3) (js "z") = VRef 2.
Proof. vm_compute. splits; reflexivity. Qed.

(** C3: the code accepts a leading zero. [01] is read as one number token
    and parses to the Number 1; the inputs [-], [1.] and [1e] fail with the
    error "Invalid number, digit expected" at the position behind the
    fragment. *)
Theorem leading_zero_accepted :
  fst (run false (js "01")) = Val (VNumber Number.one)
  /\ token (snd (getToken (mkState (js "01") 0 (js "0") [] NULL [] [] []))) = js "01"
  /\ fst (run false (js "-")) = Throw (SyntaxError (js "Invalid number, digit expected") 1)
  /\ fst (run false (js "1.")) = Throw (SyntaxError (js "Invalid number, digit expected") 2)
  /\ fst (run false (js "1e")) = Throw (SyntaxError (js "Invalid number, digit expected") 2).
Proof. splits; vm_compute; splits; reflexivity. Qed.

Lemma string_escapes_witness :
  stringChar (mkState (json "'\n'") 1 [backslash] [] STRING [] [] []) =
  (Val tt, mkState (json "'\n'") 3 (charAt (json "'\n'") 3) ([] ++ [10%N]) STRING [] [] [])
  /\ stringChar (mkState (json "'\u260E'") 1 [backslash] [] STRING [] [] []) =
     (Val tt, mkState (json "'\u260E'") (1 + 6) (charAt (json "'\u260E'") (1 + 6))
                ([] ++ [(4096 * 2 + 256 * 6 + 16 * 0 + 14)%N]) STRING [] [] [])
  /\ exists pos s',
       stringChar (mkState (json "'\u26'") 1 [backslash] [] STRING [] [] []) =
       (Throw (SyntaxError (js "Invalid unicode character") pos), s').
Proof.
  destruct string_escapes as (_ & Hescape & Hunicode & Hinvalid & _).
  split; [|split].
  - apply (Hescape (json "'\n'") 1 [] STRING [] [] [] 110%N [10%N]); reflexivity.
  - apply (Hunicode (json "'\u260E'") 1 [] STRING [] [] [] 50%N 54%N 48%N 69%N);
      reflexivity.
  - apply (Hinvalid (json "'\u26'") 1 [] STRING [] [] []); [reflexivity|].
    exists 2. split; [lia | reflexivity].
Defined.

(* ================================================================== *)
(** ** What the tokenizer leaves alone *)
(* ================================================================== *)

Lemma same_store_refl s : same_store s s.
Proof. unfold same_store. auto. Qed.

Lemma same_store_trans s1 s2 s3 :
  same_store s1 s2 -> same_store s2 s3 -> same_store s1 s3.
Proof. unfold same_store. intros (?&?&?&?) (?&?&?&?). splits; congruence. Qed.

Lemma frames_ret {A} (a : A) : frames (ret a).
Proof. intros s. apply same_store_refl. Qed.

Lemma frames_get : frames get.
Proof. intros s. apply same_store_refl. Qed.

Lemma frames_throw {A} e : frames (@throw A e).
Proof. intros s. apply same_store_refl. Qed.

Lemma frames_modify f : (forall s, same_store s (f s)) -> frames (modify f).
Proof. intros H s. apply H. Qed.

Lemma frames_bind {A B} (m : M A) (k : A -> M B) :
  frames m -> (forall a, frames (k a)) -> frames (bind m k).
Proof.
  intros Hm Hk s. unfold bind. specialize (Hm s).
  destruct (m s) as [[a| |] s1]; simpl in *; auto.
  eapply same_store_trans; [exact Hm | apply Hk].
Qed.

Lemma frames_while fuel cond body : frames body -> frames (while fuel cond body).
Proof.
  intros Hb. induction fuel as [|fuel IH]; intros s; simpl.
  - destruct (cond s); apply same_store_refl.
  - destruct (cond s); [|apply same_store_refl].
    apply (frames_bind body); auto.
Qed.

Lemma frames_scan cond body : frames body -> frames (scan cond body).
Proof.
  intros Hb. unfold scan. apply frames_bind; [apply frames_get|].
  intros s. apply frames_while. exact Hb.
Qed.

(** Breaks a computation of the tokenizer down to its assignments. *)
Ltac frames_step :=
  match goal with
  | |- frames (bind _ _) => apply frames_bind; [|intros ?]
  | |- frames (ret _) => apply frames_ret
  | |- frames get => apply frames_get
  | |- frames (throw _) => apply frames_throw
  | |- frames (modify _) =>
      apply frames_modify; intros ?; unfold same_store; simpl; auto
  | |- frames (scan _ _) => apply frames_scan
  | |- frames (if ?b then _ else _) => destruct b
  | |- frames (match ?o with Some _ => _ | None => _ end) => destruct o
  end.

Lemma frames_next : frames next.
Proof. unfold next. repeat frames_step. Qed.

Lemma frames_accept : frames accept.
Proof. unfold accept. repeat first [apply frames_next | frames_step]. Qed.

Lemma frames_getNumber : frames getNumber.
Proof.
  unfold getNumber, digits, expectDigit.
  repeat first [apply frames_next | apply frames_accept | frames_step].
Qed.

Lemma frames_readHex n : forall hex, frames (readHex n hex).
Proof.
  induction n as [|n IH]; intros hex; simpl.
  - apply frames_ret.
  - repeat first [apply frames_next | apply IH | frames_step].
Qed.

Lemma frames_getString : frames getString.
Proof.
  unfold getString, stringChar.
  repeat first [apply frames_next | apply frames_accept | apply frames_readHex
               | frames_step].
Qed.

(** X1: whatever its outcome (a token or an error), [getToken] leaves
    the text, the path, the stack and the heap as they are: it only moves
    the cursor and builds the token. *)
Theorem getToken_frame s :
  same_store s (snd (getToken s)).
Proof.
  revert s. change (frames getToken). unfold getToken.
  repeat first [apply frames_next | apply frames_accept | apply frames_getNumber
               | apply frames_getString | frames_step].
Qed.

(* ================================================================== *)
(** ** What the tokenizer reads *)
(* ================================================================== *)

Lemma while_done fuel cond body s :
  cond s = false -> while fuel cond body s = (Val tt, s).
Proof. destruct fuel; simpl; intros ->; reflexivity. Qed.

Lemma while_step fuel cond body s :
  cond s = true ->
  while (S fuel) cond body s = (body ;; while fuel cond body) s.
Proof. simpl. intros ->. reflexivity. Qed.

Lemma window_cons (text : jsstring) i n x w :
  firstn (S n) (skipn i text) = x :: w ->
  text !! i = Some x /\ firstn n (skipn (S i) text) = w.
Proof.
  intros H. destruct (text !! i) as [y|] eqn:E.
  - rewrite (drop_S _ _ _ E) in H. simpl in H. inversion H. subst. auto.
  - apply lookup_ge_None in E. rewrite drop_ge in H by lia. discriminate H.
Qed.

Lemma window_app (pre w post : jsstring) :
  firstn (length w) (skipn (length pre) (pre ++ w ++ post)) = w.
Proof. rewrite drop_app_length, take_app_length. reflexivity. Qed.

Lemma window_length (text : jsstring) i w :
  firstn (length w) (skipn i text) = w -> length w <= length text.
Proof.
  intros H. assert (Hl : length (firstn (length w) (skipn i text)) = length w)
    by (rewrite H; reflexivity).
  rewrite length_take, length_drop in Hl. lia.
Qed.

Lemma charAt_app_r (pre post : jsstring) :
  charAt (pre ++ post) (length pre) = charAt post 0.
Proof.
  unfold charAt. rewrite lookup_app_r by lia. rewrite Nat.sub_diag. reflexivity.
Qed.

Lemma charAt_end (text : jsstring) i : length text <= i -> charAt text i = [].
Proof. intros H. unfold charAt. rewrite (proj2 (lookup_ge_None text i) H). reflexivity. Qed.

(** A loop that steps over the characters of a run with [next()]. *)
Lemma while_next_run (p : jsstring -> bool) w :
  forall text i tok ty pa st h fuel,
    firstn (length w) (skipn i text) = w ->
    (forall x, x ∈ w -> p [x] = true) ->
    p (charAt text (i + length w)) = false ->
    length w <= fuel ->
    while fuel (fun s => p (c s)) next (cursorAt text i tok ty pa st h) =
    (Val tt, cursorAt text (i + length w) tok ty pa st h).
Proof.
  induction w as [|x w IH]; intros text i tok ty pa st h fuel Hw Hp Hstop Hfuel.
  - simpl in *. rewrite Nat.add_0_r in *. apply while_done. exact Hstop.
  - simpl length in *. apply window_cons in Hw as [Hx Hw].
    destruct fuel as [|fuel]; [lia|].
    rewrite while_step.
    2: { change (p (charAt text i) = true).
         rewrite (charAt_lookup _ _ _ Hx). apply Hp. left. }
    unfold bind at 1.
    change (next (cursorAt text i tok ty pa st h))
      with (Val tt, cursorAt text (S i) tok ty pa st h).
    cbv beta iota.
    rewrite (IH text (S i) tok ty pa st h fuel Hw).
    + replace (S i + length w) with (i + S (length w)) by lia. reflexivity.
    + intros y Hy. apply Hp. right. exact Hy.
    + replace (S i + length w) with (i + S (length w)) by lia. exact Hstop.
    + lia.
Qed.

(** A loop that takes the characters of a run with [token += c; next()]. *)
Lemma while_accept_run (p : jsstring -> bool) w :
  forall text i tok ty pa st h fuel,
    firstn (length w) (skipn i text) = w ->
    (forall x, x ∈ w -> p [x] = true) ->
    p (charAt text (i + length w)) = false ->
    length w <= fuel ->
    while fuel (fun s => p (c s)) accept (cursorAt text i tok ty pa st h) =
    (Val tt, cursorAt text (i + length w) (tok ++ w) ty pa st h).
Proof.
  induction w as [|x w IH]; intros text i tok ty pa st h fuel Hw Hp Hstop Hfuel.
  - simpl in *. rewrite Nat.add_0_r in *. rewrite app_nil_r. apply while_done. exact Hstop.
  - simpl length in *. apply window_cons in Hw as [Hx Hw].
    destruct fuel as [|fuel]; [lia|].
    rewrite while_step.
    2: { change (p (charAt text i) = true).
         rewrite (charAt_lookup _ _ _ Hx). apply Hp. left. }
    unfold bind at 1.
    change (accept (cursorAt text i tok ty pa st h))
      with (Val tt, cursorAt text (S i) (tok ++ charAt text i) ty pa st h).
    rewrite (charAt_lookup _ _ _ Hx). cbv beta iota.
    rewrite (IH text (S i) (tok ++ [x]) ty pa st h fuel Hw).
    + replace (S i + length w) with (i + S (length w)) by lia.
      rewrite <- app_assoc. reflexivity.
    + intros y Hy. apply Hp. right. exact Hy.
    + replace (S i + length w) with (i + S (length w)) by lia. exact Hstop.
    + lia.
Qed.

(** [getToken()] starts from an empty token, whatever the token before. *)
Lemma getToken_reset text i tok ty pa st h :
  getToken (cursorAt text i tok ty pa st h) = getToken (cursorAt text i [] NULL pa st h).
Proof. reflexivity. Qed.

Lemma bind_modify {B} f (k : unit -> M B) s : bind (modify f) k s = k tt (f s).
Proof. reflexivity. Qed.

Lemma bind_get {B} (k : state -> M B) s : bind get k s = k s s.
Proof. reflexivity. Qed.

Lemma bind_val {A B} (m : M A) (k : A -> M B) s a s' :
  m s = (Val a, s') -> bind m k s = k a s'.
Proof. unfold bind. intros ->. reflexivity. Qed.

(** The whitespace loop in front of any continuation. *)
Lemma skip_whitespace {B} (k : unit -> M B) text i w pa st h :
  firstn (length w) (skipn i text) = w ->
  whitespace w ->
  isWhitespace (charAt text (i + length w)) = false ->
  bind (scan (fun s => isWhitespace (c s)) next) k (cursorAt text i [] NULL pa st h) =
  k tt (cursorAt text (i + length w) [] NULL pa st h).
Proof.
  intros Hw Hws Hstop.
  pose proof (window_length text i w Hw) as Hlen.
  apply bind_val. unfold scan. rewrite bind_get.
  change (jsonText (cursorAt text i [] NULL pa st h)) with text.
  apply (while_next_run isWhitespace w text i [] NULL pa st h (length text) Hw Hws Hstop).
  exact Hlen.
Qed.

Lemma skip_whitespace_none {B} (k : unit -> M B) text i pa st h :
  isWhitespace (charAt text i) = false ->
  bind (scan (fun s => isWhitespace (c s)) next) k (cursorAt text i [] NULL pa st h) =
  k tt (cursorAt text i [] NULL pa st h).
Proof.
  intros Hstop. apply bind_val. unfold scan. rewrite bind_get.
  apply while_done. exact Hstop.
Qed.

(** [getToken()] skips the whitespace before a token. *)
Lemma getToken_whitespace text i w tok ty pa st h :
  firstn (length w) (skipn i text) = w ->
  whitespace w ->
  isWhitespace (charAt text (i + length w)) = false ->
  getToken (cursorAt text i tok ty pa st h) =
  getToken (cursorAt text (i + length w) [] NULL pa st h).
Proof.
  intros Hw Hws Hstop.
  unfold getToken. rewrite !bind_modify.
  change (with_token [] (with_tokenType NULL (cursorAt text i tok ty pa st h)))
    with (cursorAt text i [] NULL pa st h).
  change (with_token [] (with_tokenType NULL (cursorAt text (i + length w) [] NULL pa st h)))
    with (cursorAt text (i + length w) [] NULL pa st h).
  etransitivity; [apply (skip_whitespace _ text i w pa st h Hw Hws Hstop)|].
  symmetry. apply skip_whitespace_none. exact Hstop.
Qed.

(** *** Classes of characters *)

Lemma str_eqb_single x y : str_eqb [x] [y] = N.eqb x y.
Proof.
  unfold str_eqb. destruct (N.eqb_spec x y) as [->|Hne].
  - apply bool_decide_eq_true. reflexivity.
  - apply bool_decide_eq_false. congruence.
Qed.

Lemma isWhitespace_single x :
  isWhitespace [x] = (N.eqb x 32 || N.eqb x 9 || N.eqb x 10 || N.eqb x 13).
Proof.
  unfold isWhitespace. change (js " ") with [32%N].
  rewrite !str_eqb_single. reflexivity.
Qed.

Lemma DELIMITERS_single x :
  DELIMITERS [x] =
  (N.eqb x 123 || N.eqb x 125 || N.eqb x 91 || N.eqb x 93 || N.eqb x 58 || N.eqb x 44).
Proof.
  unfold DELIMITERS.
  change [js ""; js "{"; js "}"; js "["; js "]"; js ":"; js ","]
    with [[]; [123%N]; [125%N]; [91%N]; [93%N]; [58%N]; [44%N]].
  destruct (N.eqb_spec x 123) as [->|H1]; [reflexivity|].
  destruct (N.eqb_spec x 125) as [->|H2]; [reflexivity|].
  destruct (N.eqb_spec x 91) as [->|H3]; [reflexivity|].
  destruct (N.eqb_spec x 93) as [->|H4]; [reflexivity|].
  destruct (N.eqb_spec x 58) as [->|H5]; [reflexivity|].
  destruct (N.eqb_spec x 44) as [->|H6]; [reflexivity|].
  simpl. apply bool_decide_eq_false. intros H.
  repeat (apply elem_of_cons in H as [H|H]; [inversion H; congruence|]).
  inversion H.
Qed.

Lemma isDigit_single x : isDigit [x] = (N.leb 48 x && N.leb x 57).
Proof.
  unfold isDigit, str_geb, str_leb. change (js "0") with [48%N]. change (js "9") with [57%N].
  simpl.
  destruct (N.ltb_spec x 48), (N.ltb_spec 48 x), (N.ltb_spec 57 x), (N.ltb_spec x 57),
    (N.leb_spec 48 x), (N.leb_spec x 57); simpl; try reflexivity; lia.
Qed.

(** Turns the tests on a character into arithmetic. *)
Ltac char_class :=
  rewrite ?isWhitespace_single, ?DELIMITERS_single, ?isDigit_single, ?str_eqb_single in *;
  unfold isAlpha, isHex, dquote, backslash in *;
  repeat match goal with
         | H : _ = true |- _ =>
             rewrite ?orb_true_iff, ?andb_true_iff, ?N.leb_le, ?N.eqb_eq, ?N.ltb_lt in H
         | H : _ = false |- _ => apply not_true_iff_false in H
         end;
  try apply not_true_iff_false;
  rewrite ?orb_true_iff, ?andb_true_iff, ?negb_true_iff, ?N.leb_le, ?N.eqb_eq, ?N.ltb_lt in *;
  try lia.

Lemma alpha_class x :
  isAlpha [x] = true ->
  isWhitespace [x] = false /\ DELIMITERS [x] = false
  /\ isDigit [x] || str_eqb [x] (js "-") = false /\ str_eqb [x] [dquote] = false.
Proof.
  intros H. change (js "-") with [45%N]. splits; char_class.
Qed.

Lemma whitespace_class x :
  isWhitespace [x] = true -> isAlpha [x] = false.
Proof. intros H. char_class. Qed.

Lemma quote_class :
  isWhitespace [dquote] = false /\ DELIMITERS [dquote] = false
  /\ isDigit [dquote] || str_eqb [dquote] (js "-") = false
  /\ str_eqb [dquote] [dquote] = true.
Proof. splits; vm_compute; reflexivity. Qed.

(** *** The tokens *)

(** What [getToken()] does behind the whitespace, from the character at
    the cursor. *)
Lemma getToken_dispatch text i pa st h :
  isWhitespace (charAt text i) = false ->
  getToken (cursorAt text i [] NULL pa st h) =
  (if DELIMITERS (charAt text i) then
     modify (with_tokenType DELIMITER) ;;
     modify (fun s => with_token (c s) s) ;;
     next
   else if isDigit (charAt text i) || str_eqb (charAt text i) (js "-") then getNumber
   else if str_eqb (charAt text i) [dquote] then getString
   else if isAlpha (charAt text i) then
     modify (with_tokenType SYMBOL) ;;
     scan (fun s => isAlpha (c s)) accept
   else
     modify (with_tokenType UNKNOWN) ;;
     scan (fun s => negb (str_eqb (c s) [])) accept ;;
     s <- get ;;
     throw (createSyntaxError
              (js "Syntax error in part " ++ [dquote] ++ token s ++ [dquote]) None))
    (cursorAt text i [] NULL pa st h).
Proof.
  intros Hstop. unfold getToken. rewrite !bind_modify.
  change (with_token [] (with_tokenType NULL (cursorAt text i [] NULL pa st h)))
    with (cursorAt text i [] NULL pa st h).
  etransitivity; [apply skip_whitespace_none; exact Hstop|].
  rewrite bind_get. reflexivity.
Qed.

(** At the end of the text [getToken()] gives the empty delimiter and
    moves the cursor past the end. *)
Lemma getToken_end text i tok ty pa st h :
  length text <= i ->
  getToken (cursorAt text i tok ty pa st h) =
  (Val tt, cursorAt text (S i) [] DELIMITER pa st h).
Proof.
  intros Hi. rewrite getToken_reset, getToken_dispatch by (rewrite charAt_end by exact Hi; reflexivity).
  rewrite (charAt_end text i Hi).
  change (DELIMITERS []) with true. cbv beta iota.
  rewrite !bind_modify. unfold next, bind, modify, cursorAt. simpl.
  rewrite (charAt_end text i Hi). reflexivity.
Qed.

(** A run of letters and underscores is one symbol token. *)
Lemma getToken_symbol text i sym pa st h :
  sym <> [] ->
  (forall x, x ∈ sym -> isAlpha [x] = true) ->
  firstn (length sym) (skipn i text) = sym ->
  isAlpha (charAt text (i + length sym)) = false ->
  getToken (cursorAt text i [] NULL pa st h) =
  (Val tt, cursorAt text (i + length sym) sym SYMBOL pa st h).
Proof.
  intros Hne Halpha Hw Hstop.
  destruct sym as [|x sym']; [congruence|].
  pose proof (window_length _ _ _ Hw) as Hlen.
  pose proof Hw as Hw'. simpl length in Hw'. apply window_cons in Hw' as [Hx _].
  pose proof (charAt_lookup _ _ _ Hx) as Hc.
  destruct (alpha_class x (Halpha x ltac:(left))) as (Hws & Hdel & Hnum & Hq).
  rewrite getToken_dispatch by (rewrite Hc; exact Hws).
  rewrite Hc, Hdel, Hnum, Hq, (Halpha x) by (left). cbv beta iota.
  rewrite bind_modify.
  change (with_tokenType SYMBOL (cursorAt text i [] NULL pa st h))
    with (cursorAt text i [] SYMBOL pa st h).
  unfold scan. rewrite bind_get.
  change (jsonText (cursorAt text i [] SYMBOL pa st h)) with text.
  apply (while_accept_run isAlpha (x :: sym') text i [] SYMBOL pa st h (length text));
    auto.
Qed.

(** The string loop over the escaped form of [body], up to a closing
    quote or the end of the text. *)
Lemma while_string_body body :
  forall text i tok pa st h fuel,
    firstn (length (escape body)) (skipn i text) = escape body ->
    negb (str_eqb (charAt text (i + length (escape body))) [])
    && negb (str_eqb (charAt text (i + length (escape body))) [dquote]) = false ->
    length (escape body) <= fuel ->
    while fuel (fun s => negb (str_eqb (c s) []) && negb (str_eqb (c s) [dquote]))
          stringChar (cursorAt text i tok STRING pa st h) =
    (Val tt, cursorAt text (i + length (escape body)) (tok ++ body) STRING pa st h).
Proof.
  induction body as [|x body IH]; intros text i tok pa st h fuel Hw Hstop Hfuel.
  - simpl in *. rewrite Nat.add_0_r in *. rewrite app_nil_r. apply while_done.
    exact Hstop.
  - simpl escape in *.
    destruct (N.eqb x dquote || N.eqb x backslash) eqn:Especial.
    + (* an escaped character *)
      simpl length in *.
      apply window_cons in Hw as [Hb Hw].
      apply window_cons in Hw as [Hx Hw].
      destruct fuel as [|fuel]; [lia|].
      rewrite while_step
        by (change (negb (str_eqb (charAt text i) [])
                    && negb (str_eqb (charAt text i) [dquote]) = true);
            rewrite (charAt_lookup _ _ _ Hb); reflexivity).
      unfold cursorAt at 1. rewrite (charAt_lookup _ _ _ Hb).
      assert (Hesc : ESCAPE_CHARACTERS [x] = Some [x]).
      { apply orb_true_iff in Especial as [E|E]; apply N.eqb_eq in E; subst x; reflexivity. }
      rewrite (bind_val _ _ _ _ _ (stringChar_escape text i tok STRING pa st h x [x] Hx Hesc)).
      change (mkState text (S (S i)) (charAt text (S (S i))) (tok ++ [x]) STRING pa st h)
        with (cursorAt text (S (S i)) (tok ++ [x]) STRING pa st h).
      replace (i + S (S (length (escape body)))) with (S (S i) + length (escape body))
        in * by lia.
      rewrite (IH text (S (S i)) (tok ++ [x]) pa st h fuel Hw Hstop) by lia.
      rewrite <- app_assoc. reflexivity.
    + (* a character that stands for itself *)
      apply orb_false_iff in Especial as [Eq Eb].
      simpl length in *.
      apply window_cons in Hw as [Hx Hw].
      destruct fuel as [|fuel]; [lia|].
      assert (Hcond : negb (str_eqb [x] []) && negb (str_eqb [x] [dquote]) = true).
      { rewrite str_eqb_single. unfold dquote in *. rewrite Eq. reflexivity. }
      rewrite while_step
        by (change (negb (str_eqb (charAt text i) [])
                    && negb (str_eqb (charAt text i) [dquote]) = true);
            rewrite (charAt_lookup _ _ _ Hx); exact Hcond).
      assert (Hstep : stringChar (cursorAt text i tok STRING pa st h) =
                      (Val tt, cursorAt text (S i) (tok ++ [x]) STRING pa st h)).
      { unfold stringChar. rewrite bind_get.
        change (c (cursorAt text i tok STRING pa st h)) with (charAt text i).
        rewrite (charAt_lookup _ _ _ Hx), str_eqb_single. unfold backslash in *.
        rewrite Eb.
        change (accept (cursorAt text i tok STRING pa st h))
          with (Val tt, cursorAt text (S i) (tok ++ charAt text i) STRING pa st h).
        rewrite (charAt_lookup _ _ _ Hx). reflexivity. }
      rewrite (bind_val _ _ _ _ _ Hstep).
      replace (i + S (length (escape body))) with (S i + length (escape body)) in * by lia.
      rewrite (IH text (S i) (tok ++ [x]) pa st h fuel Hw Hstop) by lia.
      rewrite <- app_assoc. reflexivity.
Qed.

(** The escaped form of [body] between double quotes is one string token
    that holds [body]. *)
Lemma getToken_string text i body pa st h :
  firstn (length (escape body) + 2) (skipn i text) = dquote :: escape body ++ [dquote] ->
  getToken (cursorAt text i [] NULL pa st h) =
  (Val tt, cursorAt text (i + length (escape body) + 2) body STRING pa st h).
Proof.
  intros Hw.
  assert (Hlen : length (escape body) + 2 <= length text).
  { assert (Hl : length (firstn (length (escape body) + 2) (skipn i text))
                 = length (dquote :: escape body ++ [dquote])) by (rewrite Hw; reflexivity).
    rewrite length_take, length_drop in Hl. simpl in Hl. rewrite length_app in Hl.
    simpl in Hl. lia. }
  replace (length (escape body) + 2) with (S (length (escape body) + 1)) in Hw by lia.
  apply window_cons in Hw as [Hq Hw].
  pose proof (charAt_lookup _ _ _ Hq) as Hc.
  destruct quote_class as (Hws & Hdel & Hnum & Hstr).
  rewrite getToken_dispatch by (rewrite Hc; exact Hws).
  rewrite Hc, Hdel, Hnum, Hstr. cbv beta iota.
  unfold getString. rewrite bind_modify.
  change (with_tokenType STRING (cursorAt text i [] NULL pa st h))
    with (cursorAt text i [] STRING pa st h).
  rewrite (bind_val next _ _ tt (cursorAt text (S i) [] STRING pa st h)) by reflexivity.
  assert (Hclose : text !! (S i + length (escape body)) = Some dquote).
  { rewrite (window_lookup text (S i) (length (escape body) + 1) _ (length (escape body)) Hw)
      by lia.
    rewrite lookup_app_r by lia. rewrite Nat.sub_diag. reflexivity. }
  unfold scan at 1.
  rewrite (bind_val _ _ _ tt
             (cursorAt text (S i + length (escape body)) ([] ++ body) STRING pa st h)).
  2: { rewrite bind_get.
       change (jsonText (cursorAt text (S i) [] STRING pa st h)) with text.
       apply while_string_body; [|rewrite (charAt_lookup _ _ _ Hclose); reflexivity|lia].
       apply (f_equal (firstn (length (escape body)))) in Hw.
       rewrite take_take, take_app_length in Hw.
       replace (length (escape body) `min` (length (escape body) + 1))
         with (length (escape body)) in Hw by lia.
       exact Hw. }
  rewrite bind_get.
  change (c (cursorAt text (S i + length (escape body)) ([] ++ body) STRING pa st h))
    with (charAt text (S i + length (escape body))).
  rewrite (charAt_lookup _ _ _ Hclose). rewrite str_eqb_refl. cbv beta iota.
  change (negb true) with false. cbv iota.
  change (next (cursorAt text (S i + length (escape body)) ([] ++ body) STRING pa st h))
    with (Val tt, cursorAt text (S (S i + length (escape body))) ([] ++ body) STRING pa st h).
  simpl app. replace (S (S i + length (escape body))) with (i + length (escape body) + 2) by lia.
  reflexivity.
Qed.

(* ================================================================== *)
(** ** Scalars, with the whitespace around them *)
(* ================================================================== *)

Lemma parseFuel_S text : parseFuel text = S (S (length text)).
Proof. unfold parseFuel. lia. Qed.

(** A token that opens no container goes to [parseString]. *)
Lemma parseObject_scalar circularRefs parsePointer fuel s :
  isDelimiter (js "{") s = false ->
  isDelimiter (js "[") s = false ->
  parseObject circularRefs parsePointer (S fuel) s = parseString s.
Proof.
  intros Hobj Harr. simpl. rewrite bind_get, Hobj.
  unfold parseArray. rewrite bind_get, Harr. reflexivity.
Qed.

Lemma whitespace_app w1 w2 : whitespace w1 -> whitespace w2 -> whitespace (w1 ++ w2).
Proof. intros H1 H2 x Hx. apply elem_of_app in Hx as [Hx|Hx]; auto. Qed.

Lemma whitespace_head w : whitespace w -> isAlpha (charAt w 0) = false.
Proof.
  intros Hw. destruct w as [|x w]; [reflexivity|].
  apply whitespace_class. apply Hw. left.
Qed.

(** [getToken()] behind the last token, with only whitespace left. *)
Lemma getToken_trailing pre w tok ty pa st h :
  whitespace w ->
  getToken (cursorAt (pre ++ w) (length pre) tok ty pa st h) =
  (Val tt, cursorAt (pre ++ w) (S (length (pre ++ w))) [] DELIMITER pa st h).
Proof.
  intros Hw.
  rewrite (getToken_whitespace (pre ++ w) (length pre) w tok ty pa st h).
  - rewrite getToken_end by (rewrite length_app; lia).
    rewrite length_app. reflexivity.
  - pose proof (window_app pre w []) as H. rewrite app_nil_r in H. exact H.
  - exact Hw.
  - rewrite charAt_end by (rewrite length_app; lia). reflexivity.
Qed.

(** [parse] with the result of the descent in hand. *)
Lemma parse_finish circularRefs parsePointer Reviver revive text s0 o s1 :
  (getToken ;; parseObject circularRefs parsePointer (parseFuel text))
    (cursorAt text 0 [] NULL [] [] []) = (o, s1) ->
  (forall v, o = Val v -> token s1 = []) ->
  parse circularRefs parsePointer Reviver revive text None s0 = (o, s1).
Proof.
  intros Hrun Htok. rewrite parse_initialize.
  change (mkState text 0 (charAt text 0) [] NULL [] [] [])
    with (cursorAt text 0 [] NULL [] [] []).
  unfold bind at 1. unfold bind at 1 in Hrun.
  destruct (getToken _) as [[[]| |] sa]; try exact Hrun.
  unfold bind at 1. rewrite Hrun.
  destruct o as [v| |]; try reflexivity.
  rewrite bind_get, (Htok v eq_refl). reflexivity.
Qed.

Lemma parseString_other s :
  tokenType_eqb (tokenType s) STRING = false -> parseString s = parseNumber s.
Proof. intros H. unfold parseString. rewrite bind_get, H. reflexivity. Qed.

Lemma parseNumber_other s :
  tokenType_eqb (tokenType s) NUMBER = false -> parseNumber s = parseSymbol s.
Proof. intros H. unfold parseNumber. rewrite bind_get, H. reflexivity. Qed.

Lemma parseSymbol_other s :
  tokenType_eqb (tokenType s) SYMBOL = false -> parseSymbol s = parseEnd s.
Proof. intros H. unfold parseSymbol. rewrite bind_get, H. reflexivity. Qed.

Lemma parseEnd_empty s :
  token s = [] ->
  parseEnd s =
  (Throw (SyntaxError (js "Unexpected end of json string") (Z.of_nat (index s))), s).
Proof.
  intros H. unfold parseEnd. rewrite bind_get, H.
  change (str_eqb [] []) with true. cbv iota.
  unfold throw, createSyntaxError. rewrite H. do 3 f_equal. simpl length. lia.
Qed.

Section Scalars.

Variable circularRefs : bool.
Variable parsePointer : jsstring -> list jsstring.
Variable Reviver : Type.
Variable revive : value -> Reviver -> list container -> (value + exn) * list container.

(** X2: a text that is empty or holds only whitespace has no value:
    [parse] throws "Unexpected end of json string", and the position it
    reports is one past the length of the text. *)
Theorem parse_blank text s0 :
  whitespace text ->
  fst (parse circularRefs parsePointer Reviver revive text None s0) =
  Throw (SyntaxError (js "Unexpected end of json string") (Z.of_nat (length text) + 1)).
Proof.
  intros Hws.
  rewrite (parse_finish circularRefs parsePointer Reviver revive text s0
             (Throw (SyntaxError (js "Unexpected end of json string")
                                 (Z.of_nat (length text) + 1)))
             (cursorAt text (S (length text)) [] DELIMITER [] [] []));
    [reflexivity | | discriminate].
  rewrite (bind_val getToken _ _ tt (cursorAt text (S (length text)) [] DELIMITER [] [] [])).
  2: { exact (getToken_trailing [] text [] NULL [] [] [] Hws). }
  rewrite parseFuel_S, parseObject_scalar by reflexivity.
  rewrite parseString_other, parseNumber_other, parseSymbol_other by reflexivity.
  rewrite parseEnd_empty by reflexivity.
  change (index (cursorAt text (S (length text)) [] DELIMITER [] [] []))
    with (S (length text)).
  do 3 f_equal. lia.
Qed.

(** The first token of a text that starts with whitespace and a symbol. *)
Lemma first_token_symbol w1 sym w2 :
  whitespace w1 -> whitespace w2 ->
  sym <> [] -> (forall x, x ∈ sym -> isAlpha [x] = true) ->
  getToken (cursorAt (w1 ++ sym ++ w2) 0 [] NULL [] [] []) =
  (Val tt, cursorAt (w1 ++ sym ++ w2) (length (w1 ++ sym)) sym SYMBOL [] [] []).
Proof.
  intros Hw1 Hw2 Hne Halpha.
  destruct sym as [|x sym'] eqn:Esym; [congruence|]. rewrite <- Esym in *.
  assert (Hx : isAlpha [x] = true) by (apply Halpha; rewrite Esym; left).
  rewrite (getToken_whitespace _ 0 w1).
  - simpl. rewrite (getToken_symbol _ (length w1) sym); auto.
    + rewrite length_app. reflexivity.
    + apply window_app.
    + rewrite app_assoc, <- length_app, charAt_app_r.
      apply whitespace_head. exact Hw2.
  - exact (window_app [] w1 (sym ++ w2)).
  - exact Hw1.
  - simpl. rewrite charAt_app_r, Esym. simpl.
    apply (alpha_class x Hx).
Qed.

(** X3: a text made of one symbol (a run of letters and underscores) with
    whitespace around it parses to [true], [false] or [null] when the
    symbol is one of these words, and otherwise throws the error
    "Unknown symbol" that quotes the symbol, at the offset of its first
    character. *)
Theorem parse_symbol w1 sym w2 s0 :
  whitespace w1 -> whitespace w2 ->
  sym <> [] -> (forall x, x ∈ sym -> isAlpha [x] = true) ->
  fst (parse circularRefs parsePointer Reviver revive (w1 ++ sym ++ w2) None s0) =
  if str_eqb sym (js "true") then Val (VBool true)
  else if str_eqb sym (js "false") then Val (VBool false)
  else if str_eqb sym (js "null") then Val VNull
  else Throw (SyntaxError (js "Unknown symbol " ++ [dquote] ++ sym ++ [dquote])
                          (Z.of_nat (length w1))).
Proof.
  intros Hw1 Hw2 Hne Halpha.
  set (text := w1 ++ sym ++ w2).
  set (s1 := cursorAt text (length (w1 ++ sym)) sym SYMBOL [] [] []).
  set (send := cursorAt text (S (length text)) [] DELIMITER [] [] []).
  assert (Hfirst : forall k : unit -> M value,
             bind getToken k (cursorAt text 0 [] NULL [] [] []) = k tt s1).
  { intros k. apply bind_val. apply first_token_symbol; auto. }
  assert (Hlast : forall v : value, (getToken ;; ret v) s1 = (Val v, send)).
  { intros v. rewrite (bind_val getToken _ s1 tt send); [reflexivity|].
    unfold s1, send, text. rewrite app_assoc.
    apply getToken_trailing. exact Hw2. }
  assert (Hdesc : parseObject circularRefs parsePointer (parseFuel text) s1 =
                  parseSymbol s1).
  { rewrite parseFuel_S, parseObject_scalar by reflexivity.
    rewrite parseString_other, parseNumber_other by reflexivity. reflexivity. }
  destruct (str_eqb sym (js "true")) eqn:Etrue;
    [|destruct (str_eqb sym (js "false")) eqn:Efalse;
      [|destruct (str_eqb sym (js "null")) eqn:Enull]].
  - rewrite (parse_finish _ _ _ _ text s0 (Val (VBool true)) send); [reflexivity| |reflexivity].
    rewrite Hfirst, Hdesc. unfold parseSymbol. rewrite bind_get.
    change (tokenType s1) with SYMBOL. change (token s1) with sym.
    rewrite Etrue. apply Hlast.
  - rewrite (parse_finish _ _ _ _ text s0 (Val (VBool false)) send); [reflexivity| |reflexivity].
    rewrite Hfirst, Hdesc. unfold parseSymbol. rewrite bind_get.
    change (tokenType s1) with SYMBOL. change (token s1) with sym.
    rewrite Etrue, Efalse. apply Hlast.
  - rewrite (parse_finish _ _ _ _ text s0 (Val VNull) send); [reflexivity| |reflexivity].
    rewrite Hfirst, Hdesc. unfold parseSymbol. rewrite bind_get.
    change (tokenType s1) with SYMBOL. change (token s1) with sym.
    rewrite Etrue, Efalse, Enull. apply Hlast.
  - rewrite (parse_finish _ _ _ _ text s0
               (Throw (SyntaxError (js "Unknown symbol " ++ [dquote] ++ sym ++ [dquote])
                                   (Z.of_nat (length w1)))) s1);
      [reflexivity| |discriminate].
    rewrite Hfirst, Hdesc. unfold parseSymbol. rewrite bind_get.
    change (tokenType s1) with SYMBOL. change (token s1) with sym.
    rewrite Etrue, Efalse, Enull.
    change (tokenType_eqb SYMBOL SYMBOL) with true. cbv beta iota.
    unfold throw, createSyntaxError.
    change (index s1) with (length (w1 ++ sym)). change (token s1) with sym.
    do 3 f_equal. rewrite length_app. lia.
Qed.

(** X4: a string round trip. For every string [body], the text made of
    whitespace, a double quote, [body] with a backslash before each of its
    double quotes and backslashes, a double quote and whitespace parses to
    the string [body]: the other characters, control characters included,
    stand for themselves. *)
Theorem parse_string w1 body w2 s0 :
  whitespace w1 -> whitespace w2 ->
  fst (parse circularRefs parsePointer Reviver revive
             (w1 ++ dquote :: escape body ++ dquote :: w2) None s0) =
  Val (VString body).
Proof.
  intros Hw1 Hw2.
  set (lit := dquote :: escape body ++ [dquote]).
  assert (Htext : w1 ++ dquote :: escape body ++ dquote :: w2 = w1 ++ lit ++ w2).
  { unfold lit. simpl. rewrite <- app_assoc. reflexivity. }
  rewrite Htext.
  assert (Hlit : length lit = length (escape body) + 2).
  { unfold lit. simpl. rewrite length_app. simpl. lia. }
  set (text := w1 ++ lit ++ w2).
  set (s1 := cursorAt text (length (w1 ++ lit)) body STRING [] [] []).
  set (send := cursorAt text (S (length text)) [] DELIMITER [] [] []).
  rewrite (parse_finish _ _ _ _ text s0 (Val (VString body)) send); [reflexivity| |reflexivity].
  rewrite (bind_val getToken _ _ tt s1).
  - rewrite parseFuel_S, parseObject_scalar by reflexivity.
    unfold parseString. rewrite bind_get.
    change (tokenType s1) with STRING. change (token s1) with body.
    change (tokenType_eqb STRING STRING) with true. cbv iota.
    rewrite (bind_val getToken _ s1 tt send); [reflexivity|].
    unfold s1, send, text. rewrite app_assoc.
    apply getToken_trailing. exact Hw2.
  - rewrite (getToken_whitespace text 0 w1).
    + simpl. unfold s1. rewrite length_app, Hlit.
      replace (length w1 + (length (escape body) + 2))
        with (length w1 + length (escape body) + 2) by lia.
      apply getToken_string. rewrite <- Hlit. apply window_app.
    + exact (window_app [] w1 (lit ++ w2)).
    + exact Hw1.
    + simpl. unfold text. rewrite charAt_app_r. reflexivity.
Qed.

End Scalars.

(* ================================================================== *)
(** ** The stack and the path across a value *)
(* ================================================================== *)

Lemma partial_conseq {A} (P P' : state -> Prop) (Q Q' : A -> state -> Prop) m :
  partial P' m Q' ->
  (forall s, P s -> P' s) ->
  (forall a s, Q' a s -> Q a s) ->
  partial P m Q.
Proof.
  intros H HP HQ s Hs. specialize (H s (HP s Hs)).
  destruct (m s) as [[a| |] s']; auto.
Qed.

Lemma partial_ret {A} (P : state -> Prop) (Q : A -> state -> Prop) (a : A) :
  (forall s, P s -> Q a s) -> partial P (ret a) Q.
Proof. intros H s Hs. simpl. auto. Qed.

Lemma partial_throw {A} (P : state -> Prop) (Q : A -> state -> Prop) e :
  partial P (throw e) Q.
Proof. intros s _. exact I. Qed.

Lemma partial_modify (P : state -> Prop) (Q : unit -> state -> Prop) f :
  (forall s, P s -> Q tt (f s)) -> partial P (modify f) Q.
Proof. intros H s Hs. simpl. auto. Qed.

Lemma partial_bind {A B} (P : state -> Prop) (Q : A -> state -> Prop)
      (R : B -> state -> Prop) (m : M A) (k : A -> M B) :
  partial P m Q -> (forall a, partial (Q a) (k a) R) -> partial P (bind m k) R.
Proof.
  intros Hm Hk s Hs. unfold bind. specialize (Hm s Hs).
  destruct (m s) as [[a| |] s']; auto.
  apply (Hk a s' Hm).
Qed.

Lemma partial_get {B} (P : state -> Prop) (R : B -> state -> Prop) (k : state -> M B) :
  (forall s0, P s0 -> partial (fun s => s = s0) (k s0) R) ->
  partial P (bind get k) R.
Proof. intros Hk s Hs. unfold bind, get. apply (Hk s Hs s eq_refl). Qed.

Lemma partial_fix {A} (P : state -> Prop) (m : M A) (Q : A -> state -> Prop) :
  (forall s0, P s0 -> partial (fun s => s = s0) m Q) -> partial P m Q.
Proof. intros H s Hs. apply (H s Hs s eq_refl). Qed.

Lemma partial_loop (J Q : state -> Prop) body :
  partial J body (fun b s => if b : bool then J s else Q s) ->
  forall fuel, partial J (loop fuel body) (fun _ s => Q s).
Proof.
  intros Hbody fuel. induction fuel as [|fuel IH]; intros s HJ; simpl; [exact I|].
  unfold bind. specialize (Hbody s HJ).
  destruct (body s) as [[[|]| |] s']; auto.
  apply IH. exact Hbody.
Qed.

(** [getToken()] keeps what depends on the path, the stack and the heap
    only. *)
Lemma partial_getToken (X : state -> Prop) :
  (forall s s', same_store s s' -> X s -> X s') ->
  partial X getToken (fun _ s => X s).
Proof.
  intros HX s Hs. pose proof (getToken_frame s) as H.
  destruct (getToken s) as [[[]| |] s']; auto. apply (HX s s' H Hs).
Qed.

Lemma partial_parseCircular circularRefs parsePointer (P : state -> Prop) object :
  partial P (parseCircular circularRefs parsePointer object) (fun _ s => P s).
Proof.
  intros s Hs. pose proof (parseCircular_state circularRefs parsePointer object s) as H.
  destruct (parseCircular _ _ _ s) as [[v| |] s']; auto. simpl in H. subst. exact Hs.
Qed.

Lemma arraySet_end (a : list value) v : arraySet a (length a) v = a ++ [v].
Proof.
  unfold arraySet. destruct (decide (length a < length a)); [lia|].
  rewrite Nat.sub_diag. reflexivity.
Qed.

Lemma arraySet_inside (a : list value) i v :
  i < length a -> arraySet a i v = <[i := v]> a.
Proof. intros H. unfold arraySet. destruct (decide (i < length a)); [reflexivity|lia]. Qed.

Lemma arraySetLength_inside (a : list value) n :
  n <= length a -> arraySetLength a n = firstn n a.
Proof.
  intros H. unfold arraySetLength.
  replace (n - length a) with 0 by lia. simpl. apply app_nil_r.
Qed.

(** A state with the stack and the path of [s0] keeps them. *)
Lemma stack_kept_same s0 s :
  length (path s0) = length (stack s0) ->
  path s = path s0 -> stack s = stack s0 ->
  stack_kept s0 s.
Proof.
  intros Hlen Hp Hs. unfold stack_kept. rewrite Hp, Hs.
  splits; auto.
  - apply take_ge. lia.
  - apply take_ge. lia.
Qed.

(** Writing the key of the next value into the path. *)
Lemma entered_path s0 object s key :
  length (path s0) = length (stack s0) ->
  entered s0 object s ->
  inside s0 object (with_path (arraySet (path s) (length (stack s0)) key) s).
Proof.
  intros Hlen [(Hs & Hp & Ho & Hl) | [Hs Hp]]; unfold inside; simpl.
  - assert (Hn : length (stack s0) < length (stack s))
      by (apply lookup_lt_Some in Ho; exact Ho).
    rewrite arraySet_inside by lia. splits; auto.
    + rewrite take_insert_ge by lia. exact Hp.
    + rewrite length_insert. exact Hl.
  - rewrite Hp, Hs.
    replace (arraySet (path s0) (length (stack s0)) key) with (path s0 ++ [key])
      by (rewrite <- Hlen; symmetry; apply arraySet_end).
    splits.
    + apply take_app_length.
    + rewrite <- Hlen. apply take_app_length.
    + rewrite lookup_app_r by lia. rewrite Nat.sub_diag. reflexivity.
    + rewrite !length_app. simpl. lia.
Qed.

(** A value parsed inside a container leaves the container inside. *)
Lemma inside_value s0 object s s' :
  inside s0 object s -> stack_kept s s' -> inside s0 object s'.
Proof.
  intros (Hs & Hp & Ho & Hl) (Hl' & Hs' & Hp' & _). unfold inside.
  assert (Hn : length (stack s0) < length (stack s))
    by (apply lookup_lt_Some in Ho; exact Ho).
  splits; auto.
  - transitivity (firstn (length (stack s0)) (firstn (length (stack s)) (stack s'))).
    + rewrite take_take. f_equal. lia.
    + rewrite Hs'. exact Hs.
  - transitivity (firstn (length (stack s0)) (firstn (length (stack s)) (path s'))).
    + rewrite take_take. f_equal. lia.
    + rewrite Hp'. exact Hp.
  - rewrite <- Ho. rewrite <- Hs'. rewrite lookup_take_lt by lia. reflexivity.
Qed.

(** Closing a container in the ordinary way. *)
Lemma inside_closed s0 object s :
  length (path s0) = length (stack s0) ->
  inside s0 object s ->
  stack_kept s0
    (with_path (arraySetLength (path (with_stack (arraySetLength (stack s)
                                                    (length (stack s0))) s))
                               (length (stack s0)))
               (with_stack (arraySetLength (stack s) (length (stack s0))) s)).
Proof.
  intros Hlen (Hs & Hp & Ho & Hl).
  assert (Hn : length (stack s0) < length (stack s))
    by (apply lookup_lt_Some in Ho; exact Ho).
  apply stack_kept_same; [exact Hlen| |]; simpl.
  - rewrite arraySetLength_inside by lia. exact Hp.
  - rewrite arraySetLength_inside by lia. exact Hs.
Qed.

Lemma same_store_inside s0 object s s' :
  same_store s s' -> inside s0 object s -> inside s0 object s'.
Proof.
  unfold same_store, inside. intros (_ & Hp & Hs & _). rewrite Hp, Hs. auto.
Qed.

Section KeepsStack.

Variable circularRefs : bool.
Variable parsePointer : jsstring -> list jsstring.

(** [getToken()] from a state with the stack and the path of [s0]. *)
Lemma partial_getToken_same s0 :
  partial (fun s => path s = path s0 /\ stack s = stack s0) getToken
          (fun _ s => path s = path s0 /\ stack s = stack s0).
Proof.
  apply partial_getToken. unfold same_store.
  intros s s' (_ & Hp & Hs & _) [H1 H2]. split; congruence.
Qed.

Lemma partial_getToken_inside s0 object :
  partial (inside s0 object) getToken (fun _ s => inside s0 object s).
Proof. apply partial_getToken. intros s s'. apply same_store_inside. Qed.

(** [getToken(); return v;] keeps the stack. *)
Lemma keeps_stack_token (v : value) : keeps_stack (getToken ;; ret v).
Proof.
  intros s0 Hlen.
  apply partial_bind with (Q := fun _ s => path s = path s0 /\ stack s = stack s0).
  - eapply partial_conseq; [apply (partial_getToken_same s0)| |auto].
    intros s ->. auto.
  - intros _. apply partial_ret. intros s [Hp Hs]. apply stack_kept_same; auto.
Qed.

Lemma keeps_stack_parseString : keeps_stack parseString.
Proof.
  intros s0 Hlen. unfold parseString. apply partial_get. intros s ->.
  destruct (tokenType_eqb (tokenType s0) STRING);
    [apply (keeps_stack_token _ s0 Hlen)|].
  unfold parseNumber. apply partial_get. intros s ->.
  destruct (tokenType_eqb (tokenType s0) NUMBER);
    [apply (keeps_stack_token _ s0 Hlen)|].
  unfold parseSymbol. apply partial_get. intros s ->.
  destruct (tokenType_eqb (tokenType s0) SYMBOL).
  - destruct (str_eqb (token s0) (js "true")); [apply (keeps_stack_token _ s0 Hlen)|].
    destruct (str_eqb (token s0) (js "false")); [apply (keeps_stack_token _ s0 Hlen)|].
    destruct (str_eqb (token s0) (js "null")); [apply (keeps_stack_token _ s0 Hlen)|].
    apply partial_throw.
  - unfold parseEnd. apply partial_get. intros s ->.
    destruct (str_eqb (token s0) []); apply partial_throw.
Qed.

(** The end of a round of a container: the separator, or the end of the
    loop. *)
Lemma partial_separator s0 object :
  partial (inside s0 object)
          (s <- get ;;
           if negb (isDelimiter (js ",") s) then ret false
           else getToken ;; ret true)
          (fun b s => if b : bool then entered s0 object s else inside s0 object s).
Proof.
  apply partial_get. intros s1 H1.
  destruct (negb (isDelimiter (js ",") s1)).
  - apply partial_ret. intros s ->. exact H1.
  - apply partial_bind with (Q := fun _ s => inside s0 object s).
    + eapply partial_conseq; [apply (partial_getToken_inside s0 object)| |auto].
      intros s ->. exact H1.
    + intros _. apply partial_ret. intros s H. left. exact H.
Qed.

Lemma keeps_stack_parseArray fuel rec :
  keeps_stack rec -> keeps_stack (parseArray fuel rec).
Proof.
  intros Hrec s0 Hlen. unfold parseArray. apply partial_get. intros s ->.
  destruct (isDelimiter (js "[") s0); [|apply (keeps_stack_parseString s0 Hlen)].
  apply partial_bind with (Q := fun _ s => path s = path s0 /\ stack s = stack s0).
  { eapply partial_conseq; [apply (partial_getToken_same s0)| |auto]. intros s ->. auto. }
  intros _.
  apply partial_bind with (Q := fun _ s => path s = path s0 /\ stack s = stack s0).
  { intros s H. exact H. }
  intros array. apply partial_get. intros s1 [Hp1 Hs1].
  destruct (isDelimiter (js "]") s1).
  { eapply partial_conseq; [apply (keeps_stack_token array s1)| |].
    - congruence.
    - intros s ->. reflexivity.
    - simpl. unfold stack_kept. rewrite Hp1, Hs1. auto. }
  apply partial_bind with (Q := fun _ s => entered s0 array s).
  { apply partial_modify. intros s ->. right. simpl.
    rewrite Hs1, arraySet_end. auto. }
  intros _.
  apply partial_bind with (Q := fun _ s => inside s0 array s).
  { rewrite Hs1. apply partial_loop.
    apply partial_bind with (Q := fun _ s => inside s0 array s).
    { apply partial_modify. intros s H. apply entered_path; auto. }
    intros _.
    apply partial_bind with (Q := fun _ s => inside s0 array s).
    { apply partial_fix. intros sa Ha.
      eapply partial_conseq; [apply (Hrec sa)| |].
      - destruct Ha as (_ & _ & _ & H). exact H.
      - auto.
      - simpl. intros _ s H. eapply inside_value; eauto. }
    intros item.
    apply partial_bind with (Q := fun _ s => inside s0 array s).
    { apply partial_modify. intros s H.
      destruct array; try exact H.
      destruct (heap s !! l) as [[props|items]|]; exact H. }
    intros _. apply partial_separator. }
  intros _. apply partial_get. intros s2 H2.
  destruct (negb (isDelimiter (js "]") s2)); [apply partial_throw|].
  apply partial_bind with (Q := fun _ s => inside s0 array s).
  { eapply partial_conseq; [apply (partial_getToken_inside s0 array)| |auto].
    intros s ->. exact H2. }
  intros _. rewrite Hs1.
  apply partial_bind with
    (Q := fun _ s => exists s', inside s0 array s'
                       /\ s = with_stack (arraySetLength (stack s') (length (stack s0))) s').
  { apply partial_modify. intros s H. exists s. auto. }
  intros _.
  apply partial_bind with (Q := fun _ s => stack_kept s0 s).
  { apply partial_modify. intros s (s' & H & ->). apply (inside_closed s0 array); auto. }
  intros _. apply partial_ret. auto.
Qed.

Lemma keeps_stack_parseObject fuel :
  keeps_stack (parseObject circularRefs parsePointer fuel).
Proof.
  induction fuel as [|fuel IH]; intros s0 Hlen; [intros s _; exact I|].
  simpl. apply partial_get. intros s ->.
  destruct (isDelimiter (js "{") s0);
    [|apply (keeps_stack_parseArray fuel _ IH s0 Hlen)].
  apply partial_bind with (Q := fun _ s => path s = path s0 /\ stack s = stack s0).
  { eapply partial_conseq; [apply (partial_getToken_same s0)| |auto]. intros s ->. auto. }
  intros _.
  apply partial_bind with (Q := fun _ s => path s = path s0 /\ stack s = stack s0).
  { intros s H. exact H. }
  intros object. apply partial_get. intros s1 [Hp1 Hs1].
  destruct (isDelimiter (js "}") s1).
  { eapply partial_conseq; [apply (keeps_stack_token object s1)| |].
    - congruence.
    - intros s ->. reflexivity.
    - simpl. unfold stack_kept. rewrite Hp1, Hs1. auto. }
  apply partial_bind with (Q := fun _ s => entered s0 object s).
  { apply partial_modify. intros s ->. right. simpl.
    rewrite Hs1, arraySet_end. auto. }
  intros _.
  apply partial_bind with (Q := fun _ s => inside s0 object s).
  { rewrite Hs1. apply partial_loop.
    apply partial_get. intros sa Ha.
    destruct (negb (tokenType_eqb (tokenType sa) STRING)); [apply partial_throw|].
    apply partial_bind with (Q := fun _ s => entered s0 object s).
    { eapply partial_conseq; [apply (partial_getToken (entered s0 object))| |auto].
      - intros s s' Hsame [H|[H1 H2]]; [left; eapply same_store_inside; eauto|].
        right. destruct Hsame as (_ & Hp & Hs & _). split; congruence.
      - intros s ->. exact Ha. }
    intros _. apply partial_get. intros sb Hb.
    destruct (negb (isDelimiter (js ":") sb)); [apply partial_throw|].
    apply partial_bind with (Q := fun _ s => entered s0 object s).
    { eapply partial_conseq; [apply (partial_getToken (entered s0 object))| |auto].
      - intros s s' Hsame [H|[H1 H2]]; [left; eapply same_store_inside; eauto|].
        right. destruct Hsame as (_ & Hp & Hs & _). split; congruence.
      - intros s ->. exact Hb. }
    intros _.
    apply partial_bind with (Q := fun _ s => inside s0 object s).
    { apply partial_modify. intros s H. apply entered_path; auto. }
    intros _.
    apply partial_bind with (Q := fun _ s => inside s0 object s).
    { apply partial_fix. intros sc Hc.
      eapply partial_conseq; [apply (IH sc)| |].
      - destruct Hc as (_ & _ & _ & H). exact H.
      - auto.
      - simpl. intros _ s H. eapply inside_value; eauto. }
    intros v.
    apply partial_bind with (Q := fun _ s => inside s0 object s).
    { apply partial_modify. intros s H.
      destruct object; try exact H.
      destruct (heap s !! l) as [[props|items]|]; exact H. }
    intros _. apply partial_separator. }
  intros _. apply partial_get. intros s2 H2.
  destruct (negb (isDelimiter (js "}") s2)); [apply partial_throw|].
  apply partial_bind with (Q := fun _ s => inside s0 object s).
  { eapply partial_conseq; [apply (partial_getToken_inside s0 object)| |auto].
    intros s ->. exact H2. }
  intros _. apply partial_get. intros s3 H3.
  destruct (isCircular s3 object) eqn:Emarker.
  - (* a marker: its entry stays *)
    eapply partial_conseq;
      [apply (partial_parseCircular circularRefs parsePointer (fun s => s = s3))|auto|].
    simpl. intros _ s ->. destruct H3 as (Hs & Hp & Ho & Hl).
    unfold stack_kept. splits; auto. right. exists object. auto.
  - rewrite Hs1.
    apply partial_bind with
      (Q := fun _ s => exists s', inside s0 object s'
                         /\ s = with_stack (arraySetLength (stack s') (length (stack s0))) s').
    { apply partial_modify. intros s ->. exists s3. auto. }
    intros _.
    apply partial_bind with (Q := fun _ s => stack_kept s0 s).
    { apply partial_modify. intros s (s' & H & ->). apply (inside_closed s0 object); auto. }
    intros _. apply partial_ret. auto.
Qed.

End KeepsStack.

(* ================================================================== *)
(** ** Texts the tokenizer rejects *)
(* ================================================================== *)

Lemma bind_throw {A B} (m : M A) (k : A -> M B) s e s' :
  m s = (Throw e, s') -> bind m k s = (Throw e, s').
Proof. unfold bind. intros ->. reflexivity. Qed.

(** The first token of [parse] throws: so does [parse]. *)
Lemma parse_first_token circularRefs parsePointer Reviver revive text reviver s0 e s1 :
  getToken (cursorAt text 0 [] NULL [] [] []) = (Throw e, s1) ->
  parse circularRefs parsePointer Reviver revive text reviver s0 = (Throw e, s1).
Proof.
  intros H. rewrite parse_initialize. apply bind_throw. exact H.
Qed.

Lemma isUnknown_class x :
  isUnknown [x] = true ->
  isWhitespace [x] = false /\ DELIMITERS [x] = false
  /\ isDigit [x] || str_eqb [x] (js "-") = false /\ str_eqb [x] [dquote] = false
  /\ isAlpha [x] = false.
Proof.
  unfold isUnknown. intros H. apply negb_true_iff in H.
  apply orb_false_iff in H as [H Halpha]. apply orb_false_iff in H as [H Hq].
  apply orb_false_iff in H as [H Hminus]. apply orb_false_iff in H as [H Hdigit].
  apply orb_false_iff in H as [Hws Hdel].
  rewrite Hdigit, Hminus. splits; auto.
Qed.

(** The tokenizer at a character that starts no token: the rest of the
    text, whitespace included, becomes the token of the error. *)
Lemma getToken_unknown text i x rest pa st h :
  skipn i text = x :: rest ->
  isUnknown [x] = true ->
  fst (getToken (cursorAt text i [] NULL pa st h)) =
  Throw (SyntaxError (js "Syntax error in part " ++ [dquote] ++ x :: rest ++ [dquote])
                     (Z.of_nat i)).
Proof.
  intros Hrest Hx.
  destruct (isUnknown_class x Hx) as (Hws & Hdel & Hnum & Hq & Halpha).
  assert (Hlen : length text = i + length (x :: rest)).
  { rewrite <- Hrest, length_drop.
    assert (i < length text); [|lia].
    destruct (decide (i < length text)); auto.
    rewrite drop_ge in Hrest by lia. discriminate. }
  assert (Hw : firstn (length (x :: rest)) (skipn i text) = x :: rest).
  { rewrite Hrest. apply firstn_all. }
  pose proof Hw as Hw'. simpl length in Hw'. apply window_cons in Hw' as [Hi _].
  pose proof (charAt_lookup _ _ _ Hi) as Hc.
  rewrite getToken_dispatch by (rewrite Hc; exact Hws).
  rewrite Hc, Hdel, Hnum, Hq, Halpha. cbv beta iota.
  rewrite bind_modify.
  change (with_tokenType UNKNOWN (cursorAt text i [] NULL pa st h))
    with (cursorAt text i [] UNKNOWN pa st h).
  rewrite (bind_val _ _ _ tt
             (cursorAt text (i + length (x :: rest)) ([] ++ x :: rest) UNKNOWN pa st h)).
  2: { unfold scan. rewrite bind_get.
       change (jsonText (cursorAt text i [] UNKNOWN pa st h)) with text.
       apply (while_accept_run (fun c => negb (str_eqb c [])) (x :: rest)
                text i [] UNKNOWN pa st h (length text));
         [exact Hw | intros y _; reflexivity
         | rewrite charAt_end by lia; reflexivity | lia]. }
  rewrite bind_get. unfold throw, createSyntaxError, cursorAt, fst, index, token.
  do 2 f_equal. rewrite app_nil_l. lia.
Qed.

Section Rejected.

Variable circularRefs : bool.
Variable parsePointer : jsstring -> list jsstring.
Variable Reviver : Type.
Variable revive : value -> Reviver -> list container -> (value + exn) * list container.

(** X5: a text whose first character behind the leading whitespace starts
    no token (it is no delimiter, digit, minus sign, double quote, letter
    or underscore) is rejected with the error "Syntax error in part" that
    quotes the whole rest of the text from that character, whitespace and
    well-formed pieces included, at the offset of that character; this
    holds with or without a reviver. *)
Theorem parse_unknown_character w1 x rest reviver s0 :
  whitespace w1 ->
  isUnknown [x] = true ->
  fst (parse circularRefs parsePointer Reviver revive (w1 ++ x :: rest) reviver s0) =
  Throw (SyntaxError (js "Syntax error in part " ++ [dquote] ++ x :: rest ++ [dquote])
                     (Z.of_nat (length w1))).
Proof.
  intros Hw1 Hx.
  pose proof (getToken_unknown (w1 ++ x :: rest) (length w1) x rest [] [] []
                (drop_app_length w1 (x :: rest)) Hx) as Hrun.
  rewrite <- (getToken_whitespace (w1 ++ x :: rest) 0 w1 [] NULL) in Hrun.
  - destruct (getToken (cursorAt (w1 ++ x :: rest) 0 [] NULL [] [] [])) as [o s1] eqn:E.
    simpl in Hrun. subst o.
    rewrite (parse_first_token _ _ _ _ _ _ _ _ _ E). reflexivity.
  - exact (window_app [] w1 (x :: rest)).
  - exact Hw1.
  - simpl. rewrite charAt_app_r. apply (isUnknown_class x Hx).
Qed.

End Rejected.

(* ================================================================== *)
(** ** The stack after a value *)
(* ================================================================== *)

Section StackDiscipline.

Variable circularRefs : bool.
Variable parsePointer : jsstring -> list jsstring.
Variable Reviver : Type.
Variable revive : value -> Reviver -> list container -> (value + exn) * list container.

(** X7: the stack discipline of the descent, on the calls that assign no
    member named [__proto__] (the final heap is [plain]). From a state
    where [path] and [stack] have the same length, such a call of
    [parseObject] that returns leaves them with the same length again and
    leaves the entries that were there as they were. Above them [stack]
    either holds nothing, or holds at the first new index an object that
    [isCircular] recognises as a marker: the early return of a marker is
    the only way an entry stays. (A member named [__proto__] whose value
    is a marker makes the object that receives it pass [isCircular] through
    its prototype: such calls are outside the statement.) *)
Theorem parseObject_stack fuel s0 v s' :
  length (path s0) = length (stack s0) ->
  parseObject circularRefs parsePointer fuel s0 = (Val v, s') ->
  plain (heap s') = true ->
  length (path s') = length (stack s')
  /\ firstn (length (stack s0)) (stack s') = stack s0
  /\ firstn (length (stack s0)) (path s') = path s0
  /\ (length (stack s') = length (stack s0)
      \/ exists object,
           stack s' !! length (stack s0) = Some object /\ isCircular s' object = true).
Proof.
  intros Hlen Hrun _.
  pose proof (keeps_stack_parseObject circularRefs parsePointer fuel s0 Hlen s0 eq_refl) as H.
  rewrite Hrun in H. exact H.
Qed.

(** X8: when [parse] returns from a text in which no member is named
    [__proto__] (the heap of the call is [plain]), [path] and [stack] have
    the same length, and [stack] is empty unless its first entry is a
    marker. *)
Theorem parse_stack text s0 v s' :
  parse circularRefs parsePointer Reviver revive text None s0 = (Val v, s') ->
  plain (heap s') = true ->
  length (path s') = length (stack s')
  /\ (stack s' = []
      \/ exists object, stack s' !! 0 = Some object /\ isCircular s' object = true).
Proof.
  rewrite parse_initialize.
  set (init := mkState text 0 (charAt text 0) [] NULL [] [] []).
  intros Hrun _.
  assert (H : partial (fun s => s = init)
                (getToken ;;
                 json <- parseObject circularRefs parsePointer (parseFuel text) ;;
                 s <- get ;;
                 if negb (str_eqb (token s) [])
                 then throw (createSyntaxError (js "Unexpected characters") None)
                 else ret json)
                (fun _ s => stack_kept init s)).
  { apply partial_bind with (Q := fun _ s => path s = path init /\ stack s = stack init).
    { eapply partial_conseq; [apply (partial_getToken_same init)| |auto].
      intros s ->. auto. }
    intros _.
    apply partial_bind with (Q := fun _ s => stack_kept init s).
    { apply partial_fix. intros s1 [Hp Hs].
      eapply partial_conseq;
        [apply (keeps_stack_parseObject circularRefs parsePointer (parseFuel text) s1)| |].
      - rewrite Hp, Hs. reflexivity.
      - auto.
      - simpl. unfold stack_kept. rewrite Hp, Hs. auto. }
    intros json. apply partial_get. intros s2 H2.
    destruct (negb (str_eqb (token s2) [])); [apply partial_throw|].
    apply partial_ret. intros s ->. exact H2. }
  specialize (H init eq_refl). rewrite Hrun in H.
  destruct H as (Hl & _ & _ & Hend). split; [exact Hl|].
  destruct Hend as [Hend|Hend]; [left|right; exact Hend].
  destruct (stack s'); [reflexivity|discriminate Hend].
Qed.

End StackDiscipline.

Lemma parseObject_stack_witness :
  exists s',
    parseObject true pointerSegments 9
      (mkState (json "{'$ref':'#'},1]") 1 [dquote] (js "{") DELIMITER
               [VString (js "0")] [VRef 0] [CArray []]) =
    (Val (VRef 0), s')
    /\ plain (heap s') = true
    /\ length (path s') = length (stack s')
    /\ firstn 1 (stack s') = [VRef 0]
    /\ firstn 1 (path s') = [VString (js "0")]
    /\ (length (stack s') = 1
        \/ exists object, stack s' !! 1 = Some object /\ isCircular s' object = true).
Proof.
  eexists. split; [vm_compute; reflexivity|].
  split; [vm_compute; reflexivity|].
  apply (parseObject_stack true pointerSegments 9
           (mkState (json "{'$ref':'#'},1]") 1 [dquote] (js "{") DELIMITER
                    [VString (js "0")] [VRef 0] [CArray []]) (VRef 0)).
  - reflexivity.
  - vm_compute. reflexivity.
  - vm_compute. reflexivity.
Defined.

Lemma parse_stack_witness :
  exists s',
    parse false pointerSegments unit (fun v _ h => (inl v, h))
          (json "[{'a':[1,{}]},{'$ref':'#'}]") None initialState = (Val (VRef 0), s')
    /\ plain (heap s') = true
    /\ length (path s') = length (stack s')
    /\ (stack s' = []
        \/ exists object, stack s' !! 0 = Some object /\ isCircular s' object = true).
Proof.
  eexists. split; [vm_compute; reflexivity|].
  split; [vm_compute; reflexivity|].
  apply (parse_stack false pointerSegments unit (fun v _ h => (inl v, h))
           (json "[{'a':[1,{}]},{'$ref':'#'}]") initialState (VRef 0)).
  - vm_compute. reflexivity.
  - vm_compute. reflexivity.
Defined.

(* ================================================================== *)
(** ** The heap of the result *)
(* ================================================================== *)

Lemma tree_heap_alloc h k :
  tree_heap h -> (forall v, ~ holds k v) -> tree_heap (h ++ [k]).
Proof.
  intros Hh Hk l k0 l' Hl Hv. rewrite length_app. simpl.
  destruct (decide (l < length h)) as [Hlt|Hge].
  - rewrite lookup_app_l in Hl by exact Hlt.
    specialize (Hh l k0 l' Hl Hv). lia.
  - rewrite lookup_app_r in Hl by lia.
    destruct (l - length h) as [|n]; [|destruct n; discriminate Hl].
    inversion Hl. subst k0. destruct (Hk _ Hv).
Qed.

Lemma tree_heap_insert h n k k' :
  tree_heap h -> h !! n = Some k ->
  (forall l', holds k' (VRef l') -> holds k (VRef l') \/ n < l' < length h) ->
  tree_heap (<[n := k']> h).
Proof.
  intros Hh Hn Hk l k0 l' Hl Hv. rewrite length_insert.
  destruct (decide (l = n)) as [->|Hne].
  - rewrite list_lookup_insert_eq in Hl by (apply lookup_lt_Some in Hn; exact Hn).
    inversion Hl. subst k0.
    destruct (Hk l' Hv) as [Hold|Hnew]; [exact (Hh n k l' Hn Hold)|exact Hnew].
  - rewrite list_lookup_insert_ne in Hl by congruence. exact (Hh l k0 l' Hl Hv).
Qed.

Lemma grown_scalar s0 s v :
  tree_heap (heap s0) -> heap s = heap s0 -> (forall l, v <> VRef l) -> grown s0 v s.
Proof.
  intros Hh Hs Hv. unfold grown. rewrite Hs. splits; auto.
  - apply firstn_all.
  - intros l E. destruct (Hv l E).
Qed.

Lemma building_alloc s0 s k :
  tree_heap (heap s0) -> (forall v, ~ holds k v) ->
  heap s = heap s0 ++ [k] -> building s0 s.
Proof.
  intros Hh Hk Hs. unfold building. rewrite Hs. splits.
  - apply take_app_length.
  - apply tree_heap_alloc; auto.
  - rewrite length_app. simpl. lia.
Qed.

Lemma building_grown s0 s s' :
  building s0 s -> heap s' = heap s -> grown s0 (VRef (length (heap s0))) s'.
Proof.
  intros (Ht & Hh & Hl) Hs. unfold grown. rewrite Hs. splits; auto.
  intros l E. inversion E. lia.
Qed.

Lemma building_same s0 s s' : building s0 s -> heap s' = heap s -> building s0 s'.
Proof. unfold building. intros H ->. exact H. Qed.

(** A nested value keeps the container under construction, and is created
    after it. *)
Lemma building_value s0 s v s' :
  building s0 s -> grown s v s' ->
  building s0 s' /\ forall l, v = VRef l -> length (heap s0) < l < length (heap s').
Proof.
  intros (Ht & Hh & Hl) (Ht' & Hh' & Hv).
  assert (Hle : length (heap s) <= length (heap s')).
  { assert (E : length (firstn (length (heap s)) (heap s')) = length (heap s))
      by (rewrite Ht'; reflexivity).
    rewrite length_take in E. lia. }
  split; [unfold building; splits; auto|].
  - transitivity (firstn (length (heap s0)) (firstn (length (heap s)) (heap s'))).
    + rewrite take_take. f_equal. lia.
    + rewrite Ht'. exact Ht.
  - lia.
  - intros l E. specialize (Hv l E). lia.
Qed.

Lemma building_push s0 s item :
  building s0 s ->
  (forall l, item = VRef l -> length (heap s0) < l < length (heap s)) ->
  building s0
    match heap s !! length (heap s0) with
    | Some (CArray items) =>
        with_heap (<[length (heap s0) := CArray (items ++ [item])]> (heap s)) s
    | _ => s
    end.
Proof.
  intros (Ht & Hh & Hl) Hv.
  destruct (heap s !! length (heap s0)) as [[props|items]|] eqn:E;
    try (unfold building; splits; assumption).
  unfold building. simpl. splits.
  - rewrite take_insert_ge by lia. exact Ht.
  - apply (tree_heap_insert _ _ _ _ Hh E). simpl. intros l' Hin.
    apply elem_of_app in Hin as [Hin|Hin]; [left; exact Hin|right].
    apply list_elem_of_singleton in Hin. symmetry in Hin. exact (Hv l' Hin).
  - rewrite length_insert. exact Hl.
Qed.

Lemma building_setProperty s0 s key v :
  building s0 s ->
  (forall l, v = VRef l -> length (heap s0) < l < length (heap s)) ->
  building s0
    match heap s !! length (heap s0) with
    | Some (CObject props) =>
        with_heap (<[length (heap s0) := CObject (<[key := v]> props)]> (heap s)) s
    | _ => s
    end.
Proof.
  intros (Ht & Hh & Hl) Hv.
  destruct (heap s !! length (heap s0)) as [[props|items]|] eqn:E;
    try (unfold building; splits; assumption).
  unfold building. simpl. splits.
  - rewrite take_insert_ge by lia. exact Ht.
  - apply (tree_heap_insert _ _ _ _ Hh E). simpl. intros l' [key' Hin].
    apply lookup_insert_Some in Hin as [[_ Hin]|[_ Hin]].
    + right. exact (Hv l' Hin).
    + left. exists key'. exact Hin.
  - rewrite length_insert. exact Hl.
Qed.

Lemma partial_getToken_heap (X : list container -> Prop) :
  partial (fun s => X (heap s)) getToken (fun _ s => X (heap s)).
Proof.
  apply (partial_getToken (fun s => X (heap s))).
  intros s s' (_ & _ & _ & Hh) H. rewrite Hh. exact H.
Qed.

Lemma partial_getToken_building s0 :
  partial (building s0) getToken (fun _ s => building s0 s).
Proof. exact (partial_getToken_heap (fun h => firstn (length (heap s0)) h = heap s0
                                               /\ tree_heap h
                                               /\ length (heap s0) < length h)). Qed.

Section Grows.

Variable parsePointer : jsstring -> list jsstring.

Lemma grows_token (v : value) : (forall l, v <> VRef l) -> grows (getToken ;; ret v).
Proof.
  intros Hv s0 Hh.
  apply partial_bind with (Q := fun _ s => heap s = heap s0).
  - eapply partial_conseq; [apply (partial_getToken_heap (fun h => h = heap s0))| |auto].
    intros s ->. reflexivity.
  - intros _. apply partial_ret. intros s Hs. apply grown_scalar; auto.
Qed.

Lemma grows_parseString : grows parseString.
Proof.
  intros s0 Hh. unfold parseString. apply partial_get. intros s ->.
  destruct (tokenType_eqb (tokenType s0) STRING);
    [refine (grows_token _ _ s0 Hh); intros l; discriminate|].
  unfold parseNumber. apply partial_get. intros s ->.
  destruct (tokenType_eqb (tokenType s0) NUMBER);
    [refine (grows_token _ _ s0 Hh); intros l; discriminate|].
  unfold parseSymbol. apply partial_get. intros s ->.
  destruct (tokenType_eqb (tokenType s0) SYMBOL).
  - destruct (str_eqb (token s0) (js "true"));
      [refine (grows_token _ _ s0 Hh); intros l; discriminate|].
    destruct (str_eqb (token s0) (js "false"));
      [refine (grows_token _ _ s0 Hh); intros l; discriminate|].
    destruct (str_eqb (token s0) (js "null"));
      [refine (grows_token _ _ s0 Hh); intros l; discriminate|].
    apply partial_throw.
  - unfold parseEnd. apply partial_get. intros s ->.
    destruct (str_eqb (token s0) []); apply partial_throw.
Qed.

(** [getToken(); return container;] at the end of a container. *)
Lemma partial_close s0 :
  partial (building s0) (getToken ;; ret (VRef (length (heap s0)))) (grown s0).
Proof.
  apply partial_bind with (Q := fun _ s => building s0 s).
  - apply partial_getToken_building.
  - intros _. apply partial_ret. intros s H. apply (building_grown s0 s s); auto.
Qed.

Lemma partial_separator_building s0 :
  partial (building s0)
          (s <- get ;;
           if negb (isDelimiter (js ",") s) then ret false
           else getToken ;; ret true)
          (fun b s => if b : bool then building s0 s else building s0 s).
Proof.
  apply partial_get. intros s1 H1.
  destruct (negb (isDelimiter (js ",") s1)).
  - apply partial_ret. intros s ->. exact H1.
  - apply partial_bind with (Q := fun _ s => building s0 s).
    + eapply partial_conseq; [apply (partial_getToken_building s0)| |auto].
      intros s ->. exact H1.
    + intros _. apply partial_ret. auto.
Qed.

(** The state behind the opening delimiter and the new container. *)
Lemma partial_open s0 k :
  tree_heap (heap s0) -> (forall v, ~ holds k v) ->
  partial (fun s => s = s0) (getToken ;; alloc k)
          (fun a s => a = VRef (length (heap s0)) /\ building s0 s).
Proof.
  intros Hh Hk.
  apply partial_bind with (Q := fun _ s => heap s = heap s0).
  - eapply partial_conseq; [apply (partial_getToken_heap (fun h => h = heap s0))| |auto].
    intros s ->. reflexivity.
  - intros _ s Hs. simpl. rewrite Hs. split; [reflexivity|].
    apply (building_alloc s0 _ k); [exact Hh|exact Hk|reflexivity].
Qed.

Lemma bind_assoc {A B C} (m : M A) (k : A -> M B) (k' : B -> M C) :
  forall s, bind (bind m k) k' s = bind m (fun a => bind (k a) k') s.
Proof.
  intros s. unfold bind. destruct (m s) as [[a| |] s1]; try reflexivity.
Qed.

Lemma partial_ext {A} (P : state -> Prop) (m m' : M A) Q :
  (forall s, m s = m' s) -> partial P m Q -> partial P m' Q.
Proof. intros E H s Hs. rewrite <- E. apply H. exact Hs. Qed.

Lemma grows_parseArray fuel rec : grows rec -> grows (parseArray fuel rec).
Proof.
  intros Hrec s0 Hh. unfold parseArray. apply partial_get. intros s ->.
  destruct (isDelimiter (js "[") s0); [|apply (grows_parseString s0 Hh)].
  eapply partial_ext; [intros s; apply bind_assoc|].
  apply partial_bind with (Q := fun a s => a = VRef (length (heap s0)) /\ building s0 s).
  { apply partial_open; auto. simpl. intros v Hv. inversion Hv. }
  intros array. apply partial_fix. intros s1 [-> H1]. apply partial_get. intros s ->.
  destruct (isDelimiter (js "]") s1).
  { eapply partial_conseq; [apply (partial_close s0)| |auto]. intros s ->. exact H1. }
  apply partial_bind with (Q := fun _ s => building s0 s).
  { apply partial_modify. intros s ->. exact H1. }
  intros _.
  apply partial_bind with (Q := fun _ s => building s0 s).
  { apply partial_loop.
    apply partial_bind with (Q := fun _ s => building s0 s).
    { apply partial_modify. intros s H. exact H. }
    intros _.
    apply partial_bind with
      (Q := fun v s => building s0 s
                       /\ forall l, v = VRef l -> length (heap s0) < l < length (heap s)).
    { apply partial_fix. intros sa Ha.
      eapply partial_conseq; [apply (Hrec sa)| |].
      - destruct Ha as (_ & H & _). exact H.
      - auto.
      - simpl. intros v s H. eapply building_value; eauto. }
    intros item.
    apply partial_bind with (Q := fun _ s => building s0 s).
    { apply partial_modify. intros s [H Hv]. apply building_push; auto. }
    intros _. apply partial_separator_building. }
  intros _. apply partial_get. intros s2 H2.
  destruct (negb (isDelimiter (js "]") s2)); [apply partial_throw|].
  apply partial_bind with (Q := fun _ s => building s0 s).
  { eapply partial_conseq; [apply (partial_getToken_building s0)| |auto].
    intros s ->. exact H2. }
  intros _.
  apply partial_bind with (Q := fun _ s => building s0 s).
  { apply partial_modify. intros s H. exact H. }
  intros _.
  apply partial_bind with (Q := fun _ s => building s0 s).
  { apply partial_modify. intros s H. exact H. }
  intros _. apply partial_ret. intros s H. apply (building_grown s0 s s); auto.
Qed.

Lemma grows_parseObject fuel : grows (parseObject false parsePointer fuel).
Proof.
  induction fuel as [|fuel IH]; intros s0 Hh; [intros s _; exact I|].
  simpl. apply partial_get. intros s ->.
  destruct (isDelimiter (js "{") s0); [|apply (grows_parseArray fuel _ IH s0 Hh)].
  eapply partial_ext; [intros s; apply bind_assoc|].
  apply partial_bind with (Q := fun a s => a = VRef (length (heap s0)) /\ building s0 s).
  { apply partial_open; auto. simpl. intros v [key Hv]. rewrite lookup_empty in Hv.
    discriminate Hv. }
  intros object. apply partial_fix. intros s1 [-> H1]. apply partial_get. intros s ->.
  destruct (isDelimiter (js "}") s1).
  { eapply partial_conseq; [apply (partial_close s0)| |auto]. intros s ->. exact H1. }
  apply partial_bind with (Q := fun _ s => building s0 s).
  { apply partial_modify. intros s ->. exact H1. }
  intros _.
  apply partial_bind with (Q := fun _ s => building s0 s).
  { apply partial_loop.
    apply partial_get. intros sa Ha.
    destruct (negb (tokenType_eqb (tokenType sa) STRING)); [apply partial_throw|].
    apply partial_bind with (Q := fun _ s => building s0 s).
    { eapply partial_conseq; [apply (partial_getToken_building s0)| |auto].
      intros s ->. exact Ha. }
    intros _. apply partial_get. intros sb Hb.
    destruct (negb (isDelimiter (js ":") sb)); [apply partial_throw|].
    apply partial_bind with (Q := fun _ s => building s0 s).
    { eapply partial_conseq; [apply (partial_getToken_building s0)| |auto].
      intros s ->. exact Hb. }
    intros _.
    apply partial_bind with (Q := fun _ s => building s0 s).
    { apply partial_modify. intros s H. exact H. }
    intros _.
    apply partial_bind with
      (Q := fun v s => building s0 s
                       /\ forall l, v = VRef l -> length (heap s0) < l < length (heap s)).
    { apply partial_fix. intros sc Hc.
      eapply partial_conseq; [apply (IH sc)| |].
      - destruct Hc as (_ & H & _). exact H.
      - auto.
      - simpl. intros v s H. eapply building_value; eauto. }
    intros v.
    apply partial_bind with (Q := fun _ s => building s0 s).
    { apply partial_modify. intros s [H Hv]. apply building_setProperty; auto. }
    intros _. apply partial_separator_building. }
  intros _. apply partial_get. intros s2 H2.
  destruct (negb (isDelimiter (js "}") s2)); [apply partial_throw|].
  apply partial_bind with (Q := fun _ s => building s0 s).
  { eapply partial_conseq; [apply (partial_getToken_building s0)| |auto].
    intros s ->. exact H2. }
  intros _. apply partial_get. intros s3 H3.
  destruct (isCircular s3 (VRef (length (heap s0)))).
  - (* a marker, returned as it is *)
    apply partial_ret. intros s ->. apply (building_grown s0 s3 s3); auto.
  - apply partial_bind with (Q := fun _ s => building s0 s).
    { apply partial_modify. intros s ->. exact H3. }
    intros _.
    apply partial_bind with (Q := fun _ s => building s0 s).
    { apply partial_modify. intros s H. exact H. }
    intros _. apply partial_ret. intros s H. apply (building_grown s0 s s); auto.
Qed.

End Grows.

Section Tree.

Variable parsePointer : jsstring -> list jsstring.
Variable Reviver : Type.
Variable revive : value -> Reviver -> list container -> (value + exn) * list container.

(** X9: with the resolution of circular references disabled the result
    of [parse] is a tree of new containers: when [parse] returns, every
    container of the heap holds only containers that were created after
    it, so that no container holds itself or can be reached from itself,
    and the result, when it is a container, is one of the heap. *)
Theorem parse_tree text s0 v s' :
  parse false parsePointer Reviver revive text None s0 = (Val v, s') ->
  tree_heap (heap s')
  /\ (forall l k, heap s' !! l = Some k -> ~ holds k (VRef l))
  /\ (forall l, v = VRef l -> l < length (heap s')).
Proof.
  rewrite parse_initialize.
  set (init := mkState text 0 (charAt text 0) [] NULL [] [] []).
  intros Hrun.
  assert (Hinit : tree_heap (heap init)) by (intros l k l' Hl; discriminate Hl).
  assert (H : partial (fun s => s = init)
                (getToken ;;
                 json <- parseObject false parsePointer (parseFuel text) ;;
                 s <- get ;;
                 if negb (str_eqb (token s) [])
                 then throw (createSyntaxError (js "Unexpected characters") None)
                 else ret json)
                (grown init)).
  { apply partial_bind with (Q := fun _ s => heap s = heap init).
    { eapply partial_conseq;
        [apply (partial_getToken_heap (fun h => h = heap init))| |auto].
      intros s ->. reflexivity. }
    intros _.
    apply partial_bind with (Q := grown init).
    { apply partial_fix. intros s1 Hs1.
      eapply partial_conseq;
        [apply (grows_parseObject parsePointer (parseFuel text) s1)| |].
      - rewrite Hs1. exact Hinit.
      - auto.
      - simpl. unfold grown. rewrite Hs1. auto. }
    intros json. apply partial_get. intros s2 H2.
    destruct (negb (str_eqb (token s2) [])); [apply partial_throw|].
    apply partial_ret. intros s ->. exact H2. }
  specialize (H init eq_refl). rewrite Hrun in H.
  destruct H as (_ & Htree & Hv). splits.
  - exact Htree.
  - intros l k Hl Hk. specialize (Htree l k l Hl Hk). lia.
  - intros l E. apply (Hv l E).
Qed.

End Tree.

Lemma parse_tree_witness :
  exists s',
    parse false pointerSegments unit (fun v _ h => (inl v, h))
          (json "{'a':[1,{'$ref':'#'}],'b':{}}") None initialState = (Val (VRef 0), s')
    /\ tree_heap (heap s')
    /\ (forall l k, heap s' !! l = Some k -> ~ holds k (VRef l))
    /\ (forall l, VRef 0 = VRef l -> l < length (heap s')).
Proof.
  eexists. split; [vm_compute; reflexivity|].
  apply (parse_tree pointerSegments unit (fun v _ h => (inl v, h))
           (json "{'a':[1,{'$ref':'#'}],'b':{}}") initialState (VRef 0)).
  vm_compute. reflexivity.
Defined.

(** With the resolution enabled the result can hold itself: the text
    [{"a":{"$ref":"#"}}] parses to an object whose property [a] is the
    object. *)
Lemma parse_enabled_cycle :
  fst (run true (json "{'a':{'$ref':'#'}}")) = Val (VRef 0)
  /\ getProperty (snd (run true (json "{'a':{'$ref':'#'}}"))) (VRef 0) (js "a") = VRef 0.
Proof. split; vm_compute; reflexivity. Qed.

(* ================================================================== *)
(** ** The scalar texts on concrete inputs *)
(* ================================================================== *)

Lemma forallb_elem (p : N -> bool) (w : jsstring) :
  forallb p w = true -> forall x, x ∈ w -> p x = true.
Proof.
  intros H x Hx. apply list_elem_of_In in Hx.
  exact (proj1 (forallb_forall p w) H x Hx).
Qed.

Lemma whitespace_forallb w :
  forallb (fun x => isWhitespace [x]) w = true -> whitespace w.
Proof. intros H x Hx. exact (forallb_elem _ w H x Hx). Qed.

Lemma parse_blank_witness :
  whitespace (js " " ++ [9%N; 10%N; 13%N])
  /\ fst (run true (js " " ++ [9%N; 10%N; 13%N])) =
     Throw (SyntaxError (js "Unexpected end of json string")
                        (Z.of_nat (length (js " " ++ [9%N; 10%N; 13%N])) + 1)).
Proof.
  assert (Hw : whitespace (js " " ++ [9%N; 10%N; 13%N])).
  { apply whitespace_forallb. vm_compute. reflexivity. }
  split; [exact Hw|].
  exact (parse_blank true pointerSegments unit (fun v _ h => (inl v, h))
           (js " " ++ [9%N; 10%N; 13%N]) initialState Hw).
Defined.

Lemma parse_symbol_witness :
  fst (run false (js " " ++ js "nil" ++ [10%N])) =
  Throw (SyntaxError (js "Unknown symbol " ++ [dquote] ++ js "nil" ++ [dquote]) 1).
Proof.
  apply (parse_symbol false pointerSegments unit (fun v _ h => (inl v, h))
           (js " ") (js "nil") [10%N] initialState).
  - apply whitespace_forallb. vm_compute. reflexivity.
  - apply whitespace_forallb. vm_compute. reflexivity.
  - discriminate.
  - refine (forallb_elem (fun x => isAlpha [x]) _ _). vm_compute. reflexivity.
Defined.

Lemma parse_string_witness :
  escape (json "a'b" ++ [backslash; 10%N]) = js "a" ++ [backslash; dquote] ++ js "b"
                                                ++ [backslash; backslash; 10%N]
  /\ fst (run false (js " " ++ dquote :: escape (json "a'b" ++ [backslash; 10%N])
                        ++ dquote :: [10%N])) =
     Val (VString (json "a'b" ++ [backslash; 10%N])).
Proof.
  split; [vm_compute; reflexivity|].
  apply (parse_string false pointerSegments unit (fun v _ h => (inl v, h))
           (js " ") (json "a'b" ++ [backslash; 10%N]) [10%N] initialState).
  - apply whitespace_forallb. vm_compute. reflexivity.
  - apply whitespace_forallb. vm_compute. reflexivity.
Defined.

Lemma parse_unknown_character_witness :
  fst (run false (js " " ++ 64%N :: js " [1]")) =
  Throw (SyntaxError (js "Syntax error in part " ++ [dquote] ++ 64%N :: js " [1]" ++ [dquote])
                     (Z.of_nat (length (js " ")))).
Proof.
  apply (parse_unknown_character false pointerSegments unit (fun v _ h => (inl v, h))
           (js " ") 64%N (js " [1]") None initialState).
  - apply whitespace_forallb. vm_compute. reflexivity.
  - vm_compute. reflexivity.
Defined.


(* ================================================================== *)
(** ** Number literals *)
(* ================================================================== *)

Lemma window_split (a b text : jsstring) i :
  firstn (length (a ++ b)) (skipn i text) = a ++ b ->
  firstn (length a) (skipn i text) = a
  /\ firstn (length b) (skipn (i + length a) text) = b.
Proof.
  intros H. split.
  - apply (f_equal (firstn (length a))) in H.
    rewrite take_take, take_app_length, length_app in H.
    replace (length a `min` (length a + length b)) with (length a) in H by lia.
    exact H.
  - apply (f_equal (skipn (length a))) in H.
    rewrite drop_app_length, length_app, skipn_firstn_comm, drop_drop in H.
    replace (length a + length b - length a) with (length b) in H by lia.
    exact H.
Qed.

Lemma digit_class x :
  isDigit [x] = true ->
  isWhitespace [x] = false /\ DELIMITERS [x] = false
  /\ str_eqb [x] (js "-") = false /\ str_eqb [x] (js ".") = false
  /\ str_eqb [x] (js "e") = false /\ str_eqb [x] (js "E") = false
  /\ str_eqb [x] (js "+") = false.
Proof.
  intros H. change (js "-") with [45%N]. change (js ".") with [46%N].
  change (js "e") with [101%N]. change (js "E") with [69%N]. change (js "+") with [43%N].
  splits; char_class.
Qed.

Lemma numberEnd_class x :
  numberEnd x = true ->
  isDigit x = false /\ str_eqb x (js ".") = false
  /\ str_eqb x (js "e") = false /\ str_eqb x (js "E") = false.
Proof.
  unfold numberEnd. intros H. apply negb_true_iff in H.
  apply orb_false_iff in H as [H HE]. apply orb_false_iff in H as [H He].
  apply orb_false_iff in H as [Hd Hp]. auto.
Qed.

Lemma accept_char text i tok ty pa st h x :
  text !! i = Some x ->
  accept (cursorAt text i tok ty pa st h) =
  (Val tt, cursorAt text (S i) (tok ++ [x]) ty pa st h).
Proof.
  intros Hx.
  change (accept (cursorAt text i tok ty pa st h))
    with (Val tt, cursorAt text (S i) (tok ++ charAt text i) ty pa st h).
  rewrite (charAt_lookup _ _ _ Hx). reflexivity.
Qed.

Lemma digits_run text i tok ty pa st h ds :
  firstn (length ds) (skipn i text) = ds ->
  (forall x, x ∈ ds -> isDigit [x] = true) ->
  isDigit (charAt text (i + length ds)) = false ->
  digits (cursorAt text i tok ty pa st h) =
  (Val tt, cursorAt text (i + length ds) (tok ++ ds) ty pa st h).
Proof.
  intros Hw Hd Hstop. unfold digits, scan. rewrite bind_get.
  change (jsonText (cursorAt text i tok ty pa st h)) with text.
  apply (while_accept_run isDigit ds text i tok ty pa st h (length text)); auto.
  exact (window_length _ _ _ Hw).
Qed.

Lemma expectDigit_digit text i tok ty pa st h :
  isDigit (charAt text i) = true ->
  expectDigit (cursorAt text i tok ty pa st h) = (Val tt, cursorAt text i tok ty pa st h).
Proof.
  intros H. unfold expectDigit. rewrite bind_get.
  change (c (cursorAt text i tok ty pa st h)) with (charAt text i).
  rewrite H. reflexivity.
Qed.

Lemma digitRun_head text i ds :
  digitRun ds -> firstn (length ds) (skipn i text) = ds ->
  exists x ds', ds = x :: ds' /\ text !! i = Some x /\ isDigit [x] = true
                /\ firstn (length ds') (skipn (S i) text) = ds'
                /\ forall y, y ∈ ds' -> isDigit [y] = true.
Proof.
  intros [Hne Hd] Hw. destruct ds as [|x ds']; [congruence|].
  simpl length in Hw. apply window_cons in Hw as [Hx Hw].
  exists x, ds'. splits; auto.
  - apply Hd. left.
  - intros y Hy. apply Hd. right. exact Hy.
Qed.

(** The sign and the integer part. *)
Lemma number_int {B} (K : unit -> M B) text i tok pa st h sign int :
  firstn (length (sign ++ int)) (skipn i text) = sign ++ int ->
  isSign sign -> digitRun int ->
  isDigit (charAt text (i + length (sign ++ int))) = false ->
  bind (if str_eqb (charAt text i) (js "-") then accept ;; expectDigit
        else if str_eqb (charAt text i) (js "0") then accept
        else ret tt)
       (fun _ => bind digits K) (cursorAt text i tok NUMBER pa st h) =
  K tt (cursorAt text (i + length (sign ++ int)) (tok ++ sign ++ int) NUMBER pa st h).
Proof.
  intros Hw Hsign Hint Hstop.
  apply window_split in Hw as [Hws Hwi]. rewrite length_app in *.
  destruct (digitRun_head text _ int Hint Hwi) as (x & int' & -> & Hx & Hdx & Hw' & Hd').
  destruct (digit_class x Hdx) as (_ & _ & Hminus & _).
  destruct Hsign as [->| ->].
  - (* no sign *)
    simpl length in *. rewrite Nat.add_0_r in *. simpl app.
    rewrite (charAt_lookup _ _ _ Hx), Hminus.
    destruct (str_eqb [x] (js "0")) eqn:Ezero.
    + rewrite (bind_val _ _ _ tt _ (accept_char text i tok NUMBER pa st h x Hx)).
      rewrite (bind_val _ _ _ tt _
                 (digits_run text (S i) (tok ++ [x]) NUMBER pa st h int' Hw' Hd'
                    ltac:(replace (S i + length int') with (i + S (length int')) by lia;
                          exact Hstop))).
      replace (S i + length int') with (i + S (length int')) by lia.
      rewrite <- app_assoc. reflexivity.
    + rewrite bind_val with (a := tt) (s' := cursorAt text i tok NUMBER pa st h)
        by reflexivity.
      rewrite (bind_val _ _ _ tt _
                 (digits_run text i tok NUMBER pa st h (x :: int') Hwi
                    ltac:(intros y Hy; apply elem_of_cons in Hy as [->|Hy]; auto)
                    Hstop)).
      reflexivity.
  - (* a minus sign *)
    change (length (js "-")) with 1 in *.
    change (firstn 1 (skipn i text) = [45%N]) in Hws.
    apply window_cons in Hws as [Hm _].
    rewrite (charAt_lookup _ _ _ Hm). change (str_eqb [45%N] (js "-")) with true.
    cbv iota.
    replace (i + 1) with (S i) in * by lia.
    rewrite bind_val with (a := tt) (s' := cursorAt text (S i) (tok ++ [45%N]) NUMBER pa st h).
    2: { rewrite (bind_val _ _ _ tt _ (accept_char text i tok NUMBER pa st h _ Hm)).
         apply expectDigit_digit. rewrite (charAt_lookup _ _ _ Hx). exact Hdx. }
    rewrite (bind_val _ _ _ tt _
               (digits_run text (S i) (tok ++ [45%N]) NUMBER pa st h (x :: int') Hwi
                  ltac:(intros y Hy; apply elem_of_cons in Hy as [->|Hy]; auto)
                  ltac:(replace (S i + length (x :: int'))
                          with (i + (1 + length (x :: int'))) by lia;
                        exact Hstop))).
    replace (S i + length (x :: int')) with (i + (1 + length (x :: int'))) by lia.
    rewrite <- app_assoc. reflexivity.
Qed.

Lemma window_head (text : jsstring) i x w :
  firstn (length (x :: w)) (skipn i text) = x :: w -> charAt text i = [x].
Proof.
  intros H. simpl length in H. apply window_cons in H as [Hx _].
  exact (charAt_lookup _ _ _ Hx).
Qed.

(** The fraction. *)
Lemma number_frac text i tok pa st h frac :
  firstn (length frac) (skipn i text) = frac ->
  isFraction frac ->
  isDigit (charAt text (i + length frac)) = false ->
  (frac = [] -> str_eqb (charAt text i) (js ".") = false) ->
  (if str_eqb (charAt text i) (js ".") then accept ;; expectDigit ;; digits
   else ret tt) (cursorAt text i tok NUMBER pa st h) =
  (Val tt, cursorAt text (i + length frac) (tok ++ frac) NUMBER pa st h).
Proof.
  intros Hw [->|(ds & -> & Hds)] Hstop Hnone.
  - rewrite Hnone by reflexivity. simpl. rewrite Nat.add_0_r, app_nil_r. reflexivity.
  - clear Hnone. change (js "." ++ ds) with (46%N :: ds) in *.
    rewrite (window_head _ _ _ _ Hw). change (str_eqb [46%N] (js ".")) with true.
    cbv iota. simpl length in *.
    apply window_cons in Hw as [Hp Hw].
    destruct (digitRun_head text _ ds Hds Hw) as (x & ds' & E & Hx & Hdx & _ & _).
    destruct Hds as [_ Hd].
    rewrite (bind_val _ _ _ tt _ (accept_char text i tok NUMBER pa st h _ Hp)).
    rewrite (bind_val _ _ _ tt (cursorAt text (S i) (tok ++ [46%N]) NUMBER pa st h)).
    2: { apply expectDigit_digit. rewrite (charAt_lookup _ _ _ Hx). exact Hdx. }
    replace (i + S (length ds)) with (S i + length ds) in * by lia.
    rewrite (digits_run text (S i) (tok ++ [46%N]) NUMBER pa st h ds Hw Hd Hstop).
    rewrite <- app_assoc. reflexivity.
Qed.

(** The exponent. *)
Lemma number_exp text i tok pa st h exp :
  firstn (length exp) (skipn i text) = exp ->
  isExponent exp ->
  isDigit (charAt text (i + length exp)) = false ->
  (exp = [] -> str_eqb (charAt text i) (js "e") || str_eqb (charAt text i) (js "E") = false) ->
  (if str_eqb (charAt text i) (js "e") || str_eqb (charAt text i) (js "E") then
     accept ;;
     s <- get ;;
     (if str_eqb (c s) (js "+") || str_eqb (c s) (js "-") then accept else ret tt) ;;
     expectDigit ;;
     digits
   else ret tt) (cursorAt text i tok NUMBER pa st h) =
  (Val tt, cursorAt text (i + length exp) (tok ++ exp) NUMBER pa st h).
Proof.
  intros Hw [->|(e & sg & ds & -> & He & Hsg & Hds)] Hstop Hnone.
  - rewrite Hnone by reflexivity. simpl. rewrite Nat.add_0_r, app_nil_r. reflexivity.
  - clear Hnone. rewrite (window_head _ _ _ _ Hw).
    assert (Emark : str_eqb [e] (js "e") || str_eqb [e] (js "E") = true)
      by (destruct He as [->| ->]; reflexivity).
    rewrite Emark. cbv iota.
    simpl length in *. apply window_cons in Hw as [He' Hw].
    rewrite (bind_val _ _ _ tt _ (accept_char text i tok NUMBER pa st h _ He')).
    rewrite bind_get.
    change (c (cursorAt text (S i) (tok ++ [e]) NUMBER pa st h)) with (charAt text (S i)).
    apply window_split in Hw as [Hwsg Hwds].
    destruct (digitRun_head text _ ds Hds Hwds) as (x & ds' & E & Hx & Hdx & _ & _).
    destruct (digit_class x Hdx) as (_ & _ & Hminus & _ & _ & _ & Hplus).
    destruct Hds as [_ Hd]. rewrite length_app in *.
    assert (Hsign :
              (if str_eqb (charAt text (S i)) (js "+") || str_eqb (charAt text (S i)) (js "-")
               then accept else ret tt)
                (cursorAt text (S i) (tok ++ [e]) NUMBER pa st h) =
              (Val tt, cursorAt text (S i + length sg) ((tok ++ [e]) ++ sg) NUMBER pa st h)).
    { destruct Hsg as [->|[->| ->]].
      - simpl length in *. rewrite Nat.add_0_r in *. rewrite app_nil_r.
        rewrite (charAt_lookup _ _ _ Hx), Hminus, Hplus. reflexivity.
      - change (firstn 1 (skipn (S i) text) = [43%N]) in Hwsg.
        apply window_cons in Hwsg as [Hs _].
        rewrite (charAt_lookup _ _ _ Hs). change (length (js "+")) with 1.
        replace (S i + 1) with (S (S i)) by lia.
        apply (accept_char text (S i) (tok ++ [e]) NUMBER pa st h _ Hs).
      - change (firstn 1 (skipn (S i) text) = [45%N]) in Hwsg.
        apply window_cons in Hwsg as [Hs _].
        rewrite (charAt_lookup _ _ _ Hs). change (length (js "-")) with 1.
        replace (S i + 1) with (S (S i)) by lia.
        apply (accept_char text (S i) (tok ++ [e]) NUMBER pa st h _ Hs). }
    rewrite (bind_val _ _ _ tt _ Hsign).
    rewrite (bind_val _ _ _ tt
               (cursorAt text (S i + length sg) ((tok ++ [e]) ++ sg) NUMBER pa st h)).
    2: { apply expectDigit_digit. rewrite (charAt_lookup _ _ _ Hx). exact Hdx. }
    replace (i + S (length sg + length ds)) with (S i + length sg + length ds) in * by lia.
    rewrite (digits_run text (S i + length sg) ((tok ++ [e]) ++ sg) NUMBER pa st h ds
               Hwds Hd Hstop).
    rewrite <- !app_assoc. reflexivity.
Qed.

(** The character behind a piece of the literal that may be empty. *)
Lemma isFraction_head text i frac :
  firstn (length frac) (skipn i text) = frac -> isFraction frac ->
  frac = [] \/ charAt text i = js ".".
Proof.
  intros Hw [->|(ds & -> & _)]; [left; reflexivity|right].
  exact (window_head text i 46%N ds Hw).
Qed.

Lemma isExponent_head text i exp :
  firstn (length exp) (skipn i text) = exp -> isExponent exp ->
  exp = [] \/ charAt text i = js "e" \/ charAt text i = js "E".
Proof.
  intros Hw [->|(e & sg & ds & -> & He & _)]; [left; reflexivity|right].
  rewrite (window_head text i e (sg ++ ds) Hw). destruct He as [->| ->]; auto.
Qed.

(** The number branch of the tokenizer on a literal. *)
Lemma getNumber_literal text i pa st h sign int frac exp :
  firstn (length (sign ++ int ++ frac ++ exp)) (skipn i text) = sign ++ int ++ frac ++ exp ->
  isSign sign -> digitRun int -> isFraction frac -> isExponent exp ->
  numberEnd (charAt text (i + length (sign ++ int ++ frac ++ exp))) = true ->
  getNumber (cursorAt text i [] NULL pa st h) =
  (Val tt, cursorAt text (i + length (sign ++ int ++ frac ++ exp))
                    (sign ++ int ++ frac ++ exp) NUMBER pa st h).
Proof.
  intros Hw Hsign Hint Hfrac Hexp Hend.
  destruct (numberEnd_class _ Hend) as (Hdig & Hdot & He & HE). clear Hend.
  replace (sign ++ int ++ frac ++ exp) with ((sign ++ int) ++ frac ++ exp) in *
    by (rewrite <- app_assoc; reflexivity).
  apply window_split in Hw as [Hw1 Hw].
  apply window_split in Hw as [Hw2 Hw3].
  rewrite (length_app (sign ++ int)), (length_app frac) in *.
  set (i1 := i + length (sign ++ int)) in *.
  replace (i + (length (sign ++ int) + (length frac + length exp)))
    with (i1 + length frac + length exp) in * by lia.
  set (i2 := i1 + length frac) in *.
  assert (Hexp_stop : isDigit (charAt text i2) = false
                      /\ str_eqb (charAt text i2) (js ".") = false).
  { destruct (isExponent_head text i2 exp Hw3 Hexp) as [->|[->| ->]];
      [|split; reflexivity|split; reflexivity].
    simpl length in *. rewrite Nat.add_0_r in *. auto. }
  assert (Hfrac_stop : isDigit (charAt text i1) = false).
  { destruct (isFraction_head text i1 frac Hw2 Hfrac) as [->| ->]; [|reflexivity].
    unfold i2 in *. simpl length in *. rewrite Nat.add_0_r in *. tauto. }
  unfold getNumber. rewrite bind_modify.
  change (with_tokenType NUMBER (cursorAt text i [] NULL pa st h))
    with (cursorAt text i [] NUMBER pa st h).
  rewrite bind_get.
  change (c (cursorAt text i [] NUMBER pa st h)) with (charAt text i).
  rewrite (number_int _ text i [] pa st h sign int Hw1 Hsign Hint Hfrac_stop).
  fold i1. rewrite bind_get.
  change (c (cursorAt text i1 ([] ++ sign ++ int) NUMBER pa st h)) with (charAt text i1).
  rewrite (bind_val _ _ _ tt _
             (number_frac text i1 ([] ++ sign ++ int) pa st h frac Hw2 Hfrac
                (proj1 Hexp_stop)
                ltac:(intros ->; unfold i2 in *; simpl length in *;
                      rewrite Nat.add_0_r in *; tauto))).
  fold i2. rewrite bind_get.
  change (c (cursorAt text i2 (([] ++ sign ++ int) ++ frac) NUMBER pa st h))
    with (charAt text i2).
  rewrite (number_exp text i2 (([] ++ sign ++ int) ++ frac) pa st h exp Hw3 Hexp Hdig).
  - simpl app. rewrite <- !app_assoc. reflexivity.
  - intros ->. simpl length in *. rewrite Nat.add_0_r in *. rewrite He, HE. reflexivity.
Qed.

(** A number literal is one number token. *)
Lemma getToken_number text i pa st h sign int frac exp :
  firstn (length (sign ++ int ++ frac ++ exp)) (skipn i text) = sign ++ int ++ frac ++ exp ->
  isSign sign -> digitRun int -> isFraction frac -> isExponent exp ->
  numberEnd (charAt text (i + length (sign ++ int ++ frac ++ exp))) = true ->
  getToken (cursorAt text i [] NULL pa st h) =
  (Val tt, cursorAt text (i + length (sign ++ int ++ frac ++ exp))
                    (sign ++ int ++ frac ++ exp) NUMBER pa st h).
Proof.
  intros Hw Hsign Hint Hfrac Hexp Hend.
  assert (Hhead : isWhitespace (charAt text i) = false
                  /\ DELIMITERS (charAt text i) = false
                  /\ isDigit (charAt text i) || str_eqb (charAt text i) (js "-") = true).
  { pose proof Hw as Hw'.
    destruct Hsign as [->| ->].
    - simpl app in Hw'.
      apply window_split in Hw' as [Hw' _].
      destruct (digitRun_head text i int Hint Hw') as (x & int' & _ & Hx & Hdx & _).
      destruct (digit_class x Hdx) as (Hws & Hdel & _).
      rewrite (charAt_lookup _ _ _ Hx), Hws, Hdel, Hdx. auto.
    - change (js "-" ++ int ++ frac ++ exp) with (45%N :: int ++ frac ++ exp) in Hw'.
      rewrite (window_head _ _ _ _ Hw'). splits; vm_compute; reflexivity. }
  destruct Hhead as (Hws & Hdel & Hnum).
  rewrite getToken_dispatch by exact Hws.
  rewrite Hdel, Hnum. cbv iota.
  apply getNumber_literal; auto.
Qed.

Lemma whitespace_numberEnd w : whitespace w -> numberEnd (charAt w 0) = true.
Proof.
  intros Hw. destruct w as [|x w]; [reflexivity|].
  assert (H : isWhitespace [x] = true) by (apply Hw; left).
  change (charAt (x :: w) 0) with [x]. unfold numberEnd.
  change (js ".") with [46%N]. change (js "e") with [101%N]. change (js "E") with [69%N].
  apply negb_true_iff. char_class.
Qed.

Section Numbers.

Variable circularRefs : bool.
Variable parsePointer : jsstring -> list jsstring.
Variable Reviver : Type.
Variable revive : value -> Reviver -> list container -> (value + exn) * list container.

(** X10: the number grammar of the tokenizer. A literal made of an
    optional minus sign, a non-empty run of digits (leading zeros
    included), an optional fraction (a point and a non-empty run of digits)
    and an optional exponent (e or E, an optional sign and a non-empty run
    of digits), with whitespace around it, is one number token, and
    [parse] returns the Number the conversion [token/1] gives for the
    whole literal. *)
Theorem parse_number w1 sign int frac exp w2 s0 :
  whitespace w1 -> whitespace w2 ->
  isSign sign -> digitRun int -> isFraction frac -> isExponent exp ->
  fst (parse circularRefs parsePointer Reviver revive
             (w1 ++ (sign ++ int ++ frac ++ exp) ++ w2) None s0) =
  Val (VNumber (Number.div (Number.toNumber (sign ++ int ++ frac ++ exp)) Number.one)).
Proof.
  intros Hw1 Hw2 Hsign Hint Hfrac Hexp.
  set (lit := sign ++ int ++ frac ++ exp).
  set (text := w1 ++ lit ++ w2).
  set (s1 := cursorAt text (length (w1 ++ lit)) lit NUMBER [] [] []).
  set (send := cursorAt text (S (length text)) [] DELIMITER [] [] []).
  assert (Hlit : exists x lit', lit = x :: lit' /\ isWhitespace [x] = false).
  { unfold lit. destruct Hint as [Hne Hd]. destruct Hsign as [->| ->].
    - destruct int as [|x int']; [congruence|]. exists x, (int' ++ frac ++ exp).
      split; [reflexivity|]. apply (digit_class x). apply Hd. left.
    - exists 45%N, (int ++ frac ++ exp). split; reflexivity. }
  destruct Hlit as (x & lit' & Elit & Hx).
  rewrite (parse_finish _ _ _ _ text s0
             (Val (VNumber (Number.div (Number.toNumber lit) Number.one))) send);
    [reflexivity| |reflexivity].
  rewrite (bind_val getToken _ _ tt s1).
  - rewrite parseFuel_S, parseObject_scalar by reflexivity.
    rewrite parseString_other by reflexivity.
    unfold parseNumber. rewrite bind_get.
    change (tokenType s1) with NUMBER. change (token s1) with lit.
    change (tokenType_eqb NUMBER NUMBER) with true. cbv iota zeta.
    rewrite (bind_val getToken _ s1 tt send); [reflexivity|].
    unfold s1, send, text. rewrite app_assoc.
    apply getToken_trailing. exact Hw2.
  - rewrite (getToken_whitespace text 0 w1).
    + simpl. unfold s1. rewrite length_app.
      apply getToken_number; auto.
      * apply window_app.
      * unfold text. rewrite <- length_app, app_assoc, charAt_app_r.
        apply whitespace_numberEnd. exact Hw2.
    + exact (window_app [] w1 (lit ++ w2)).
    + exact Hw1.
    + simpl. unfold text. rewrite charAt_app_r, Elit. exact Hx.
Qed.

End Numbers.

Lemma digitRun_forallb ds :
  ds <> [] -> forallb (fun x => isDigit [x]) ds = true -> digitRun ds.
Proof. intros Hne H. split; [exact Hne|]. exact (forallb_elem _ ds H). Qed.

Lemma parse_number_witness :
  fst (run false (js " " ++ (js "-" ++ js "007" ++ js ".50" ++ js "E+02") ++ [10%N])) =
  Val (VNumber (Number.div (Number.toNumber (js "-" ++ js "007" ++ js ".50" ++ js "E+02"))
                           Number.one))
  /\ Number.div (Number.toNumber (js "-" ++ js "007" ++ js ".50" ++ js "E+02")) Number.one
     = S754_finite true 6597069766656000 (-43).
Proof.
  split; [|vm_compute; reflexivity].
  apply (parse_number false pointerSegments unit (fun v _ h => (inl v, h))
           (js " ") (js "-") (js "007") (js ".50") (js "E+02") [10%N] initialState).
  - apply whitespace_forallb. vm_compute. reflexivity.
  - apply whitespace_forallb. vm_compute. reflexivity.
  - right. reflexivity.
  - apply digitRun_forallb; [discriminate|vm_compute; reflexivity].
  - right. exists (js "50"). split; [reflexivity|].
    apply digitRun_forallb; [discriminate|vm_compute; reflexivity].
  - right. exists 69%N, (js "+"), (js "02"). splits; auto.
    apply digitRun_forallb; [discriminate|vm_compute; reflexivity].
Defined.

(* ================================================================== *)
(** ** The text of a document parses to the document *)
(* ================================================================== *)

Lemma terminator_class x :
  terminator x = true -> isAlpha x = false /\ numberEnd x = true.
Proof.
  unfold terminator. intros H. apply andb_true_iff in H as [Ha Hn].
  apply negb_true_iff in Ha. auto.
Qed.

Lemma whitespace_terminator w : whitespace w -> terminator (charAt w 0) = true.
Proof.
  intros Hw. unfold terminator.
  rewrite (whitespace_head w Hw), (whitespace_numberEnd w Hw). reflexivity.
Qed.

Lemma delimiter_class x :
  DELIMITERS [x] = true -> isWhitespace [x] = false /\ terminator [x] = true.
Proof.
  intros H. unfold terminator, numberEnd.
  change (js ".") with [46%N]. change (js "e") with [101%N]. change (js "E") with [69%N].
  split; [char_class|].
  apply andb_true_iff. split; apply negb_true_iff; char_class.
Qed.

(** A delimiter is a token of its own. *)
Lemma getToken_delimiter text i x :
  text !! i = Some x -> DELIMITERS [x] = true -> nextToken text i (S i) [x] DELIMITER.
Proof.
  intros Hx Hdel tok0 ty0 pa st h.
  destruct (delimiter_class x Hdel) as [Hws _].
  rewrite getToken_reset, getToken_dispatch by (rewrite (charAt_lookup _ _ _ Hx); exact Hws).
  rewrite (charAt_lookup _ _ _ Hx), Hdel. cbv iota.
  rewrite !bind_modify. unfold next, bind, modify, cursorAt. simpl.
  rewrite (charAt_lookup _ _ _ Hx). reflexivity.
Qed.

Lemma window_char (text a b : jsstring) i x :
  firstn (length (a ++ x :: b)) (skipn i text) = a ++ x :: b ->
  text !! (i + length a) = Some x.
Proof.
  intros H. apply window_split in H as [_ H].
  simpl length in H. apply window_cons in H as [H _]. exact H.
Qed.

Lemma window_prefix (text a b : jsstring) i :
  firstn (length (a ++ b)) (skipn i text) = a ++ b ->
  firstn (length a) (skipn i text) = a.
Proof. intros H. apply window_split in H as [H _]. exact H. Qed.

Lemma window_suffix (text a b : jsstring) i :
  firstn (length (a ++ b)) (skipn i text) = a ++ b ->
  firstn (length b) (skipn (i + length a) text) = b.
Proof. intros H. apply window_split in H as [_ H]. exact H. Qed.

(** The first token of the text of a document. *)
Lemma getToken_first d text i :
  wf d ->
  firstn (length (print d)) (skipn i text) = print d ->
  terminator (charAt text (i + length (print d))) = true ->
  nextToken text i (i + firstLength d) (firstToken d) (firstType d).
Proof.
  intros Hwf Hw Hterm tok0 ty0 pa st h.
  destruct (terminator_class _ Hterm) as [Halpha Hnum].
  rewrite getToken_reset.
  destruct d as [|b|sign int frac exp|body|items|members].
  - apply (getToken_symbol text i (js "null") pa st h);
      [discriminate | refine (forallb_elem (fun x => isAlpha [x]) _ _); reflexivity
      | exact Hw | exact Halpha].
  - destruct b;
      [apply (getToken_symbol text i (js "true") pa st h)
      |apply (getToken_symbol text i (js "false") pa st h)];
      first [discriminate | exact Hw | exact Halpha
            | refine (forallb_elem (fun x => isAlpha [x]) _ _); reflexivity].
  - destruct Hwf as (Hsign & Hint & Hfrac & Hexp).
    apply getToken_number; auto.
  - change (firstLength (DString body)) with (length (quote body)).
    unfold quote. simpl length. rewrite length_app. simpl length.
    replace (i + S (length (escape body) + 1)) with (i + length (escape body) + 2) by lia.
    apply getToken_string.
    assert (E : length (escape body) + 2 = length (print (DString body)))
      by (simpl; rewrite length_app; simpl; lia).
    change (firstToken (DString body)) with body. rewrite E. exact Hw.
  - replace (i + firstLength (DArray items)) with (S i) by (simpl; lia).
    apply (getToken_delimiter text i 91%N); [|reflexivity].
    pose proof (window_char text [] _ i 91%N Hw) as H. rewrite Nat.add_0_r in H. exact H.
  - replace (i + firstLength (DObject members)) with (S i) by (simpl; lia).
    apply (getToken_delimiter text i 123%N); [|reflexivity].
    pose proof (window_char text [] _ i 123%N Hw) as H. rewrite Nat.add_0_r in H. exact H.
Qed.

Lemma bind_landing {A B} (m : M A) (k : A -> M B) s a text j tok ty h b j' tok' ty' h' :
  landing (m s) a text j tok ty h ->
  (forall pa st, landing (k a (cursorAt text j tok ty pa st h)) b text j' tok' ty' h') ->
  landing (bind m k s) b text j' tok' ty' h'.
Proof.
  intros (pa & st & E) H. rewrite (bind_val m k s a _ E). apply H.
Qed.

Lemma loop_step fuel body s :
  loop (S fuel) body s = bind body (fun continue => if continue : bool then loop fuel body else ret tt) s.
Proof. reflexivity. Qed.

Lemma landing_val {A} (a : A) text j tok ty pa st h :
  landing (Val a, cursorAt text j tok ty pa st h) a text j tok ty h.
Proof. exists pa, st. reflexivity. Qed.

Lemma push_run {B} (k : unit -> M B) l v text j tok ty pa st h :
  bind (push (VRef l) v) k (cursorAt text j tok ty pa st h) =
  k tt (cursorAt text j tok ty pa st (pushAt l v h)).
Proof.
  unfold push. rewrite bind_modify. f_equal. unfold pushAt.
  change (heap (cursorAt text j tok ty pa st h)) with h.
  destruct (h !! l) as [[props|items]|]; reflexivity.
Qed.

Lemma setProperty_run {B} (k : unit -> M B) l key v text j tok ty pa st h :
  bind (setProperty (VRef l) key v) k (cursorAt text j tok ty pa st h) =
  k tt (cursorAt text j tok ty pa st (setAt l key v h)).
Proof.
  unfold setProperty. rewrite bind_modify. f_equal. unfold setAt.
  change (heap (cursorAt text j tok ty pa st h)) with h.
  destruct (h !! l) as [[props|items]|]; reflexivity.
Qed.

Lemma isDelimiter_cursor d text j tok pa st h :
  isDelimiter d (cursorAt text j tok DELIMITER pa st h) = str_eqb tok d.
Proof. reflexivity. Qed.

Lemma length_commas parts : length parts <= length (commas parts).
Proof.
  induction parts as [|p ps IH]; [reflexivity|].
  unfold commas in *. simpl in *. rewrite length_app. lia.
Qed.

Lemma commas_cons p ps : commas (p :: ps) = 44%N :: p ++ commas ps.
Proof. reflexivity. Qed.

(** The character behind an item of a list that [close] ends. *)
Lemma item_follow (text : jsstring) i (p : jsstring) ps close :
  firstn (length (p ++ commas ps ++ [close])) (skipn i text) = p ++ commas ps ++ [close] ->
  text !! (i + length p) = Some (match ps with [] => close | _ => 44%N end).
Proof.
  intros H. destruct ps as [|q ps].
  - exact (window_char text p [] i close H).
  - unfold commas in H. simpl in H.
    exact (window_char text p _ i 44%N H).
Qed.

Lemma item_next (text : jsstring) i (p q : jsstring) ps close :
  firstn (length (p ++ commas (q :: ps) ++ [close])) (skipn i text)
  = p ++ commas (q :: ps) ++ [close] ->
  firstn (length (q ++ commas ps ++ [close])) (skipn (S (i + length p)) text)
  = q ++ commas ps ++ [close].
Proof.
  intros H. apply window_suffix in H. unfold commas in *. simpl in H.
  rewrite <- app_assoc in H.
  change (firstn (S (length (q ++ concat (map (fun p => js "," ++ p) ps) ++ [close])))
                 (skipn (i + length p) text)
          = 44%N :: q ++ concat (map (fun p => js "," ++ p) ps) ++ [close]) in H.
  apply window_cons in H as [_ H]. exact H.
Qed.

Section ArrayLoop.

Variable rec : M value.
Variable l n : nat.

(** The loop of [parseArray] over the items that are left. *)
Lemma array_loop ds :
  forall d fuel text i pa st h,
    reads rec d -> Forall (reads rec) ds -> wf d -> Forall wf ds ->
    firstn (length (print d ++ commas (map print ds) ++ js "]")) (skipn i text)
    = print d ++ commas (map print ds) ++ js "]" ->
    length ds < fuel ->
    landing
      (loop fuel
         (modify (fun s => with_path
                    (arraySet (path s) n
                       (VString (numberToString (arrayLength s (VRef l))))) s) ;;
          item <- rec ;;
          push (VRef l) item ;;
          s <- get ;;
          if negb (isDelimiter (js ",") s) then ret false
          else getToken ;; ret true)
         (cursorAt text (i + firstLength d) (firstToken d) (firstType d) pa st h))
      tt text (S (i + length (print d ++ commas (map print ds)))) (js "]") DELIMITER
      (fold_left (fun h' d => pushAt l (fst (build d h')) (snd (build d h')))
                 (d :: ds) h).
Proof.
  induction ds as [|d2 ds IH]; intros d fuel text i pa st h Hd Hds Hwf Hwfs Hw Hfuel;
    (destruct fuel as [|fuel]; [lia|]).
  - (* the last item *)
    pose proof (item_follow text i (print d) [] 93%N Hw) as Hclose.
    rewrite loop_step, bind_assoc, bind_modify.
    match goal with
    | |- context [with_path ?X (cursorAt ?t ?j ?tok ?ty ?p ?s ?hh)] =>
        change (with_path X (cursorAt t j tok ty p s hh)) with (cursorAt t j tok ty X s hh);
        generalize X; intros pa1
    end.
    rewrite bind_assoc.
    eapply bind_landing;
      [exact (Hd text i _ _ _ pa1 st h (window_prefix _ _ _ _ Hw)
                 (getToken_delimiter text _ 93%N Hclose eq_refl))|].
    intros pa2 st2. rewrite bind_assoc, push_run, bind_assoc, bind_get.
    rewrite isDelimiter_cursor. change (negb (str_eqb [93%N] (js ","))) with true.
    cbv iota. unfold bind at 1, ret at 1. cbv iota beta.
    simpl map. unfold commas. simpl concat. rewrite app_nil_r.
    apply landing_val.
  - (* an item and a comma *)
    pose proof (item_follow text i (print d) (print d2 :: map print ds) 93%N Hw) as Hcomma.
    pose proof (item_next text i (print d) (print d2) (map print ds) 93%N Hw) as Hw2.
    inversion Hds as [|? ? Hd2 Hds']; subst. inversion Hwfs as [|? ? Hwf2 Hwfs']; subst.
    rewrite loop_step, bind_assoc, bind_modify.
    match goal with
    | |- context [with_path ?X (cursorAt ?t ?j ?tok ?ty ?p ?s ?hh)] =>
        change (with_path X (cursorAt t j tok ty p s hh)) with (cursorAt t j tok ty X s hh);
        generalize X; intros pa1
    end.
    rewrite bind_assoc.
    eapply bind_landing;
      [exact (Hd text i _ _ _ pa1 st h (window_prefix _ _ _ _ Hw)
                 (getToken_delimiter text _ 44%N Hcomma eq_refl))|].
    intros pa2 st2. rewrite bind_assoc, push_run, bind_assoc, bind_get.
    rewrite isDelimiter_cursor. change (negb (str_eqb [44%N] (js ","))) with false.
    cbv iota.
    assert (Hnext : nextToken text (S (i + length (print d)))
                      (S (i + length (print d)) + firstLength d2)
                      (firstToken d2) (firstType d2)).
    { apply getToken_first; [exact Hwf2 | exact (window_prefix _ _ _ _ Hw2) |].
      rewrite (charAt_lookup _ _ _
                 (item_follow text _ (print d2) (map print ds) 93%N Hw2)).
      destruct (map print ds); reflexivity. }
    rewrite bind_assoc, (bind_val getToken _ _ tt _ (Hnext _ _ _ _ _)).
    unfold bind at 1, ret at 1. cbv iota beta.
    specialize (IH d2 fuel text (S (i + length (print d))) pa2 st2
                  (pushAt l (fst (build d h)) (snd (build d h)))
                  Hd2 Hds' Hwf2 Hwfs' Hw2 ltac:(simpl in Hfuel; lia)).
    replace (S (i + length (print d ++ commas (map print (d2 :: ds)))))
      with (S (S (i + length (print d)) + length (print d2 ++ commas (map print ds)))).
    + exact IH.
    + change (map print (d2 :: ds)) with (print d2 :: map print ds).
      rewrite commas_cons, !length_app. simpl length. rewrite length_app. lia.
Qed.

End ArrayLoop.

Lemma if_negb_true {A} (b : bool) (x y : A) : b = true -> (if negb b then x else y) = y.
Proof. intros ->. reflexivity. Qed.

Lemma if_negb_false {A} (b : bool) (x y : A) : b = false -> (if negb b then x else y) = x.
Proof. intros ->. reflexivity. Qed.

Lemma length_quote body : length (quote body) = length (escape body) + 2.
Proof. unfold quote. simpl. rewrite length_app. simpl. lia. Qed.

Lemma window_tail (text : jsstring) i x w :
  firstn (length (x :: w)) (skipn i text) = x :: w ->
  text !! i = Some x /\ firstn (length w) (skipn (S i) text) = w.
Proof. exact (window_cons text i (length w) x w). Qed.

Lemma getToken_key text i body :
  firstn (length (escape body) + 2) (skipn i text) = quote body ->
  nextToken text i (i + length (escape body) + 2) body STRING.
Proof.
  intros Hw tok0 ty0 pa st h. rewrite getToken_reset.
  apply getToken_string. exact Hw.
Qed.

Lemma length_commas_cons p ps :
  length (commas (p :: ps)) = S (length p + length (commas ps)).
Proof. rewrite commas_cons. simpl. rewrite length_app. reflexivity. Qed.

Lemma length_member key d :
  length (member (key, d)) = length (escape key) + 3 + length (print d).
Proof.
  unfold member. rewrite !length_app, length_quote.
  change (length (js ":")) with 1. simpl fst. simpl snd. lia.
Qed.

Section ObjectLoop.

Variable rec : M value.
Variable l n : nat.

(** The loop of [parseObject] over the members that are left, from the
    key of the first of them. *)
Lemma object_loop ms :
  forall key d fuel text j pa st h,
    reads rec d -> Forall (fun m => reads rec (snd m)) ms ->
    wf d -> Forall (fun m => wf (snd m)) ms ->
    firstn (length (58%N :: print d ++ commas (map member ms) ++ js "}")) (skipn j text)
    = 58%N :: print d ++ commas (map member ms) ++ js "}" ->
    length ms < fuel ->
    landing
      (loop fuel
         (s <- get ;;
          if negb (tokenType_eqb (tokenType s) STRING)
          then throw (createSyntaxError (js "Object key expected") None)
          else
            let key := token s in
            getToken ;;
            s <- get ;;
            if negb (isDelimiter (js ":") s)
            then throw (createSyntaxError (js "Colon expected") None)
            else
              getToken ;;
              modify (fun s => with_path (arraySet (path s) n (VString key)) s) ;;
              v <- rec ;;
              setProperty (VRef l) key v ;;
              s <- get ;;
              if negb (isDelimiter (js ",") s) then ret false
              else getToken ;; ret true)
         (cursorAt text j key STRING pa st h))
      tt text (S (S (j + length (print d ++ commas (map member ms))))) (js "}") DELIMITER
      (fold_left (fun h' m => setAt l (fst m) (fst (build (snd m) h'))
                                    (snd (build (snd m) h')))
                 ((key, d) :: ms) h).
Proof.
  induction ms as [|[key2 d2] ms IH];
    intros key d fuel text j pa st h Hd Hds Hwf Hwfs Hw Hfuel;
    (destruct fuel as [|fuel]; [lia|]).
  - (* the last member *)
    apply window_tail in Hw as [Hcolon Hw].
    pose proof (item_follow text (S j) (print d) [] 125%N Hw) as Hclose.
    rewrite loop_step, bind_assoc, bind_get.
    rewrite if_negb_true by reflexivity. cbv zeta.
    change (token (cursorAt text j key STRING pa st h)) with key.
    rewrite bind_assoc, (bind_val getToken _ _ tt _
                           (getToken_delimiter text j 58%N Hcolon eq_refl _ _ _ _ _)).
    rewrite bind_assoc, bind_get, isDelimiter_cursor.
    rewrite if_negb_true by reflexivity.
    assert (Hfirst : nextToken text (S j) (S j + firstLength d) (firstToken d) (firstType d)).
    { apply getToken_first; [exact Hwf | exact (window_prefix _ _ _ _ Hw) |].
      rewrite (charAt_lookup _ _ _ Hclose). reflexivity. }
    rewrite bind_assoc, (bind_val getToken _ _ tt _ (Hfirst _ _ _ _ _)).
    rewrite bind_assoc, bind_modify.
    match goal with
    | |- context [with_path ?X (cursorAt ?t ?j ?tok ?ty ?p ?s ?hh)] =>
        change (with_path X (cursorAt t j tok ty p s hh)) with (cursorAt t j tok ty X s hh);
        generalize X; intros pa1
    end.
    rewrite bind_assoc.
    eapply bind_landing;
      [exact (Hd text (S j) _ _ _ pa1 st h (window_prefix _ _ _ _ Hw)
                 (getToken_delimiter text _ 125%N Hclose eq_refl))|].
    intros pa2 st2. rewrite bind_assoc, setProperty_run, bind_assoc, bind_get.
    rewrite isDelimiter_cursor. rewrite if_negb_false by reflexivity.
    unfold bind at 1, ret at 1. cbv iota beta.
    change (commas (map member [])) with (@nil N). rewrite app_nil_r.
    replace (S (S (j + length (print d)))) with (S (S j + length (print d))) by lia.
    apply landing_val.
  - (* a member and a comma *)
    apply window_tail in Hw as [Hcolon Hw].
    change (map member ((key2, d2) :: ms)) with (member (key2, d2) :: map member ms) in *.
    pose proof (item_follow text (S j) (print d) _ 125%N Hw) as Hcomma.
    pose proof (item_next text (S j) (print d) _ _ 125%N Hw) as Hw2.
    inversion Hds as [|? ? Hd2 Hds']; subst. inversion Hwfs as [|? ? Hwf2 Hwfs']; subst.
    simpl snd in Hd2, Hwf2.
    rewrite loop_step, bind_assoc, bind_get.
    rewrite if_negb_true by reflexivity. cbv zeta.
    change (token (cursorAt text j key STRING pa st h)) with key.
    rewrite bind_assoc, (bind_val getToken _ _ tt _
                           (getToken_delimiter text j 58%N Hcolon eq_refl _ _ _ _ _)).
    rewrite bind_assoc, bind_get, isDelimiter_cursor.
    rewrite if_negb_true by reflexivity.
    assert (Hfirst : nextToken text (S j) (S j + firstLength d) (firstToken d) (firstType d)).
    { apply getToken_first; [exact Hwf | exact (window_prefix _ _ _ _ Hw) |].
      rewrite (charAt_lookup _ _ _ Hcomma). reflexivity. }
    rewrite bind_assoc, (bind_val getToken _ _ tt _ (Hfirst _ _ _ _ _)).
    rewrite bind_assoc, bind_modify.
    match goal with
    | |- context [with_path ?X (cursorAt ?t ?j ?tok ?ty ?p ?s ?hh)] =>
        change (with_path X (cursorAt t j tok ty p s hh)) with (cursorAt t j tok ty X s hh);
        generalize X; intros pa1
    end.
    rewrite bind_assoc.
    eapply bind_landing;
      [exact (Hd text (S j) _ _ _ pa1 st h (window_prefix _ _ _ _ Hw)
                 (getToken_delimiter text _ 44%N Hcomma eq_refl))|].
    intros pa2 st2. rewrite bind_assoc, setProperty_run, bind_assoc, bind_get.
    rewrite isDelimiter_cursor. rewrite if_negb_true by reflexivity.
    (* the key of the next member *)
    set (p := S (S j + length (print d))) in *.
    unfold member at 1 3 in Hw2. simpl fst in Hw2. simpl snd in Hw2.
    rewrite <- !app_assoc in Hw2.
    pose proof (window_prefix _ _ _ _ Hw2) as Hkey.
    pose proof (window_suffix _ _ _ _ Hw2) as Hrest.
    rewrite length_quote in Hkey.
    rewrite bind_assoc,
      (bind_val getToken _ _ tt _ (getToken_key text p key2 Hkey _ _ _ _ _)).
    unfold bind at 1, ret at 1. cbv iota beta.
    specialize (IH key2 d2 fuel text (p + length (quote key2)) pa2 st2
                  (setAt l key (fst (build d h)) (snd (build d h)))
                  Hd2 Hds' Hwf2 Hwfs' Hrest ltac:(simpl in Hfuel; lia)).
    rewrite length_quote, Nat.add_assoc in IH.
    replace (S (S (j + length (print d ++ commas (member (key2, d2) :: map member ms)))))
      with (S (S (p + length (escape key2) + 2
                  + length (print d2 ++ commas (map member ms))))).
    + exact IH.
    + rewrite !length_app, length_commas_cons, length_member. unfold p. lia.
Qed.

End ObjectLoop.

Lemma first_open d text j pa st h :
  isDelimiter (js "]") (cursorAt text j (firstToken d) (firstType d) pa st h) = false
  /\ isDelimiter (js "}") (cursorAt text j (firstToken d) (firstType d) pa st h) = false.
Proof. destruct d as [|[|]| | | |]; split; reflexivity. Qed.

Lemma wf_items items :
  fold_right (fun d P => wf d /\ P) True items -> Forall wf items.
Proof.
  induction items as [|d ds IH]; simpl; intros H; constructor; tauto.
Qed.

Lemma wf_members (members : list (jsstring * doc)) :
  fold_right (fun m P => (fst m <> js "__proto__" /\ wf (snd m)) /\ P) True members ->
  Forall (fun m => wf (snd m)) members.
Proof.
  induction members as [|m ms IH]; simpl; intros H; constructor; tauto.
Qed.

Lemma length_commas_elem (f : doc -> jsstring) d ds :
  d ∈ ds -> length (f d) < length (commas (map f ds)).
Proof.
  induction ds as [|d' ds IH]; intros Hin; [inversion Hin|].
  change (map f (d' :: ds)) with (f d' :: map f ds). rewrite length_commas_cons.
  apply elem_of_cons in Hin as [->|Hin]; [lia|]. specialize (IH Hin). lia.
Qed.

Lemma length_commas_member (m : jsstring * doc) ms :
  m ∈ ms -> length (print (snd m)) < length (commas (map member ms)).
Proof.
  induction ms as [|m' ms IH]; intros Hin; [inversion Hin|].
  change (map member (m' :: ms)) with (member m' :: map member ms).
  rewrite length_commas_cons.
  apply elem_of_cons in Hin as [->|Hin].
  - destruct m' as [key d]. rewrite length_member. simpl. lia.
  - specialize (IH Hin). lia.
Qed.

Lemma print_array d ds :
  print (DArray (d :: ds)) = 91%N :: print d ++ commas (map print ds) ++ js "]".
Proof.
  change (print (DArray (d :: ds)))
    with (91%N :: (print d ++ commas (map print ds)) ++ js "]").
  rewrite <- app_assoc. reflexivity.
Qed.

Lemma print_object key d ms :
  print (DObject ((key, d) :: ms)) =
  123%N :: quote key ++ 58%N :: print d ++ commas (map member ms) ++ js "}".
Proof.
  change (print (DObject ((key, d) :: ms)))
    with (123%N :: ((quote key ++ 58%N :: print d) ++ commas (map member ms)) ++ js "}").
  rewrite <- !app_assoc. reflexivity.
Qed.

Lemma alloc_run {B} (k : value -> M B) c0 text j tok ty pa st h :
  bind (alloc c0) k (cursorAt text j tok ty pa st h) =
  k (VRef (length h)) (cursorAt text j tok ty pa st (h ++ [c0])).
Proof. reflexivity. Qed.

Section Reads.

Variable parsePointer : jsstring -> list jsstring.

(** The scalars. *)
Lemma reads_scalar fuel d :
  match d with DArray _ | DObject _ => False | _ => True end ->
  reads (parseObject false parsePointer (S fuel)) d.
Proof.
  intros Hd text i j' tok' ty' pa st h Hw Hnext.
  destruct d as [|b|sign int frac exp|body|items|members]; try contradiction.
  - rewrite parseObject_scalar, parseString_other, parseNumber_other by reflexivity.
    exists pa, st. unfold parseSymbol. rewrite bind_get.
    exact (bind_val getToken (fun _ => ret VNull) _ tt _ (Hnext _ _ pa st h)).
  - rewrite parseObject_scalar, parseString_other, parseNumber_other by reflexivity.
    exists pa, st. unfold parseSymbol. rewrite bind_get.
    destruct b.
    + exact (bind_val getToken (fun _ => ret (VBool true)) _ tt _ (Hnext _ _ pa st h)).
    + exact (bind_val getToken (fun _ => ret (VBool false)) _ tt _ (Hnext _ _ pa st h)).
  - rewrite parseObject_scalar, parseString_other by reflexivity.
    exists pa, st. unfold parseNumber. rewrite bind_get.
    exact (bind_val getToken _ _ tt _ (Hnext _ _ pa st h)).
  - rewrite parseObject_scalar by reflexivity.
    exists pa, st. unfold parseString. rewrite bind_get.
    exact (bind_val getToken _ _ tt _ (Hnext _ _ pa st h)).
Qed.


Lemma parseObject_other circularRefs fuel s :
  isDelimiter (js "{") s = false ->
  parseObject circularRefs parsePointer (S fuel) s =
  parseArray fuel (parseObject circularRefs parsePointer fuel) s.
Proof. intros H. simpl. rewrite bind_get, H. reflexivity. Qed.

(** The arrays, given the items. *)
Lemma reads_array fuel items :
  Forall (reads (parseObject false parsePointer fuel)) items ->
  Forall wf items ->
  length (print (DArray items)) <= fuel ->
  reads (parseObject false parsePointer (S fuel)) (DArray items).
Proof.
  intros Hitems Hwf Hfuel text i j' tok' ty' pa st h Hw Hnext.
  change (firstLength (DArray items)) with 1.
  change (firstToken (DArray items)) with (js "[").
  change (firstType (DArray items)) with DELIMITER.
  rewrite parseObject_other by reflexivity.
  unfold parseArray. rewrite bind_get.
  change (isDelimiter (js "[") (cursorAt text (i + 1) (js "[") DELIMITER pa st h)) with true.
  cbv iota.
  destruct items as [|d ds].
  - (* the empty array *)
    change (print (DArray [])) with [91%N; 93%N] in *.
    pose proof (window_char text [91%N] [] i 93%N Hw) as Hclose.
    change (length [91%N]) with 1 in Hclose.
    rewrite (bind_val getToken _ _ tt _
               (getToken_delimiter text _ 93%N Hclose eq_refl _ _ _ _ _)).
    rewrite alloc_run, bind_get, isDelimiter_cursor.
    change (str_eqb [93%N] (js "]")) with true. cbv iota.
    change (length [91%N; 93%N]) with 2 in Hnext.
    replace (S (i + 1)) with (i + 2) by lia.
    rewrite (bind_val getToken _ _ tt _ (Hnext _ _ _ _ _)).
    apply landing_val.
  - (* the items *)
    rewrite print_array in *.
    apply window_tail in Hw as [_ Hw].
    inversion Hitems as [|? ? Hd Hds]; subst. inversion Hwf as [|? ? Hwfd Hwfds]; subst.
    assert (Hfirst : nextToken text (S i) (S i + firstLength d) (firstToken d) (firstType d)).
    { apply getToken_first; [exact Hwfd | exact (window_prefix _ _ _ _ Hw) |].
      rewrite (charAt_lookup _ _ _ (item_follow text _ (print d) (map print ds) 93%N Hw)).
      destruct (map print ds); reflexivity. }
    replace (i + 1) with (S i) by lia.
    rewrite (bind_val getToken _ _ tt _ (Hfirst _ _ _ _ _)).
    rewrite alloc_run, bind_get.
    rewrite (proj1 (first_open d _ _ _ _ _)). cbv iota zeta.
    rewrite bind_modify.
    match goal with
    | |- context [with_stack ?X (cursorAt ?t ?j ?tok ?ty ?p ?s ?hh)] =>
        change (with_stack X (cursorAt t j tok ty p s hh)) with (cursorAt t j tok ty p X hh);
        generalize X; intros st1
    end.
    eapply bind_landing.
    { apply (array_loop (parseObject false parsePointer fuel) (length h) (length st) ds
               d fuel text (S i) pa st1 (h ++ [CArray []]) Hd Hds Hwfd Hwfds Hw).
      simpl length in Hfuel. rewrite !length_app in Hfuel.
      pose proof (length_commas (map print ds)) as Hc. rewrite length_map in Hc. lia. }
    intros pa2 st2. rewrite bind_get, isDelimiter_cursor.
    rewrite if_negb_true by reflexivity.
    replace (S (S i + length (print d ++ commas (map print ds))))
      with (i + length (91%N :: print d ++ commas (map print ds) ++ js "]")).
    2: { simpl length. rewrite !length_app. change (length (js "]")) with 1. lia. }
    rewrite (bind_val getToken _ _ tt _ (Hnext _ _ _ _ _)).
    rewrite !bind_modify. unfold landing. eexists _, _. reflexivity.
Qed.

(** The objects, given the values of the members. *)
Lemma reads_object fuel members :
  Forall (fun m => reads (parseObject false parsePointer fuel) (snd m)) members ->
  Forall (fun m => wf (snd m)) members ->
  length (print (DObject members)) <= fuel ->
  reads (parseObject false parsePointer (S fuel)) (DObject members).
Proof.
  intros Hmembers Hwf Hfuel text i j' tok' ty' pa st h Hw Hnext.
  change (firstLength (DObject members)) with 1.
  change (firstToken (DObject members)) with (js "{").
  change (firstType (DObject members)) with DELIMITER.
  simpl parseObject. rewrite bind_get.
  change (isDelimiter (js "{") (cursorAt text (i + 1) (js "{") DELIMITER pa st h)) with true.
  cbv iota.
  destruct members as [|[key d] ms].
  - (* the empty object *)
    change (print (DObject [])) with [123%N; 125%N] in *.
    pose proof (window_char text [123%N] [] i 125%N Hw) as Hclose.
    change (length [123%N]) with 1 in Hclose.
    rewrite (bind_val getToken _ _ tt _
               (getToken_delimiter text _ 125%N Hclose eq_refl _ _ _ _ _)).
    rewrite alloc_run, bind_get, isDelimiter_cursor.
    change (str_eqb [125%N] (js "}")) with true. cbv iota.
    change (length [123%N; 125%N]) with 2 in Hnext.
    replace (S (i + 1)) with (i + 2) by lia.
    rewrite (bind_val getToken _ _ tt _ (Hnext _ _ _ _ _)).
    apply landing_val.
  - (* the members *)
    rewrite print_object in *.
    apply window_tail in Hw as [_ Hw].
    inversion Hmembers as [|? ? Hd Hds]; subst. inversion Hwf as [|? ? Hwfd Hwfds]; subst.
    simpl snd in Hd, Hwfd.
    pose proof (window_prefix _ _ _ _ Hw) as Hkey. rewrite length_quote in Hkey.
    pose proof (window_suffix _ _ _ _ Hw) as Hrest. rewrite length_quote in Hrest.
    replace (i + 1) with (S i) by lia.
    rewrite (bind_val getToken _ _ tt _ (getToken_key text (S i) key Hkey _ _ _ _ _)).
    rewrite alloc_run, bind_get.
    change (isDelimiter (js "}")
              (cursorAt text (S i + length (escape key) + 2) key STRING pa st
                        (h ++ [CObject ∅]))) with false.
    cbv iota zeta.
    rewrite bind_modify.
    match goal with
    | |- context [with_stack ?X (cursorAt ?t ?j ?tok ?ty ?p ?s ?hh)] =>
        change (with_stack X (cursorAt t j tok ty p s hh)) with (cursorAt t j tok ty p X hh);
        generalize X; intros st1
    end.
    assert (Hlt : length ms < fuel).
    { rewrite length_cons, length_app, length_cons, !length_app in Hfuel.
      pose proof (length_commas (map member ms)) as Hc. rewrite length_map in Hc. lia. }
    replace (S i + length (escape key) + 2) with (S i + (length (escape key) + 2)) by lia.
    eapply bind_landing;
      [exact (object_loop (parseObject false parsePointer fuel) (length h) (length st) ms
                key d fuel text (S i + (length (escape key) + 2)) pa st1 (h ++ [CObject ∅])
                Hd Hds Hwfd Hwfds Hrest Hlt)|].
    intros pa2 st2. rewrite bind_get, isDelimiter_cursor.
    rewrite if_negb_true by reflexivity.
    replace (S (S (S i + (length (escape key) + 2)
                   + length (print d ++ commas (map member ms)))))
      with (i + length (123%N :: quote key ++ 58%N :: print d ++ commas (map member ms)
                              ++ js "}")).
    2: { rewrite length_cons, length_app, length_quote, length_cons, !length_app.
         change (length (js "}")) with 1. lia. }
    rewrite (bind_val getToken _ _ tt _ (Hnext _ _ _ _ _)).
    rewrite bind_get.
    match goal with
    | |- context [if ?b then _ else _] => destruct b
    end.
    + unfold landing. eexists _, _. reflexivity.
    + rewrite !bind_modify. unfold landing. eexists _, _. reflexivity.
Qed.

(** Every well-formed document is read, with more fuel than characters. *)
Lemma reads_parseObject fuel :
  forall d, wf d -> length (print d) < fuel -> reads (parseObject false parsePointer fuel) d.
Proof.
  induction fuel as [|fuel IH]; intros d Hwf Hlen; [lia|].
  destruct d as [|b|sign int frac exp|body|items|members];
    try (apply reads_scalar; exact I).
  - apply wf_items in Hwf.
    apply reads_array; [|exact Hwf|lia].
    apply Forall_forall. intros d Hd.
    apply IH; [exact (proj1 (Forall_forall _ _) Hwf d Hd)|].
    destruct items as [|d0 ds]; [inversion Hd|].
    rewrite print_array in Hlen. simpl length in Hlen. rewrite !length_app in Hlen.
    apply elem_of_cons in Hd as [->|Hd]; [lia|].
    pose proof (length_commas_elem print d ds Hd). lia.
  - apply wf_members in Hwf.
    apply reads_object; [|exact Hwf|lia].
    apply Forall_forall. intros m Hm.
    apply IH; [exact (proj1 (Forall_forall _ _) Hwf m Hm)|].
    destruct members as [|[key0 d0] ms]; [inversion Hm|].
    rewrite print_object in Hlen.
    rewrite length_cons, length_app, length_cons, !length_app in Hlen.
    apply elem_of_cons in Hm as [->|Hm]; [simpl; lia|].
    pose proof (length_commas_member m ms Hm). lia.
Qed.

End Reads.

Lemma print_head d :
  wf d -> exists x rest, print d = x :: rest /\ isWhitespace [x] = false.
Proof.
  intros Hwf. destruct d as [|[|]|sign int frac exp|body|items|members];
    try (eexists _, _; split; reflexivity).
  destruct Hwf as (Hsign & [Hne Hd] & _).
  destruct Hsign as [->| ->]; [|eexists _, _; split; reflexivity].
  destruct int as [|x int']; [congruence|].
  exists x, (int' ++ frac ++ exp). split; [reflexivity|].
  apply (digit_class x). apply Hd. left.
Qed.

Section RoundTrip.

Variable parsePointer : jsstring -> list jsstring.
Variable Reviver : Type.
Variable revive : value -> Reviver -> list container -> (value + exn) * list container.

(** X11: the text of a document parses to the document. With the
    resolution of circular references disabled, for every document whose
    number literals are well formed and in which no member of an object is
    named [__proto__], [parse] applied to the compact text of the
    document, with whitespace before and behind it, returns the value of
    the document and leaves its containers in the heap: the items of an
    array in their order, and for each key of an object the value of the
    last member with that key. (A member named [__proto__] is no own
    property of the object the source builds: such documents are outside
    the statement.) *)
Theorem parse_print w1 d w2 s0 :
  whitespace w1 -> whitespace w2 -> wf d ->
  fst (parse false parsePointer Reviver revive (w1 ++ print d ++ w2) None s0)
  = Val (fst (build d []))
  /\ heap (snd (parse false parsePointer Reviver revive (w1 ++ print d ++ w2) None s0))
     = snd (build d []).
Proof.
  intros Hw1 Hw2 Hwf.
  set (text := w1 ++ print d ++ w2).
  assert (Hw : firstn (length (print d)) (skipn (length w1) text) = print d)
    by apply window_app.
  assert (Hfirst : getToken (cursorAt text 0 [] NULL [] [] []) =
                   (Val tt, cursorAt text (length w1 + firstLength d) (firstToken d)
                                     (firstType d) [] [] [])).
  { rewrite (getToken_whitespace text 0 w1).
    - apply getToken_first; auto. unfold text.
      rewrite <- length_app, app_assoc, charAt_app_r.
      apply whitespace_terminator. exact Hw2.
    - exact (window_app [] w1 (print d ++ w2)).
    - exact Hw1.
    - destruct (print_head d Hwf) as (x & rest & E & Hx).
      simpl. unfold text. rewrite charAt_app_r, E. exact Hx. }
  assert (Hlast : nextToken text (length w1 + length (print d)) (S (length text))
                            [] DELIMITER).
  { intros tok0 ty0 pa st h. unfold text. rewrite <- length_app, app_assoc.
    apply getToken_trailing. exact Hw2. }
  destruct (reads_parseObject parsePointer (parseFuel text) d Hwf
              ltac:(unfold parseFuel, text; rewrite !length_app; lia)
              text (length w1) _ _ _ [] [] [] Hw Hlast) as (pa & st & Hrun).
  rewrite (parse_finish false parsePointer Reviver revive text s0
             (Val (fst (build d [])))
             (cursorAt text (S (length text)) [] DELIMITER pa st (snd (build d []))));
    [split; reflexivity| |reflexivity].
  rewrite (bind_val getToken _ _ tt _ Hfirst). exact Hrun.
Qed.

End RoundTrip.

Lemma parse_print_witness :
  print (DObject [(js "a", DArray [DNumber [] (js "1") [] []; DNull; DObject []]);
                  (js "b", DString (json "x'y"));
                  (js "a", DBool true)])
  = js "{" ++ json "'a':[1,null,{}],'b':'x" ++ [backslash] ++ json "'y','a':true}"
  /\ fst (run false (js " " ++ print (DObject [(js "a", DArray [DNumber [] (js "1") [] [];
                                                              DNull; DObject []]);
                                              (js "b", DString (json "x'y"));
                                              (js "a", DBool true)]) ++ [10%N]))
     = Val (VRef 0)
  /\ heap (snd (run false (js " " ++ print (DObject [(js "a", DArray [DNumber [] (js "1") [] [];
                                                                    DNull; DObject []]);
                                                    (js "b", DString (json "x'y"));
                                                    (js "a", DBool true)]) ++ [10%N])))
     = [CObject (<[js "a" := VBool true]> (<[js "b" := VString (json "x'y")]> ∅));
        CArray [VNumber Number.one; VNull; VRef 2];
        CObject ∅].
Proof.
  split; [vm_compute; reflexivity|].
  assert (Hwf : wf (DObject [(js "a", DArray [DNumber [] (js "1") [] []; DNull; DObject []]);
                             (js "b", DString (json "x'y"));
                             (js "a", DBool true)])).
  { simpl. splits; auto; try (left; reflexivity); try discriminate.
    apply digitRun_forallb; [discriminate|vm_compute; reflexivity]. }
  pose proof (parse_print pointerSegments unit (fun v _ h => (inl v, h))
                (js " ") _ [10%N] initialState
                ltac:(apply whitespace_forallb; vm_compute; reflexivity)
                ltac:(apply whitespace_forallb; vm_compute; reflexivity)
                Hwf) as [Hv Hh].
  split; [exact Hv|].
  etransitivity; [exact Hh|]. vm_compute. reflexivity.
Defined.

(* ================================================================== *)
(** ** The reviver, and the tokens as pieces of the text *)
(* ================================================================== *)

Section Reviver.

Variable circularRefs : bool.
Variable parsePointer : jsstring -> list jsstring.
Variable Reviver : Type.
Variable revive : value -> Reviver -> list container -> (value + exn) * list container.

(** X12: [parse] with a reviver is [parse] without one followed by
    [revive]: the reviver is applied once, to the value of the whole text
    and after the check for trailing characters, and a text that [parse]
    rejects without a reviver is rejected with the same error and the same
    state, without a call of [revive]. *)
Theorem parse_reviver text r s0 :
  parse circularRefs parsePointer Reviver revive text (Some r) s0 =
  match parse circularRefs parsePointer Reviver revive text None s0 with
  | (Val json, s) =>
      match revive json r (heap s) with
      | (inl v, h) => (Val v, with_heap h s)
      | (inr e, h) => (Throw e, with_heap h s)
      end
  | (Throw e, s) => (Throw e, s)
  | (OutOfFuel, s) => (OutOfFuel, s)
  end.
Proof.
  rewrite !parse_initialize.
  set (init := mkState text 0 (charAt text 0) [] NULL [] [] []).
  unfold bind at 1 4.
  destruct (getToken init) as [[[]| |] s1]; try reflexivity.
  unfold bind at 1 3.
  destruct (parseObject circularRefs parsePointer (parseFuel text) s1) as [[json| |] s2];
    try reflexivity.
  rewrite !bind_get.
  destruct (negb (str_eqb (token s2) [])); reflexivity.
Qed.

End Reviver.

(** X13: the tokenizer moves forward, and a token that is not a string is
    a piece of the text. From a cursor that is consistent with the text
    and not behind its end, a call of [getToken] that returns has moved
    the cursor forward by at least one character; and a token of another
    type than STRING that is not empty is the piece of the text that ends
    at the cursor. *)
Theorem getToken_token_text text s s' :
  cursor_ok text s -> index s <= length text ->
  getToken s = (Val tt, s') ->
  index s < index s'
  /\ (tokenType s' <> STRING -> token s' <> [] ->
      exists pre post,
        text = pre ++ token s' ++ post /\ index s' = length pre + length (token s')).
Proof.
  intros Hc Hle Hrun.
  pose proof (getToken_spec text (index s) s (conj Hc (conj eq_refl Hle))) as H.
  rewrite Hrun in H. destruct H as [[_ Hlive] Hlt]. split; [exact Hlt|].
  intros Hty Hne. destruct Hlive as [[_ Hempty] | [Hle' Hspan]]; [congruence|].
  destruct (Hspan Hty) as [pre Hpre].
  exists pre, (skipn (index s') text). split.
  - rewrite app_assoc, <- Hpre. symmetry. apply firstn_skipn.
  - assert (Hlen : length (firstn (index s') text) = length (pre ++ token s'))
      by (rewrite Hpre; reflexivity).
    rewrite length_take, length_app in Hlen. lia.
Qed.

Lemma getToken_token_text_witness :
  exists s',
    getToken (mkState (js "[ -12.5e3,") 1 (js " ") (js "[") DELIMITER [] [] []) = (Val tt, s')
    /\ token s' = js "-12.5e3"
    /\ 1 < index s'
    /\ exists pre post,
         js "[ -12.5e3," = pre ++ token s' ++ post
         /\ index s' = length pre + length (token s').
Proof.
  eexists. split; [vm_compute; reflexivity|]. split; [reflexivity|].
  refine ((fun H => conj (proj1 H) (proj2 H _ _))
            (getToken_token_text (js "[ -12.5e3,")
               (mkState (js "[ -12.5e3,") 1 (js " ") (js "[") DELIMITER [] [] []) _ _ _ _));
    try discriminate.
  - split; reflexivity.
  - vm_compute. lia.
  - vm_compute. reflexivity.
Defined.

(* ================================================================== *)
(** ** Strings that the text does not close *)
(* ================================================================== *)

Lemma length_contentText items : length items <= length (contentText items).
Proof.
  induction items as [|it items IH]; [reflexivity|].
  unfold contentText in *. simpl. rewrite length_app.
  destruct it; simpl; lia.
Qed.

(** The string loop over the pieces of a content, up to a closing quote
    or the end of the text. *)
Lemma while_string_items items :
  forall text i tok pa st h fuel,
    firstn (length (contentText items)) (skipn i text) = contentText items ->
    forallb itemOk items = true ->
    negb (str_eqb (charAt text (i + length (contentText items))) [])
    && negb (str_eqb (charAt text (i + length (contentText items))) [dquote]) = false ->
    length items <= fuel ->
    while fuel (fun s => negb (str_eqb (c s) []) && negb (str_eqb (c s) [dquote]))
          stringChar (cursorAt text i tok STRING pa st h) =
    (Val tt, cursorAt text (i + length (contentText items)) (tok ++ contentValue items)
                      STRING pa st h).
Proof.
  induction items as [|it items IH]; intros text i tok pa st h fuel Hw Hok Hstop Hfuel.
  - unfold contentText, contentValue in *. simpl in *.
    rewrite Nat.add_0_r in *. rewrite app_nil_r. apply while_done. exact Hstop.
  - change (contentText (it :: items)) with (itemText it ++ contentText items) in *.
    change (contentValue (it :: items)) with (itemValue it ++ contentValue items).
    simpl forallb in Hok. apply andb_true_iff in Hok as [Hit Hok].
    destruct fuel as [|fuel]; [simpl in Hfuel; lia|].
    pose proof (window_prefix _ _ _ _ Hw) as Hhead.
    pose proof (window_suffix _ _ _ _ Hw) as Htail.
    rewrite length_app, Nat.add_assoc in *.
    assert (Hfuel' : length items <= fuel) by (simpl in Hfuel; lia).
    destruct it as [x|x|a1 a2 a3 a4].
    + (* a character that stands for itself *)
      simpl in Hit. apply andb_true_iff in Hit as [Eq Eb].
      apply negb_true_iff in Eq. apply negb_true_iff in Eb.
      apply window_tail in Hhead as [Hx _].
      change (length (itemText (Char x))) with 1 in *.
      replace (i + 1) with (S i) in * by lia.
      assert (Hcond : negb (str_eqb [x] []) && negb (str_eqb [x] [dquote]) = true).
      { rewrite str_eqb_single. unfold dquote in *. rewrite Eq. reflexivity. }
      rewrite while_step
        by (change (negb (str_eqb (charAt text i) [])
                    && negb (str_eqb (charAt text i) [dquote]) = true);
            rewrite (charAt_lookup _ _ _ Hx); exact Hcond).
      assert (Hstep : stringChar (cursorAt text i tok STRING pa st h) =
                      (Val tt, cursorAt text (S i) (tok ++ [x]) STRING pa st h)).
      { unfold stringChar. rewrite bind_get.
        change (c (cursorAt text i tok STRING pa st h)) with (charAt text i).
        rewrite (charAt_lookup _ _ _ Hx), str_eqb_single. unfold backslash in *.
        rewrite Eb. apply accept_char. exact Hx. }
      rewrite (bind_val _ _ _ _ _ Hstep).
      rewrite (IH text (S i) (tok ++ [x]) pa st h fuel Htail Hok Hstop Hfuel').
      rewrite <- app_assoc. reflexivity.
    + (* an escape of the table *)
      simpl in Hit. destruct (ESCAPE_CHARACTERS [x]) as [u|] eqn:Eu; [|discriminate].
      apply window_tail in Hhead as [Hb Hhead]. apply window_tail in Hhead as [Hx _].
      change (length (itemText (Escape x))) with 2 in *.
      replace (i + 2) with (S (S i)) in * by lia.
      rewrite while_step
        by (change (negb (str_eqb (charAt text i) [])
                    && negb (str_eqb (charAt text i) [dquote]) = true);
            rewrite (charAt_lookup _ _ _ Hb); reflexivity).
      unfold cursorAt at 1. rewrite (charAt_lookup _ _ _ Hb).
      rewrite (bind_val _ _ _ _ _ (stringChar_escape text i tok STRING pa st h x u Hx Eu)).
      change (mkState text (S (S i)) (charAt text (S (S i))) (tok ++ u) STRING pa st h)
        with (cursorAt text (S (S i)) (tok ++ u) STRING pa st h).
      rewrite (IH text (S (S i)) (tok ++ u) pa st h fuel Htail Hok Hstop Hfuel').
      change (itemValue (Escape x)) with (default [] (ESCAPE_CHARACTERS [x])).
      rewrite Eu, <- app_assoc. reflexivity.
    + (* four hexadecimal digits *)
      change (itemOk (Unicode a1 a2 a3 a4))
        with (isHex [a1] && isHex [a2] && isHex [a3] && isHex [a4]) in Hit.
      apply andb_true_iff in Hit as [Hit H4].
      apply andb_true_iff in Hit as [Hit H3]. apply andb_true_iff in Hit as [H1 H2].
      apply window_tail in Hhead as [Hb Hhead]. apply window_tail in Hhead as [Hu Hdigits].
      change (length (itemText (Unicode a1 a2 a3 a4))) with 6 in *.
      change (length [a1; a2; a3; a4]) with 4 in Hdigits.
      assert (Hhex : forall k, k < 4 -> isHex (charAt text (S (S i) + k)) = true).
      { intros k Hk. unfold charAt.
        rewrite (window_lookup text (S (S i)) 4 _ k Hdigits Hk).
        destruct k as [|[|[|[|k]]]]; [exact H1|exact H2|exact H3|exact H4|lia]. }
      rewrite while_step
        by (change (negb (str_eqb (charAt text i) [])
                    && negb (str_eqb (charAt text i) [dquote]) = true);
            rewrite (charAt_lookup _ _ _ Hb); reflexivity).
      unfold cursorAt at 1. rewrite (charAt_lookup _ _ _ Hb).
      rewrite (bind_val _ _ _ _ _ (stringChar_unicode text i tok STRING pa st h Hu Hhex)).
      rewrite Hdigits.
      change (mkState text (i + 6) (charAt text (i + 6))
                (tok ++ fromCharCode (parseInt16 0 [a1; a2; a3; a4])) STRING pa st h)
        with (cursorAt text (i + 6) (tok ++ itemValue (Unicode a1 a2 a3 a4)) STRING pa st h).
      rewrite (IH text (i + 6) _ pa st h fuel Htail Hok Hstop Hfuel').
      rewrite <- app_assoc. reflexivity.
Qed.

(** The string branch of the tokenizer on a string that the text does not
    close. *)
Lemma getToken_unclosed text i items pa st h :
  skipn i text = dquote :: contentText items ->
  forallb itemOk items = true ->
  fst (getToken (cursorAt text i [] NULL pa st h)) =
  Throw (SyntaxError (js "End of string expected")
                     (Z.of_nat (length text) - Z.of_nat (length (contentValue items)))).
Proof.
  intros Hrest Hok.
  assert (Hlen : length text = i + S (length (contentText items))).
  { change (S (length (contentText items))) with (length (dquote :: contentText items)).
    rewrite <- Hrest, length_drop.
    assert (i < length text); [|lia].
    destruct (decide (i < length text)); auto.
    rewrite drop_ge in Hrest by lia. discriminate. }
  assert (Hw : firstn (length (dquote :: contentText items)) (skipn i text)
               = dquote :: contentText items).
  { rewrite Hrest. apply firstn_all. }
  apply window_tail in Hw as [Hq Hw].
  pose proof (charAt_lookup _ _ _ Hq) as Hc.
  destruct quote_class as (Hws & Hdel & Hnum & Hstr).
  rewrite getToken_dispatch by (rewrite Hc; exact Hws).
  rewrite Hc, Hdel, Hnum, Hstr. cbv beta iota.
  unfold getString. rewrite bind_modify.
  change (with_tokenType STRING (cursorAt text i [] NULL pa st h))
    with (cursorAt text i [] STRING pa st h).
  rewrite (bind_val next _ _ tt (cursorAt text (S i) [] STRING pa st h)) by reflexivity.
  assert (Hend : charAt text (S i + length (contentText items)) = [])
    by (apply charAt_end; lia).
  unfold scan at 1.
  rewrite (bind_val _ _ _ tt
             (cursorAt text (S i + length (contentText items)) ([] ++ contentValue items)
                       STRING pa st h)).
  2: { rewrite bind_get.
       change (jsonText (cursorAt text (S i) [] STRING pa st h)) with text.
       apply while_string_items; [exact Hw|exact Hok|rewrite Hend; reflexivity|].
       pose proof (length_contentText items). lia. }
  rewrite bind_get.
  change (c (cursorAt text (S i + length (contentText items)) ([] ++ contentValue items)
                      STRING pa st h))
    with (charAt text (S i + length (contentText items))).
  rewrite Hend. change (negb (str_eqb [] [dquote])) with true. cbv iota.
  unfold throw, createSyntaxError, cursorAt, fst, index, token.
  do 2 f_equal. rewrite app_nil_l. lia.
Qed.

Lemma ESCAPE_CHARACTERS_length x u : ESCAPE_CHARACTERS x = Some u -> length u = 1.
Proof.
  unfold ESCAPE_CHARACTERS.
  repeat match goal with
         | |- context [if ?b then _ else _] => destruct b
         end;
    intros H; inversion H; reflexivity.
Qed.

(** A piece the loop accepts adds one character to the token. *)
Lemma length_content items :
  forallb itemOk items = true ->
  length (contentText items) = length (contentValue items) + contentShift items.
Proof.
  induction items as [|it items IH]; intros Hok; [reflexivity|].
  simpl forallb in Hok. apply andb_true_iff in Hok as [Hit Hok].
  change (contentText (it :: items)) with (itemText it ++ contentText items).
  change (contentValue (it :: items)) with (itemValue it ++ contentValue items).
  change (contentShift (it :: items)) with (itemShift it + contentShift items).
  rewrite !length_app, (IH Hok).
  destruct it as [x|x|a1 a2 a3 a4].
  - simpl. lia.
  - change (itemOk (Escape x))
      with (match ESCAPE_CHARACTERS [x] with Some _ => true | None => false end) in Hit.
    change (itemValue (Escape x)) with (default [] (ESCAPE_CHARACTERS [x])).
    destruct (ESCAPE_CHARACTERS [x]) as [u|] eqn:Eu; [|discriminate].
    simpl default. rewrite (ESCAPE_CHARACTERS_length _ _ Eu). simpl. lia.
  - change (length (itemValue (Unicode a1 a2 a3 a4))) with 1. simpl. lia.
Qed.

Section Unclosed.

Variable circularRefs : bool.
Variable parsePointer : jsstring -> list jsstring.
Variable Reviver : Type.
Variable revive : value -> Reviver -> list container -> (value + exn) * list container.

(** X6: a string that the text does not close. A text made of whitespace,
    a double quote and, up to its end, a content that the string loop
    accepts (characters other than the double quote and the backslash,
    escapes of the table [ESCAPE_CHARACTERS], and [\u] with four
    hexadecimal digits) is rejected with the error
    "End of string expected", with or without a reviver. The position it
    reports is the offset behind the opening quote, plus one for each
    escape of the table and five for each [\u] escape of the content: it
    is the length of the text less the length of the decoded content.
    (A content that the loop does not accept, such as a backslash at the
    end of the text, fails before that with the error of the escape.) *)
Theorem parse_unterminated_string w1 items reviver s0 :
  whitespace w1 ->
  forallb itemOk items = true ->
  fst (parse circularRefs parsePointer Reviver revive
             (w1 ++ dquote :: contentText items) reviver s0) =
  Throw (SyntaxError (js "End of string expected")
                     (Z.of_nat (length w1 + 1 + contentShift items)))
  /\ length w1 + 1 + contentShift items + length (contentValue items)
     = length (w1 ++ dquote :: contentText items).
Proof.
  intros Hw1 Hok.
  assert (Hlen : length w1 + 1 + contentShift items + length (contentValue items)
                 = length (w1 ++ dquote :: contentText items)).
  { rewrite length_app, length_cons, (length_content items Hok). lia. }
  split; [|exact Hlen].
  replace (Z.of_nat (length w1 + 1 + contentShift items))
    with (Z.of_nat (length (w1 ++ dquote :: contentText items))
          - Z.of_nat (length (contentValue items)))%Z by lia.
  pose proof (getToken_unclosed (w1 ++ dquote :: contentText items) (length w1) items
                [] [] [] (drop_app_length w1 (dquote :: contentText items)) Hok) as Hrun.
  rewrite <- (getToken_whitespace (w1 ++ dquote :: contentText items) 0 w1 [] NULL) in Hrun.
  - destruct (getToken (cursorAt (w1 ++ dquote :: contentText items) 0 [] NULL [] [] []))
      as [o s1] eqn:E.
    simpl in Hrun. subst o.
    rewrite (parse_first_token _ _ _ _ _ _ _ _ _ E). reflexivity.
  - exact (window_app [] w1 (dquote :: contentText items)).
  - exact Hw1.
  - simpl. rewrite charAt_app_r. reflexivity.
Qed.

End Unclosed.

Lemma parse_unterminated_string_witness :
  js " " ++ dquote :: contentText [Char 97; Escape 110; Unicode 48 48 52 49; Escape dquote]
  = js " " ++ [dquote] ++ js "a" ++ [backslash] ++ js "n" ++ [backslash] ++ js "u0041"
       ++ [backslash; dquote]
  /\ contentValue [Char 97; Escape 110; Unicode 48 48 52 49; Escape dquote]
     = js "a" ++ [10%N] ++ js "A" ++ [dquote]
  /\ fst (run false (js " " ++ dquote
                        :: contentText [Char 97; Escape 110; Unicode 48 48 52 49;
                                        Escape dquote])) =
     Throw (SyntaxError (js "End of string expected") (Z.of_nat (1 + 1 + (1 + 5 + 1)))).
Proof.
  split; [vm_compute; reflexivity|]. split; [vm_compute; reflexivity|].
  apply (proj1 (parse_unterminated_string false pointerSegments unit
                  (fun v _ h => (inl v, h))
                  (js " ") [Char 97; Escape 110; Unicode 48 48 52 49; Escape dquote]
                  None initialState
                  ltac:(apply whitespace_forallb; vm_compute; reflexivity)
                  ltac:(vm_compute; reflexivity))).
Defined.
